(** * Autoregressive observation models of [ssm/observations/arhmm.py]

    A shallow embedding of the observation-model classes of the switching
    autoregressive HMM: the mean predictor [_compute_mus], [smooth],
    [log_likelihoods], [permute], the covariance setters and the M-steps of
    the Gaussian, independent and robust (Student's t) variants.

    Arrays are nested lists ([vec], [mat], [tensor3]) whose entries are real
    numbers: float64 rounding is outside the model, every index computation,
    slice, broadcast and control-flow decision of the source is inside it.
    Routines of other packages (LAPACK solve and Cholesky, the densities of
    [ssm.stats], the random generator) are fields of the class [Numerics] or
    explicit arguments. *)

From Stdlib Require Import Reals Lra Lia List Arith Bool.
Import ListNotations.
Local Open Scope R_scope.

(* ================================================================== *)
(** * Part I: definitions *)
(* ================================================================== *)

(** ** Arrays and exceptions *)

Abbreviation vec := (list R) (only parsing).
Abbreviation mat := (list (list R)) (only parsing).
Abbreviation tensor3 := (list (list (list R))) (only parsing).

(** The Python exceptions the modelled code can raise.  [MissingData] stands
    for both forms the source uses to reject an incomplete mask: the
    [assert np.all(mask), "Cannot compute likelihood ... with missing data."]
    of the likelihoods and the [raise Exception("Encountered missing data
    ...")] of the M-steps. *)
Inductive exn :=
| MissingData
| AssertionError
| AttributeError
| IndexError
| ValueError
| LinAlgError
| NotImplementedError
| TypeError
| ZeroDivisionError.

Inductive result (A : Type) : Type :=
| Ok (a : A)
| Raise (e : exn).
Arguments Ok {A} a.
Arguments Raise {A} e.

Definition bind {A B : Type} (r : result A) (f : A -> result B) : result B :=
  match r with
  | Ok a => f a
  | Raise e => Raise e
  end.

Notation "x <- c1 ;; c2" := (bind c1 (fun x => c2))
  (at level 61, c1 at next level, right associativity).

Fixpoint sequence {A : Type} (rs : list (result A)) : result (list A) :=
  match rs with
  | [] => Ok []
  | r :: rs' => a <- r ;; l <- sequence rs' ;; Ok (a :: l)
  end.

Fixpoint those {A : Type} (os : list (option A)) : option (list A) :=
  match os with
  | [] => Some []
  | Some a :: os' => option_map (cons a) (those os')
  | None :: _ => None
  end.

Definition of_option {A : Type} (e : exn) (o : option A) : result A :=
  match o with
  | Some a => Ok a
  | None => Raise e
  end.

(** ** The numpy operations the source uses *)

Fixpoint map2 {A B C : Type} (f : A -> B -> C) (xs : list A) (ys : list B) : list C :=
  match xs, ys with
  | x :: xs', y :: ys' => f x y :: map2 f xs' ys'
  | _, _ => []
  end.

Definition Rsum (v : vec) : R := fold_right Rplus 0 v.

Definition vadd (u v : vec) : vec := map2 Rplus u v.
Definition vsub (u v : vec) : vec := map2 Rminus u v.
Definition vmul (u v : vec) : vec := map2 Rmult u v.
Definition vscale (c : R) (v : vec) : vec := map (Rmult c) v.
Definition madd (X Y : mat) : mat := map2 vadd X Y.
Definition msub (X Y : mat) : mat := map2 vsub X Y.
Definition mscale (c : R) (X : mat) : mat := map (vscale c) X.

Definition dot (u v : vec) : R := Rsum (vmul u v).

(** [W @ x] for a matrix [W] and a vector [x]. *)
Definition matvec (W : mat) (x : vec) : vec := map (fun w => dot w x) W.

(** [np.dot(X, W.T)]: row [t] of the result is [W @ X[t]]. *)
Definition dot_T (X W : mat) : mat := map (fun x => map (fun w => dot x w) W) X.

(** [l[a:b]] for [0 <= a] and [0 <= b]. *)
Definition slice {A : Type} (a b : nat) (l : list A) : list A :=
  firstn (b - a) (skipn a l).

(** [X[:, a:b]] and [X[:, j]]. *)
Definition cols (a b : nat) (X : mat) : mat := map (slice a b) X.
Definition col (j : nat) (X : mat) : vec := map (fun r => nth j r 0) X.

(** [data[lags-l-1:-l-1]]: the negative stop counts from the end. *)
Definition lagged {A : Type} (lags l : nat) (data : list A) : list A :=
  slice (lags - l - 1) (length data - (l + 1)) data.

Definition zeros (n : nat) : vec := repeat 0 n.
Definition ones (n d : nat) : mat := repeat (repeat 1 d) n.
Definition ones3 (n k d : nat) : tensor3 := repeat (ones k d) n.
Definition zeros2 (n d : nat) : mat := repeat (zeros d) n.

(** [X + b] with the row [b] broadcast over the rows of [X]. *)
Definition add_row (X : mat) (b : vec) : mat := map (fun x => vadd x b) X.

Definition vstack {A : Type} (X Y : list A) : list A := X ++ Y.

(** [np.diag(v)] for a vector and for a square matrix. *)
Definition diag (v : vec) : mat :=
  map (fun i => map (fun j => if (i =? j)%nat then nth i v 0 else 0)
                    (seq 0 (length v)))
      (seq 0 (length v)).
Definition diagonal (S : mat) : vec :=
  map (fun i => nth i (nth i S []) 0) (seq 0 (length S)).

Definition eye (n : nat) : mat := diag (repeat 1 n).

(** [np.hstack] / [np.column_stack] of two-dimensional blocks with the same
    number of rows. *)
Definition hstack (blocks : list mat) : mat :=
  match blocks with
  | [] => []
  | b0 :: _ => map (fun i => concat (map (fun b => nth i b []) blocks))
                   (seq 0 (length b0))
  end.

(** [np.column_stack] of one-dimensional arrays: the arrays become the
    columns; an empty sequence of arrays is a [ValueError]. *)
Definition column_stack (columns : list vec) : result mat :=
  match columns with
  | [] => Raise ValueError
  | c0 :: _ => Ok (map (fun t => map (fun c => nth t c 0) columns)
                       (seq 0 (length c0)))
  end.

(** [np.swapaxes(X, 0, 1)] on the two outer axes. *)
Definition swapaxes {A : Type} (d : A) (X : list (list A)) : list (list A) :=
  map (fun j => map (fun r => nth j r d) X) (seq 0 (length (hd [] X))).

(** [X.sum(0)] of a non-empty stack of rows. *)
Definition sum_rows (X : mat) : vec :=
  match X with
  | [] => []
  | r :: rs => fold_left vadd rs r
  end.

(** numpy broadcasting along one axis: equal lengths pair up, a length-one
    axis is repeated, anything else is a [ValueError] ("operands could not
    be broadcast together"). *)
Definition bzip {A B C : Type} (f : A -> B -> result C)
    (xs : list A) (ys : list B) : result (list C) :=
  if (length xs =? length ys)%nat then sequence (map2 f xs ys)
  else match xs, ys with
       | [x], _ => sequence (map (f x) ys)
       | _, [y] => sequence (map (fun x => f x y) xs)
       | _, _ => Raise ValueError
       end.

Definition bmul3 (X Y : tensor3) : result tensor3 :=
  bzip (bzip (bzip (fun a b => Ok (a * b)))) X Y.

Definition has_shape2 (X : mat) (n d : nat) : bool :=
  (length X =? n)%nat && forallb (fun r => (length r =? d)%nat) X.
Definition has_shape3 (X : tensor3) (n k d : nat) : bool :=
  (length X =? n)%nat && forallb (fun x => has_shape2 x k d) X.

(** [np.all(mask)]. *)
Definition np_all (mask : list (list bool)) : bool :=
  forallb (forallb (fun b => b)) mask.

(** ** The observation models *)

(** The concrete classes of the file.  The two [...NoInput] classes are
    their parents constructed with [M = 0]. *)
Inductive variant :=
| AutoRegressiveObservations
| AutoRegressiveDiagonalNoiseObservations
| IndependentAutoRegressiveObservations
| RobustAutoRegressiveObservations
| RobustAutoRegressiveDiagonalNoiseObservations
| AltRobustAutoRegressiveDiagonalNoiseObservations.

(** The noise attributes an instance carries: the square-root factors
    [_sqrt_Sigmas_init], [_sqrt_Sigmas] of the full-covariance classes, or
    the [_log_sigmasq_init], [_log_sigmasq] that replace them ([del]) in the
    diagonal classes and in the independent class. *)
Inductive noise :=
| SqrtSigmas (_sqrt_Sigmas_init _sqrt_Sigmas : tensor3)
| LogSigmasq (_log_sigmasq_init _log_sigmasq : mat).

(** [_log_nus]: absent, of shape [(K,)] (mixin) or [(K, D)] (Alt class). *)
Inductive dof :=
| NoNus
| LogNus (_log_nus : vec)
| LogNusPerDim (_log_nus : mat).

Record model := {
  kind : variant;
  K : nat;
  D : nat;
  M : nat;
  lags : nat;
  mu_init : mat;
  _As : tensor3;
  bs : mat;
  Vs : tensor3;
  noise_params : noise;
  nus_params : dof;
  l2_penalty_A : R;
  l2_penalty_b : R;
  l2_penalty_V : R
}.

Definition is_independent (v : variant) : bool :=
  match v with
  | IndependentAutoRegressiveObservations => true
  | _ => false
  end.

(** The property [As].  The base class returns the stored [_As]; the
    independent class stores one coefficient per (state, dimension, lag) and
    builds a fresh dense [K x D x (D*lags)] array on every access:
    [np.column_stack([np.diag(Ak[:,l]) for l in range(self.lags)])]. *)
Definition As_dense (lags : nat) (A : tensor3) : tensor3 :=
  map (fun Ak => hstack (map (fun l => diag (col l Ak)) (seq 0 lags))) A.

Definition As (m : model) : tensor3 :=
  if is_independent (kind m) then As_dense (lags m) (_As m) else _As m.

(** *** [_AutoRegressiveObservationsBase._compute_mus] *)

(** The body of the loop over the states: [mus_k_init] stacked on
    [mus_k_ar]. *)
Definition compute_mus_k (lags D M : nat) (data input : mat)
    (A : mat) (b : vec) (V : mat) (mu0 : vec) : mat :=
  let mus_k_init := map (vmul mu0) (ones lags D) in
  let mus_k_ar := dot_T (cols 0 M (skipn lags input)) V in
  let mus_k_ar :=
    fold_left
      (fun acc l =>
         let Al := cols (l * D) ((l + 1) * D) A in
         madd acc (dot_T (lagged lags l data) Al))
      (seq 0 lags) mus_k_ar in
  let mus_k_ar := add_row mus_k_ar b in
  vstack mus_k_init mus_k_ar.

(** The result has the states on the first axis: shape [(K, T, D)]. *)
Definition compute_mus_base (m : model) (data input : mat) : tensor3 :=
  map (fun '(A, (b, (V, mu0))) =>
         compute_mus_k (lags m) (length (hd [] data)) (M m) data input A b V mu0)
      (combine (As m) (combine (bs m) (combine (Vs m) (mu_init m)))).

(** *** [IndependentAutoRegressiveObservations._compute_mus] *)

(** The override reads the property [As] (the dense array) and indexes its
    last axis with the lag [l]; the time steps are on the first axis and the
    final [assert] fixes the shape [(T, K, D)]. *)
Definition compute_mus_independent (m : model) (data input : mat) : result tensor3 :=
  let T := length data in
  let Dd := length (hd [] data) in
  let As := As m in
  let mus :=
    map (fun u => map (fun V => matvec V u) (Vs m))
        (cols 0 (M m) (skipn (lags m) input)) in
  let mus :=
    fold_left
      (fun mus l =>
         map2 (fun mus_t x_t =>
                 map2 (fun mu_tk A_k => vadd mu_tk (vmul (col l A_k) x_t)) mus_t As)
              mus (lagged (lags m) l data))
      (seq 0 (lags m)) mus in
  let mus := map (fun mus_t => map2 vadd mus_t (bs m)) mus in
  let mus :=
    vstack (map (fun o => map2 vmul (mu_init m) o) (ones3 (lags m) (K m) (D m)))
           mus in
  if has_shape3 mus T (K m) Dd then Ok mus else Raise AssertionError.

(** Method resolution: the independent class overrides [_compute_mus], every
    other class inherits the base method. *)
Definition _compute_mus (m : model) (data input : mat) : result tensor3 :=
  if is_independent (kind m) then compute_mus_independent m data input
  else Ok (compute_mus_base m data input).

(** *** [_AutoRegressiveObservationsBase.smooth]

    Inherited unchanged by every class:
    [mus = np.swapaxes(self._compute_mus(...), 0, 1)] and
    [(expectations[:, :, None] * mus).sum(1)]. *)
Definition smooth (m : model) (expectations data input : mat) : result mat :=
  mus0 <- _compute_mus m data input ;;
  let mus := swapaxes [] mus0 in
  prod <- bmul3 (map (map (fun e => [e])) expectations) mus ;;
  Ok (map sum_rows prod).

(** ** Routines of other packages

    What the file imports from [ssm.stats], [numpy.linalg], [scipy.special]
    and [ssm.util], with the call contract the source relies on: the
    densities and the Mahalanobis distance are given for one time step and
    are mapped over the batch axes by the callers below; [cholesky] and
    [solve] act on one matrix (one system) and answer [None] where LAPACK
    raises [LinAlgError].  The degrees-of-freedom solver receives the two
    averaged statistics, [None] standing for a nan; it answers a number,
    answers nan or inf, or fails its own assertion on the values it meets.
    [robust_ar_statistics] is the compiled helper that adds one sequence to
    the per-dimension normal equations. *)
Inductive newton_answer :=
| Dof (nu : R)
| DofNonFinite
| DofAssertionFails.

Class Numerics := {
  multivariate_normal_logpdf : vec -> vec -> mat -> R;
  diagonal_gaussian_logpdf : vec -> vec -> vec -> R;
  multivariate_studentst_logpdf : vec -> vec -> mat -> R -> R;
  independent_studentst_logpdf : vec -> vec -> vec -> vec -> R;
  batch_mahalanobis : mat -> vec -> R;
  cholesky : mat -> option mat;
  solve : mat -> mat -> option mat;
  digamma : R -> R;
  generalized_newton_studentst_dof : option R -> option R -> newton_answer;
  robust_ar_statistics :
    mat -> tensor3 -> mat -> mat -> list tensor3 -> tensor3 -> list tensor3 * tensor3
}.

(** Comparisons of array entries. *)
Definition Rltb (x y : R) : bool := if Rlt_dec x y then true else false.
Definition Reqb (x y : R) : bool := if Req_dec_T x y then true else false.

(** ** Attribute access and the derived noise properties *)

Definition get_sqrt_Sigmas_init (m : model) : result tensor3 :=
  match noise_params m with
  | SqrtSigmas s0 _ => Ok s0
  | LogSigmasq _ _ => Raise AttributeError
  end.
Definition get_sqrt_Sigmas (m : model) : result tensor3 :=
  match noise_params m with
  | SqrtSigmas _ s => Ok s
  | LogSigmasq _ _ => Raise AttributeError
  end.
Definition get_log_sigmasq_init (m : model) : result mat :=
  match noise_params m with
  | LogSigmasq l0 _ => Ok l0
  | SqrtSigmas _ _ => Raise AttributeError
  end.
Definition get_log_sigmasq (m : model) : result mat :=
  match noise_params m with
  | LogSigmasq _ l => Ok l
  | SqrtSigmas _ _ => Raise AttributeError
  end.

(** [np.matmul(S, np.swapaxes(S, -1, -2))] on one block. *)
Definition matmul_T (S : mat) : mat := dot_T S S.

(** The properties [Sigmas_init] and [Sigmas]: a product of the stored
    factors in the full-covariance classes, [np.diag(np.exp(log_s))] in the
    diagonal classes; the independent class defines neither. *)
Definition Sigmas_init (m : model) : result tensor3 :=
  match kind m with
  | AutoRegressiveObservations | RobustAutoRegressiveObservations =>
      s <- get_sqrt_Sigmas_init m ;; Ok (map matmul_T s)
  | IndependentAutoRegressiveObservations => Raise AttributeError
  | _ => l <- get_log_sigmasq_init m ;; Ok (map (fun log_s => diag (map exp log_s)) l)
  end.

Definition Sigmas (m : model) : result tensor3 :=
  match kind m with
  | AutoRegressiveObservations | RobustAutoRegressiveObservations =>
      s <- get_sqrt_Sigmas m ;; Ok (map matmul_T s)
  | IndependentAutoRegressiveObservations => Raise AttributeError
  | _ => l <- get_log_sigmasq m ;; Ok (map (fun log_s => diag (map exp log_s)) l)
  end.

(** The properties [sigmasq_init] and [sigmasq] of the diagonal classes and
    of the independent class: [np.exp] of the stored logarithms. *)
Definition sigmasq_init (m : model) : result mat :=
  match kind m with
  | AutoRegressiveObservations | RobustAutoRegressiveObservations =>
      Raise AttributeError
  | _ => l <- get_log_sigmasq_init m ;; Ok (map (map exp) l)
  end.

Definition sigmasq (m : model) : result mat :=
  match kind m with
  | AutoRegressiveObservations | RobustAutoRegressiveObservations =>
      Raise AttributeError
  | _ => l <- get_log_sigmasq m ;; Ok (map (map exp) l)
  end.

(** The property [nus] of the robust mixin, shape [(K,)], and of the Alt
    class, shape [(K, D)]. *)
Definition nus (m : model) : result vec :=
  match nus_params m with
  | LogNus l => Ok (map exp l)
  | _ => Raise AttributeError
  end.
Definition nus_per_dim (m : model) : result mat :=
  match nus_params m with
  | LogNusPerDim l => Ok (map (map exp) l)
  | _ => Raise AttributeError
  end.

(** ** [log_likelihoods] *)

(** [np.column_stack([logpdf(X, mu, p) for mu, p in zip(mus, params)])] for
    state-major means [mus : (K, T', D)]. *)
Definition ll_columns {P : Type} (logpdf : vec -> vec -> P -> R)
    (X : mat) (mus : tensor3) (params : list P) : result mat :=
  column_stack
    (map (fun '(mu, p) => map2 (fun x mu_t => logpdf x mu_t p) X mu)
         (combine mus params)).

(** [logpdf(X[:, None, :], mus, params)] for time-major means
    [mus : (T', K, D)], the parameters broadcast over the time axis. *)
Definition ll_broadcast {P : Type} (logpdf : vec -> vec -> P -> R)
    (X : mat) (mus : tensor3) (params : list P) : mat :=
  map2 (fun x mus_t => map2 (fun mu p => logpdf x mu p) mus_t params) X mus.

Definition row_stack (X Y : mat) : mat := X ++ Y.

Section LogLikelihoods.
Context {N : Numerics}.

(** [AutoRegressiveObservations.log_likelihoods]. *)
Definition log_likelihoods_full (m : model) (data input : mat)
    (mask : list (list bool)) : result mat :=
  if negb (np_all mask) then Raise MissingData else
  let L := lags m in
  mus <- _compute_mus m data input ;;
  S0 <- Sigmas_init m ;;
  ll_init <- ll_columns multivariate_normal_logpdf
               (firstn L data) (map (firstn L) mus) S0 ;;
  S <- Sigmas m ;;
  ll_ar <- ll_columns multivariate_normal_logpdf
             (skipn L data) (map (skipn L) mus) S ;;
  Ok (row_stack ll_init ll_ar).

(** [AutoRegressiveDiagonalNoiseObservations.log_likelihoods]. *)
Definition log_likelihoods_diagonal (m : model) (data input : mat)
    (mask : list (list bool)) : result mat :=
  if negb (np_all mask) then Raise MissingData else
  let L := lags m in
  mus <- _compute_mus m data input ;;
  s0 <- sigmasq_init m ;;
  ll_init <- ll_columns diagonal_gaussian_logpdf
               (firstn L data) (map (firstn L) mus) s0 ;;
  s <- sigmasq m ;;
  ll_ar <- ll_columns diagonal_gaussian_logpdf
             (skipn L data) (map (skipn L) mus) s ;;
  Ok (row_stack ll_init ll_ar).

(** [IndependentAutoRegressiveObservations.log_likelihoods]: the mask is
    not inspected. *)
Definition log_likelihoods_independent (m : model) (data input : mat)
    (mask : list (list bool)) : result mat :=
  mus <- _compute_mus m data input ;;
  let L := lags m in
  s0 <- sigmasq_init m ;;
  let ll_init := ll_broadcast diagonal_gaussian_logpdf
                   (firstn L data) (firstn L mus) s0 in
  s <- sigmasq m ;;
  let ll_ar := ll_broadcast diagonal_gaussian_logpdf
                 (skipn L data) (skipn L mus) s in
  Ok (row_stack ll_init ll_ar).

(** [_RobustAutoRegressiveObservationsMixin.log_likelihoods]. *)
Definition log_likelihoods_robust (m : model) (data input : mat)
    (mask : list (list bool)) : result mat :=
  if negb (np_all mask) then Raise MissingData else
  mus <- _compute_mus m data input ;;
  let L := lags m in
  S0 <- Sigmas_init m ;;
  ll_init <- ll_columns multivariate_normal_logpdf
               (firstn L data) (map (firstn L) mus) S0 ;;
  S <- Sigmas m ;;
  nu <- nus m ;;
  ll_ar <- ll_columns
             (fun x mu '(Sigma, nu_k) => multivariate_studentst_logpdf x mu Sigma nu_k)
             (skipn L data) (map (skipn L) mus) (combine S nu) ;;
  Ok (row_stack ll_init ll_ar).

(** [AltRobustAutoRegressiveDiagonalNoiseObservations.log_likelihoods]. *)
Definition log_likelihoods_alt (m : model) (data input : mat)
    (mask : list (list bool)) : result mat :=
  if negb (np_all mask) then Raise MissingData else
  mus0 <- _compute_mus m data input ;;
  let mus := swapaxes [] mus0 in
  let L := lags m in
  s0 <- sigmasq_init m ;;
  let ll_init := ll_broadcast diagonal_gaussian_logpdf
                   (firstn L data) (firstn L mus) s0 in
  s <- sigmasq m ;;
  nu <- nus_per_dim m ;;
  let ll_ar := ll_broadcast
                 (fun x mu '(s_k, nu_k) => independent_studentst_logpdf x mu s_k nu_k)
                 (skipn L data) (skipn L mus) (combine s nu) in
  Ok (row_stack ll_init ll_ar).

Definition log_likelihoods (m : model) (data input : mat)
    (mask : list (list bool)) : result mat :=
  match kind m with
  | AutoRegressiveObservations => log_likelihoods_full m data input mask
  | AutoRegressiveDiagonalNoiseObservations => log_likelihoods_diagonal m data input mask
  | IndependentAutoRegressiveObservations => log_likelihoods_independent m data input mask
  | RobustAutoRegressiveObservations
  | RobustAutoRegressiveDiagonalNoiseObservations => log_likelihoods_robust m data input mask
  | AltRobustAutoRegressiveDiagonalNoiseObservations => log_likelihoods_alt m data input mask
  end.

End LogLikelihoods.

(** ** Mutation of an instance

    A method that assigns to attributes of [self] maps the instance to an
    [outcome]: the instance it leaves behind when it returns, or the
    exception together with the instance as it stood when the exception was
    raised.  [NonFinite] is a return that has stored a nan or an inf in a
    parameter (a division by a zero weight, a logarithm of a non-positive
    number); real-valued arrays cannot hold such an entry, and what the
    instance does afterwards is not modelled. *)
Inductive outcome :=
| Returned (m : model)
| Raised (e : exn) (m : model)
| NonFinite.

Definition and_then (o : outcome) (f : model -> outcome) : outcome :=
  match o with
  | Returned m => f m
  | Raised e m => Raised e m
  | NonFinite => NonFinite
  end.

Notation "o >>= f" := (and_then o f) (at level 50, left associativity).

Definition set_mu_init (v : mat) (m : model) : model :=
  {| kind := kind m; K := K m; D := D m; M := M m; lags := lags m;
     mu_init := v; _As := _As m; bs := bs m; Vs := Vs m;
     noise_params := noise_params m; nus_params := nus_params m;
     l2_penalty_A := l2_penalty_A m; l2_penalty_b := l2_penalty_b m;
     l2_penalty_V := l2_penalty_V m |}.
Definition set__As (v : tensor3) (m : model) : model :=
  {| kind := kind m; K := K m; D := D m; M := M m; lags := lags m;
     mu_init := mu_init m; _As := v; bs := bs m; Vs := Vs m;
     noise_params := noise_params m; nus_params := nus_params m;
     l2_penalty_A := l2_penalty_A m; l2_penalty_b := l2_penalty_b m;
     l2_penalty_V := l2_penalty_V m |}.
Definition set_bs (v : mat) (m : model) : model :=
  {| kind := kind m; K := K m; D := D m; M := M m; lags := lags m;
     mu_init := mu_init m; _As := _As m; bs := v; Vs := Vs m;
     noise_params := noise_params m; nus_params := nus_params m;
     l2_penalty_A := l2_penalty_A m; l2_penalty_b := l2_penalty_b m;
     l2_penalty_V := l2_penalty_V m |}.
Definition set_Vs (v : tensor3) (m : model) : model :=
  {| kind := kind m; K := K m; D := D m; M := M m; lags := lags m;
     mu_init := mu_init m; _As := _As m; bs := bs m; Vs := v;
     noise_params := noise_params m; nus_params := nus_params m;
     l2_penalty_A := l2_penalty_A m; l2_penalty_b := l2_penalty_b m;
     l2_penalty_V := l2_penalty_V m |}.
Definition set_noise (v : noise) (m : model) : model :=
  {| kind := kind m; K := K m; D := D m; M := M m; lags := lags m;
     mu_init := mu_init m; _As := _As m; bs := bs m; Vs := Vs m;
     noise_params := v; nus_params := nus_params m;
     l2_penalty_A := l2_penalty_A m; l2_penalty_b := l2_penalty_b m;
     l2_penalty_V := l2_penalty_V m |}.
Definition set_nus (v : dof) (m : model) : model :=
  {| kind := kind m; K := K m; D := D m; M := M m; lags := lags m;
     mu_init := mu_init m; _As := _As m; bs := bs m; Vs := Vs m;
     noise_params := noise_params m; nus_params := v;
     l2_penalty_A := l2_penalty_A m; l2_penalty_b := l2_penalty_b m;
     l2_penalty_V := l2_penalty_V m |}.

(** Assignments to the stored noise attributes ([self._sqrt_Sigmas = ...],
    [self._log_sigmasq = ...]); the sibling attribute is kept. *)
Definition set_sqrt_Sigmas (v : tensor3) (m : model) : model :=
  match noise_params m with
  | SqrtSigmas s0 _ => set_noise (SqrtSigmas s0 v) m
  | LogSigmasq _ _ => set_noise (SqrtSigmas [] v) m
  end.
Definition set_log_sigmasq (v : mat) (m : model) : model :=
  match noise_params m with
  | LogSigmasq l0 _ => set_noise (LogSigmasq l0 v) m
  | SqrtSigmas _ _ => set_noise (LogSigmasq [] v) m
  end.
Definition set_log_sigmasq_init (v : mat) (m : model) : model :=
  match noise_params m with
  | LogSigmasq _ l => set_noise (LogSigmasq v l) m
  | SqrtSigmas _ _ => set_noise (LogSigmasq v []) m
  end.

(** [self.attr = expr]: [expr] is evaluated first, so an exception leaves
    the attribute as it was. *)
Definition assign {A : Type} (r : result A) (store : A -> model -> model)
    (m : model) : outcome :=
  match r with
  | Ok a => Returned (store a m)
  | Raise e => Raised e m
  end.

(** The setter of the property [As]: the base class stores the value, the
    independent class raises [NotImplementedError]. *)
Definition As_setter (value : tensor3) (m : model) : outcome :=
  if is_independent (kind m) then Raised NotImplementedError m
  else Returned (set__As value m).

(** ** [permute] *)

(** [x[perm]] for an integer array [perm]. *)
Definition take {A : Type} (x : list A) (perm : list nat) : result (list A) :=
  sequence (map (fun p => of_option IndexError (nth_error x p)) perm).

(** [_AutoRegressiveObservationsBase.permute]. *)
Definition permute_base (perm : list nat) (m : model) : outcome :=
  assign (take (mu_init m) perm) set_mu_init m >>= fun m =>
  match take (As m) perm with
  | Ok v => As_setter v m
  | Raise e => Raised e m
  end >>= fun m =>
  assign (take (bs m) perm) set_bs m >>= fun m =>
  assign (take (Vs m) perm) set_Vs m.

(** [AutoRegressiveObservations.permute]. *)
Definition permute_full (perm : list nat) (m : model) : outcome :=
  permute_base perm m >>= fun m =>
  assign (s <- get_sqrt_Sigmas m ;; take s perm) set_sqrt_Sigmas m.

(** [AutoRegressiveDiagonalNoiseObservations.permute]: its [super] call
    names [AutoRegressiveObservations], so it runs the base method. *)
Definition permute_diagonal (perm : list nat) (m : model) : outcome :=
  permute_base perm m >>= fun m =>
  assign (l <- get_log_sigmasq_init m ;; take l perm) set_log_sigmasq_init m >>= fun m =>
  assign (l <- get_log_sigmasq m ;; take l perm) set_log_sigmasq m.

(** [IndependentAutoRegressiveObservations.permute]. *)
Definition permute_independent (perm : list nat) (m : model) : outcome :=
  assign (take (mu_init m) perm) set_mu_init m >>= fun m =>
  assign (take (_As m) perm) set__As m >>= fun m =>
  assign (take (bs m) perm) set_bs m >>= fun m =>
  assign (take (Vs m) perm) set_Vs m >>= fun m =>
  assign (l <- get_log_sigmasq_init m ;; take l perm) set_log_sigmasq_init m >>= fun m =>
  assign (l <- get_log_sigmasq m ;; take l perm) set_log_sigmasq m.

(** [_RobustAutoRegressiveObservationsMixin.permute]: the next class in the
    method resolution order, then [_log_nus]. *)
Definition permute_robust (super : list nat -> model -> outcome)
    (perm : list nat) (m : model) : outcome :=
  super perm m >>= fun m =>
  assign (match nus_params m with
          | LogNus l => take l perm
          | _ => Raise AttributeError
          end)
         (fun l => set_nus (LogNus l)) m.

(** [AltRobustAutoRegressiveDiagonalNoiseObservations.permute]: after the
    parent's method it reads [self.inv_nus], an attribute no class of the
    file defines. *)
Definition permute_alt (perm : list nat) (m : model) : outcome :=
  permute_diagonal perm m >>= fun m =>
  Raised AttributeError m.

Definition permute (perm : list nat) (m : model) : outcome :=
  match kind m with
  | AutoRegressiveObservations => permute_full perm m
  | AutoRegressiveDiagonalNoiseObservations => permute_diagonal perm m
  | IndependentAutoRegressiveObservations => permute_independent perm m
  | RobustAutoRegressiveObservations => permute_robust permute_full perm m
  | RobustAutoRegressiveDiagonalNoiseObservations => permute_robust permute_diagonal perm m
  | AltRobustAutoRegressiveDiagonalNoiseObservations => permute_alt perm m
  end.

(** ** The covariance and variance setters *)

Definition all_positive (X : mat) : bool := forallb (forallb (Rltb 0)) X.

Section Setters.
Context {N : Numerics}.

(** [np.linalg.cholesky] on a stack of matrices: one failing block raises. *)
Definition cholesky_batch (value : tensor3) : result tensor3 :=
  sequence (map (fun S => of_option LinAlgError (cholesky S)) value).

(** [AutoRegressiveObservations.Sigmas.setter]. *)
Definition Sigmas_setter_full (value : tensor3) (m : model) : outcome :=
  if negb (has_shape3 value (K m) (D m) (D m)) then Raised AssertionError m
  else assign (cholesky_batch value) set_sqrt_Sigmas m.

(** [AutoRegressiveDiagonalNoiseObservations.Sigmas.setter]: only the
    diagonals of the blocks are read. *)
Definition Sigmas_setter_diagonal (value : tensor3) (m : model) : outcome :=
  if negb (has_shape3 value (K m) (D m) (D m)) then Raised AssertionError m
  else
    let sigmasq := map diagonal value in
    if negb (all_positive sigmasq) then Raised AssertionError m
    else Returned (set_log_sigmasq (map (map ln) sigmasq) m).


Definition sigmasq_init_setter_diagonal (value : mat) (m : model) : outcome :=
  if negb (has_shape2 value (K m) (D m)) then Raised AssertionError m
  else if negb (all_positive value) then Raised AssertionError m
  else Returned (set_log_sigmasq_init (map (map ln) value) m).

(** [self.Sigmas = value] by class.  The independent class has no property
    of that name: the statement binds a plain attribute and leaves every
    parameter alone. *)
Definition Sigmas_setter (value : tensor3) (m : model) : outcome :=
  match kind m with
  | AutoRegressiveObservations | RobustAutoRegressiveObservations =>
      Sigmas_setter_full value m
  | IndependentAutoRegressiveObservations => Returned m
  | _ => Sigmas_setter_diagonal value m
  end.


Definition sigmasq_init_setter (value : mat) (m : model) : outcome :=
  match kind m with
  | AutoRegressiveObservations | RobustAutoRegressiveObservations => Returned m
  | IndependentAutoRegressiveObservations => Raised AttributeError m
  | _ => sigmasq_init_setter_diagonal value m
  end.

(** A covariance stack computed by an M-step, block by block; [None] is a
    block the division by a zero weight has filled with nan (the numerator
    is zero as well whenever the responsibilities are non-negative).  The
    diagonal setter's [assert np.all(sigmasq > 0)] fails on nan; for the
    full-covariance setter the model follows reference LAPACK, whose
    factorisation rejects a nan pivot. *)
Definition Sigmas_setter_computed (value : list (option mat)) (m : model) : outcome :=
  match those value with
  | Some finite => Sigmas_setter finite m
  | None =>
      match kind m with
      | AutoRegressiveObservations | RobustAutoRegressiveObservations =>
          Raised LinAlgError m
      | IndependentAutoRegressiveObservations => Returned m
      | _ => Raised AssertionError m
      end
  end.

End Setters.

(** ** The M-steps: data shared by all classes *)

(** One sequence as the M-step receives it from the inference engine:
    [e["Ez"]], [data], [input] and [mask] of one position of the zipped
    argument lists. *)
Record obs_seq := {
  sq_Ez : mat;
  sq_data : mat;
  sq_input : mat;
  sq_mask : list (list bool)
}.

(** The design matrix of one sequence:
    [np.hstack([data[lags-l-1:-l-1] for l in range(lags)]
               + [input[lags:, :M], np.ones((T-lags, 1))])]. *)
Definition design (lags M : nat) (data input : mat) : mat :=
  hstack (map (fun l => lagged lags l data) (seq 0 lags)
          ++ [cols 0 M (skipn lags input); ones (length data - lags) 1]).

(** The loop that collects [xs], [ys], [Ezs]; it raises on the first
    sequence whose mask is incomplete.  [np.ones] rejects the negative
    length of a sequence shorter than [lags]. *)
Fixpoint collect (lags M : nat) (seqs : list obs_seq) : result (list (mat * mat * mat)) :=
  match seqs with
  | [] => Ok []
  | s :: rest =>
      if negb (np_all (sq_mask s)) then Raise MissingData
      else if (length (sq_data s) <? lags)%nat then Raise ValueError
      else
        r <- collect lags M rest ;;
        Ok ((design lags M (sq_data s) (sq_input s),
             skipn lags (sq_data s),
             skipn lags (sq_Ez s)) :: r)
  end.

(** [A.T @ B] for [A : (T, n)] and [B : (T, p)], and [X @ B] for
    [B : (n, p)]. *)
Definition matmul_TN (n p : nat) (A B : mat) : mat :=
  map (fun i => map (fun j => dot (col i A) (col j B)) (seq 0 p)) (seq 0 n).
Definition matmul (p : nat) (X B : mat) : mat :=
  map (fun x => map (fun j => dot x (col j B)) (seq 0 p)) X.
Definition transpose (p : nat) (X : mat) : mat :=
  map (fun j => col j X) (seq 0 p).

(** [X * w[:, None]]: row [t] scaled by [w[t]]. *)
Definition scale_rows (X : mat) (w : vec) : mat :=
  map2 (fun x e => vscale e x) X w.

(** [Ez.sum(0)] for [Ez : (T, K)]. *)
Definition col_sums (K : nat) (Ez : mat) : vec :=
  map (fun k => Rsum (col k Ez)) (seq 0 K).

(** The default prior of the normal equations: [J] is the ridge matrix
    built from the three L2 penalties, [h] is zero. *)
Definition ridge_prior (m : model) : tensor3 * tensor3 :=
  let n := (D m * lags m + M m + 1)%nat in
  let J_diag := repeat (l2_penalty_A m) (D m * lags m)
                ++ repeat (l2_penalty_V m) (M m)
                ++ repeat (l2_penalty_b m) 1 in
  (repeat (diag J_diag) (K m), repeat (zeros2 n (D m)) (K m)).

(** One pass of the loop [for k in range(K): J[k] += ...; h[k] += ...]
    with the weights [W : (T, K)]. *)
Definition accumulate (K n D : nat) (Jh : tensor3 * tensor3)
    (x y W : mat) : tensor3 * tensor3 :=
  (map2 (fun Jk k => madd Jk (matmul_TN n n (scale_rows x (col k W)) x))
        (fst Jh) (seq 0 K),
   map2 (fun hk k => madd hk (matmul_TN n D (scale_rows x (col k W)) y))
        (snd Jh) (seq 0 K)).

(** The three parameter blocks read off the solution [mus : (K, n, D)]:
    [np.swapaxes(mus[:, :D*lags, :], 1, 2)],
    [np.swapaxes(mus[:, D*lags:D*lags+M, :], 1, 2)] and [mus[:, -1, :]]. *)
Definition As_of_solution (D lags : nat) (mus : tensor3) : tensor3 :=
  map (fun mu => transpose D (firstn (D * lags) mu)) mus.
Definition Vs_of_solution (D lags M : nat) (mus : tensor3) : tensor3 :=
  map (fun mu => transpose D (slice (D * lags) (D * lags + M) mu)) mus.
Definition bs_of_solution (mus : tensor3) : mat :=
  map (fun mu => last mu []) mus.

(** One pass of the covariance loop: [yhat = np.matmul(x[None], mus)],
    [resid = y[None] - yhat],
    [sqerr += np.einsum('tk,kti,ktj->kij', W, resid, resid)]. *)
Definition accumulate_sqerr (K D : nat) (mus sqerr : tensor3)
    (x y W : mat) : tensor3 :=
  map2 (fun Sk '(k, mu) =>
          let resid := msub y (matmul D x mu) in
          madd Sk (matmul_TN D D (scale_rows resid (col k W)) resid))
       sqerr (combine (seq 0 K) mus).

(** [sqerr / weight[:, None, None] + 1e-8 * np.eye(D)], block by block. *)
Definition covariance_of (D : nat) (sqerr : tensor3) (weight : vec) : list (option mat) :=
  map2 (fun Sk w =>
          if Reqb w 0 then None
          else Some (madd (map (map (fun s => s / w)) Sk) (mscale 1e-8 (eye D))))
       sqerr weight.

(** [l[k] = v] on a list. *)
Fixpoint set_item {A : Type} (k : nat) (v : A) (l : list A) : list A :=
  match l, k with
  | [], _ => []
  | _ :: l', O => v :: l'
  | a :: l', S k' => a :: set_item k' v l'
  end.

(** What the random generator hands out for one unused state:
    [npr.choice] (a position in [used]) and the three [npr.randn] arrays. *)
Record draw := {
  choice : nat;
  randn_A : mat;
  randn_V : mat;
  randn_b : vec
}.

(** The loop over the unused states.  [self.As[k] = ...] writes into the
    stored arrays ([As] is the stored [_As] in the classes that run this
    method); [Sigmas] is the local array. *)
Fixpoint reinit_unused (rng : nat -> draw) (j : nat) (unused used : list nat)
    (st : tensor3 * tensor3 * mat * list (option mat))
    : tensor3 * tensor3 * mat * list (option mat) :=
  match unused with
  | [] => st
  | k :: rest =>
      let '(A, V, b, Sg) := st in
      let r := rng j in
      let i := nth (choice r mod length used) used 0%nat in
      let A := set_item k (madd (nth i A []) (mscale 0.01 (randn_A r))) A in
      let V := set_item k (madd (nth i V []) (mscale 0.01 (randn_V r))) V in
      let b := set_item k (vadd (nth i b []) (vscale 0.01 (randn_b r))) b in
      let Sg := set_item k (nth i Sg None) Sg in
      reinit_unused rng (S j) rest used (A, V, b, Sg)
  end.

Definition usage (K : nat) (Ezs : list mat) : vec :=
  fold_left vadd (map (col_sums K) Ezs) (zeros K).
Definition unused_states (K : nat) (u : vec) : list nat :=
  filter (fun k => Rltb (nth k u 0) 1) (seq 0 K).
Definition used_states (K : nat) (u : vec) : list nat :=
  filter (fun k => Rltb 1 (nth k u 0)) (seq 0 K).

(** The check of the optional prior at the head of the M-step: both absent,
    or both present with the asserted shapes. *)
Definition check_prior (m : model) (J0 h0 : option tensor3) : result unit :=
  let n := (D m * lags m + M m + 1)%nat in
  match J0, h0 with
  | None, None => Ok tt
  | None, Some _ => Raise AttributeError
  | Some J, None =>
      if has_shape3 J (K m) n n then Raise AttributeError else Raise AssertionError
  | Some J, Some h =>
      if negb (has_shape3 J (K m) n n) then Raise AssertionError
      else if negb (has_shape3 h (K m) n (D m)) then Raise AssertionError
      else Ok tt
  end.

Section GaussianMStep.
Context {N : Numerics}.

(** [np.linalg.solve(J, h)] on the stack of [K] systems. *)
Definition solve_batch (J h : tensor3) : result tensor3 :=
  sequence (map2 (fun Jk hk => of_option LinAlgError (solve Jk hk)) J h).

(** [AutoRegressiveObservations.m_step], inherited by the diagonal class.
    After the [if]/[else] on [J0] and [h0] the method assigns [J] and [h]
    again from the ridge prior; the loop starts from that second
    assignment. *)
Definition m_step_gaussian (rng : nat -> draw) (seqs : list obs_seq)
    (J0 h0 : option tensor3) (m : model) : outcome :=
  let n := (D m * lags m + M m + 1)%nat in
  match collect (lags m) (M m) seqs with
  | Raise e => Raised e m
  | Ok xyz =>
  match check_prior m J0 h0 with
  | Raise e => Raised e m
  | Ok _ =>
  let Jh := fold_left (fun Jh '(x, y, Ez) => accumulate (K m) n (D m) Jh x y Ez)
                      xyz (ridge_prior m) in
  match solve_batch (fst Jh) (snd Jh) with
  | Raise e => Raised e m
  | Ok mus =>
  As_setter (As_of_solution (D m) (lags m) mus) m >>= fun m =>
  let m := set_bs (bs_of_solution mus)
             (set_Vs (Vs_of_solution (D m) (lags m) (M m) mus) m) in
  let sqerr := fold_left (fun Sq '(x, y, Ez) => accumulate_sqerr (K m) (D m) mus Sq x y Ez)
                         xyz (repeat (zeros2 (D m) (D m)) (K m)) in
  let weight := fold_left (fun w '(_, _, Ez) => vadd w (col_sums (K m) Ez))
                          xyz (repeat 1e-8 (K m)) in
  let Sigmas := covariance_of (D m) sqerr weight in
  let u := usage (K m) (map (fun '(_, _, Ez) => Ez) xyz) in
  let unused := unused_states (K m) u in
  let used := used_states (K m) u in
  match xyz, unused, used with
  | [], _, _ => Raised ValueError m
  | _, _ :: _, [] => Raised ValueError m
  | _, _, _ =>
      let '(A, V, b, Sg) :=
        reinit_unused rng 0 unused used (As m, Vs m, bs m, Sigmas) in
      Sigmas_setter_computed Sg (set_bs b (set_Vs V (set__As A m)))
  end
  end end end.

End GaussianMStep.

(** ** The robust mixin: [_m_step_ar], [_m_step_nu], [m_step] *)

(** [np.concatenate((self.As, self.Vs, self.bs[:, :, None]), axis=2)]. *)
Definition Afull (m : model) : tensor3 :=
  map (fun '(A, (V, b)) => map2 (fun a '(v, b_d) => a ++ v ++ [b_d]) A (combine V b))
      (combine (As m) (combine (Vs m) (bs m))).

(** [np.matmul(Afull[None], x[:, None, :, None])[:, :, :, 0]]: the
    predicted mean of every row of the design matrix under every state,
    shape [(T, K, D)]. *)
Definition predicted (m : model) (x : mat) : tensor3 :=
  map (fun x_t => map (fun A_k => matvec A_k x_t) (Afull m)) x.

(** [x / w] on array entries: a zero divisor leaves nan or inf. *)
Definition np_div (x w : R) : option R :=
  if Reqb w 0 then None else Some (x / w).

Section RobustMStep.
Context {N : Numerics}.

(** The E-step of the mixin for one sequence: [taus.append(alpha / beta)],
    shape [(T, K)]. *)
Definition e_step_robust (m : model) (x y : mat) : result mat :=
  let mus := predicted m x in
  nu <- nus m ;;
  let alpha := map (fun nu_k => nu_k / 2 + INR (D m) / 2) nu in
  S <- Sigmas m ;;
  sqrt_Sigmas <- cholesky_batch S ;;
  Ok (map2 (fun y_t mus_t =>
              map2 (fun '(alpha_k, (nu_k, L_k)) mu =>
                      alpha_k / (nu_k / 2 + 1 / 2 * batch_mahalanobis L_k (vsub y_t mu)))
                   (combine alpha (combine nu sqrt_Sigmas)) mus_t)
           y mus).

(** The E-step of one iteration over all the sequences: the list [taus]. *)
Definition e_steps_robust (m : model) (xyz : list (mat * mat * mat)) : result (list mat) :=
  sequence (map (fun '(x, y, _) => e_step_robust m x y) xyz).

(** The M-step of one iteration, given [taus].  [prior] is the pair of
    arrays the caller passed as [J0], [h0]: [J = J0] binds the same array,
    so the in-place [J[k] += ...] accumulates into the caller's arrays and
    the next iteration starts from them. *)
Definition robust_update (xyz : list (mat * mat * mat)) (taus : list mat)
    (prior : option tensor3 * option tensor3) (m : model)
    : outcome * (option tensor3 * option tensor3) :=
  let n := (D m * lags m + M m + 1)%nat in
  match check_prior m (fst prior) (snd prior) with
  | Raise e => (Raised e m, prior)
  | Ok _ =>
  let Jh0 := match prior with
             | (Some J0, Some h0) => (J0, h0)
             | _ => ridge_prior m
             end in
  let Jh := fold_left (fun Jh '((x, y, Ez), tau) =>
                         accumulate (K m) n (D m) Jh x y (map2 vmul Ez tau))
                      (combine xyz taus) Jh0 in
  let prior' := match prior with
                | (Some _, Some _) => (Some (fst Jh), Some (snd Jh))
                | _ => prior
                end in
  match solve_batch (fst Jh) (snd Jh) with
  | Raise e => (Raised e m, prior')
  | Ok mus =>
  (As_setter (As_of_solution (D m) (lags m) mus) m >>= fun m =>
   let m := set_bs (bs_of_solution mus)
              (set_Vs (Vs_of_solution (D m) (lags m) (M m) mus) m) in
   let sqerr := fold_left (fun Sq '((x, y, Ez), tau) =>
                             accumulate_sqerr (K m) (D m) mus Sq x y (map2 vmul Ez tau))
                          (combine xyz taus) (repeat (zeros2 (D m) (D m)) (K m)) in
   let weight := fold_left (fun w '(_, _, Ez) => vadd w (col_sums (K m) Ez))
                           xyz (zeros (K m)) in
   Sigmas_setter_computed (covariance_of (D m) sqerr weight) m,
   prior')
  end end.

(** One iteration of [for itr in range(num_em_iters)]. *)
Definition robust_iteration (xyz : list (mat * mat * mat))
    (prior : option tensor3 * option tensor3) (m : model)
    : outcome * (option tensor3 * option tensor3) :=
  match e_steps_robust m xyz with
  | Raise e => (Raised e m, prior)
  | Ok taus => robust_update xyz taus prior m
  end.

Fixpoint robust_em (num_em_iters : nat) (xyz : list (mat * mat * mat))
    (prior : option tensor3 * option tensor3) (m : model) : outcome :=
  match num_em_iters with
  | O => Returned m
  | S n =>
      match robust_iteration xyz prior m with
      | (Returned m', prior') => robust_em n xyz prior' m'
      | (o, _) => o
      end
  end.

(** [_RobustAutoRegressiveObservationsMixin._m_step_ar]. *)
Definition m_step_ar_robust (seqs : list obs_seq) (num_em_iters : nat)
    (J0 h0 : option tensor3) (m : model) : outcome :=
  match collect (lags m) (M m) seqs with
  | Raise e => Raised e m
  | Ok xyz => robust_em num_em_iters xyz (J0, h0) m
  end.

(** The statistics one sequence adds in [_m_step_nu]: the sums over time of
    [Ez * alpha / beta] and [Ez * (digamma(alpha) - log(beta))], and
    [Ez.sum(0)] over all rows. *)
Definition nu_statistics (m : model) (s : obs_seq) : result (vec * vec * vec) :=
  mus0 <- _compute_mus m (sq_data s) (sq_input s) ;;
  let mus := swapaxes [] mus0 in
  nu <- nus m ;;
  let alpha := map (fun nu_k => nu_k / 2 + INR (D m) / 2) nu in
  S <- Sigmas m ;;
  sqrt_Sigma <- cholesky_batch S ;;
  let L := lags m in
  let beta :=
    map2 (fun y_t mus_t =>
            map2 (fun '(nu_k, L_k) mu =>
                    nu_k / 2 + 1 / 2 * batch_mahalanobis L_k (vsub y_t mu))
                 (combine nu sqrt_Sigma) mus_t)
         (skipn L (sq_data s)) (skipn L mus) in
  let Ez := skipn L (sq_Ez s) in
  Ok (col_sums (K m)
        (map2 (fun e b => map2 (fun '(e_k, a_k) b_k => e_k * a_k / b_k) (combine e alpha) b)
              Ez beta),
      col_sums (K m)
        (map2 (fun e b => map2 (fun '(e_k, a_k) b_k => e_k * (digamma a_k - ln b_k))
                               (combine e alpha) b)
              Ez beta),
      col_sums (K m) (sq_Ez s)).

(** The closing loop [self._log_nus[k] = np.log(solver(...))], one state
    after the other, over the (statistic, statistic, weight) triples. *)
Fixpoint newton_loop (k : nat) (stats : list (R * (R * R))) (m : model) : outcome :=
  match stats with
  | [] => Returned m
  | (E_tau, (E_logtau, w)) :: rest =>
      match generalized_newton_studentst_dof (np_div E_tau w) (np_div E_logtau w) with
      | DofAssertionFails => Raised AssertionError m
      | DofNonFinite => NonFinite
      | Dof v =>
          if Rltb 0 v then
            match nus_params m with
            | LogNus l => newton_loop (S k) rest (set_nus (LogNus (set_item k (ln v) l)) m)
            | _ => Raised AttributeError m
            end
          else NonFinite
      end
  end.

(** [_RobustAutoRegressiveObservationsMixin._m_step_nu]. *)
Definition m_step_nu_robust (seqs : list obs_seq) (m : model) : outcome :=
  match sequence (map (nu_statistics m) seqs) with
  | Raise e => Raised e m
  | Ok stats =>
      let total :=
        fold_left (fun '(a, b, c) '(a', b', c') => (vadd a a', vadd b b', vadd c c'))
                  stats (zeros (K m), zeros (K m), zeros (K m)) in
      let '(E_taus, E_logtaus, weights) := total in
      newton_loop 0 (combine E_taus (combine E_logtaus weights)) m
  end.

(** [_RobustAutoRegressiveObservationsMixin.m_step]. *)
Definition m_step_robust (seqs : list obs_seq) (num_em_iters : nat)
    (J0 h0 : option tensor3) (m : model) : outcome :=
  m_step_ar_robust seqs num_em_iters J0 h0 m >>= fun m =>
  m_step_nu_robust seqs m.

End RobustMStep.

(** ** [AltRobustAutoRegressiveDiagonalNoiseObservations]: the M-step *)

(** [np.linalg.solve] with a vector right-hand side. *)
Definition solve_vec {N : Numerics} (J : mat) (h : vec) : option vec :=
  option_map (col 0) (solve J (map (fun v => [v]) h)).

Section AltRobustMStep.
Context {N : Numerics}.

(** The E-step of the Alt class for one sequence, shape [(T, K, D)]:
    [alpha = nus/2 + 1/2],
    [beta = nus/2 + 1/2 * (y[:, None, :] - mus)**2 / sigmasq]. *)
Definition e_step_alt (m : model) (x y : mat) : result tensor3 :=
  let mus := predicted m x in
  nu <- nus_per_dim m ;;
  let alpha := map (map (fun nu_kd => nu_kd / 2 + 1 / 2)) nu in
  s <- sigmasq m ;;
  Ok (map2 (fun y_t mus_t =>
              map2 (fun '(alpha_k, (nu_k, s_k)) mu =>
                      map2 (fun '(a, (nu_kd, s_kd)) r =>
                              a / (nu_kd / 2 + 1 / 2 * (r * r) / s_kd))
                           (combine alpha_k (combine nu_k s_k)) (vsub y_t mu))
                   (combine alpha (combine nu s)) mus_t)
           y mus).

(** [np.log(sqerr / weight[:, None] + 1e-16)], [None] where an entry is not
    a number. *)
Definition log_variances (sqerr : mat) (weight : vec) : option mat :=
  let entry (s w : R) : option R :=
    if Reqb w 0 then None
    else if Rltb 0 (s / w + 1e-16) then Some (ln (s / w + 1e-16)) else None in
  those (map2 (fun row w => those (map (fun s => entry s w) row)) sqerr weight).

(** The E-step of one iteration over all the sequences. *)
Definition e_steps_alt (m : model) (xyz : list (mat * mat * mat)) : result (list tensor3) :=
  sequence (map (fun '(x, y, _) => e_step_alt m x y) xyz).

(** The M-step of one iteration of [_m_step_ar], given [taus]: the prior is
    the identity, the statistics come from the compiled helper, and the
    parameters are assigned through the inherited setters. *)
Definition alt_update (xyz : list (mat * mat * mat)) (taus : list tensor3)
    (m : model) : outcome :=
  let n := (D m * lags m + M m + 1)%nat in
  let Jh := fold_left (fun '(J, h) '((x, y, Ez), tau) =>
                         robust_ar_statistics Ez tau x y J h)
                      (combine xyz taus)
                      (repeat (repeat (eye n) (D m)) (K m), repeat (zeros2 (D m) n) (K m)) in
  match sequence (map2 (fun Jk hk =>
                          sequence (map2 (fun Jkd hkd => of_option LinAlgError (solve_vec Jkd hkd))
                                         Jk hk))
                       (fst Jh) (snd Jh)) with
  | Raise e => Raised e m
  | Ok mus =>
  As_setter (map (map (firstn (D m * lags m))) mus) m >>= fun m =>
  let m := set_bs (map (map (fun mu => last mu 0)) mus)
             (set_Vs (map (map (slice (D m * lags m) (D m * lags m + M m))) mus) m) in
  match xyz with
  | [] => Raised TypeError m
  | _ =>
  let sqerr :=
    fold_left (fun Sq '((x, y, Ez), tau) =>
                 madd Sq
                   (map (fun '(k, mu_k) =>
                           map (fun d =>
                                  Rsum (map2 (fun '(e_t, tau_t) '(y_t, x_t) =>
                                                nth k e_t 0 * nth d (nth k tau_t []) 0
                                                * ((nth d y_t 0 - dot x_t (nth d mu_k []))
                                                   * (nth d y_t 0 - dot x_t (nth d mu_k []))))
                                             (combine Ez tau) (combine y x)))
                               (seq 0 (D m)))
                        (combine (seq 0 (K m)) mus)))
              (combine xyz taus) (zeros2 (K m) (D m)) in
  let weight := fold_left (fun w '(_, _, Ez) => vadd w (col_sums (K m) Ez))
                          xyz (zeros (K m)) in
  match log_variances sqerr weight with
  | None => NonFinite
  | Some l => Returned (set_log_sigmasq l m)
  end
  end end.

(** One iteration of the loop of [_m_step_ar]. *)
Definition alt_iteration (xyz : list (mat * mat * mat)) (m : model) : outcome :=
  match e_steps_alt m xyz with
  | Raise e => Raised e m
  | Ok taus => alt_update xyz taus m
  end.

Fixpoint alt_em (num_em_iters : nat) (xyz : list (mat * mat * mat)) (m : model) : outcome :=
  match num_em_iters with
  | O => Returned m
  | S n => alt_iteration xyz m >>= alt_em n xyz
  end.

(** [AltRobustAutoRegressiveDiagonalNoiseObservations._m_step_ar]. *)
Definition m_step_ar_alt (seqs : list obs_seq) (num_em_iters : nat) (m : model) : outcome :=
  match collect (lags m) (M m) seqs with
  | Raise e => Raised e m
  | Ok xyz => alt_em num_em_iters xyz m
  end.

End AltRobustMStep.

Section AltRobustNu.
Context {N : Numerics}.

(** The statistics one sequence adds in the Alt class's [_m_step_nu],
    shapes [(K, D)], [(K, D)] and [(K,)]. *)
Definition nu_statistics_alt (m : model) (s : obs_seq) : result (mat * mat * vec) :=
  mus0 <- _compute_mus m (sq_data s) (sq_input s) ;;
  let mus := swapaxes [] mus0 in
  nu <- nus_per_dim m ;;
  let alpha := map (map (fun nu_kd => nu_kd / 2 + 1 / 2)) nu in
  sg <- sigmasq m ;;
  let L := lags m in
  let beta :=
    map2 (fun y_t mus_t =>
            map2 (fun '(nu_k, s_k) mu =>
                    map2 (fun '(nu_kd, s_kd) r => nu_kd / 2 + 1 / 2 * (r * r) / s_kd)
                         (combine nu_k s_k) (vsub y_t mu))
                 (combine nu sg) mus_t)
         (skipn L (sq_data s)) (skipn L mus) in
  let Ez := skipn L (sq_Ez s) in
  let total (f : R -> R -> R) : mat :=
    map (fun k =>
           map (fun d =>
                  Rsum (map2 (fun e_t b_t =>
                                nth k e_t 0
                                * f (nth d (nth k alpha []) 0) (nth d (nth k b_t []) 0))
                             Ez beta))
               (seq 0 (D m)))
        (seq 0 (K m)) in
  Ok (total (fun a b => a / b),
      total (fun a b => digamma a - ln b),
      col_sums (K m) (sq_Ez s)).

(** The double loop [self._log_nus[k, d] = np.log(solver(...))] over the
    positions [(k, d)] in row-major order. *)
Fixpoint newton_loop_alt (kds : list (nat * nat)) (E_taus E_logtaus : mat)
    (weights : vec) (m : model) : outcome :=
  match kds with
  | [] => Returned m
  | (k, d) :: rest =>
      let w := nth k weights 0 in
      match generalized_newton_studentst_dof
              (np_div (nth d (nth k E_taus []) 0) w)
              (np_div (nth d (nth k E_logtaus []) 0) w) with
      | DofAssertionFails => Raised AssertionError m
      | DofNonFinite => NonFinite
      | Dof v =>
          if Rltb 0 v then
            match nus_params m with
            | LogNusPerDim l =>
                newton_loop_alt rest E_taus E_logtaus weights
                  (set_nus (LogNusPerDim (set_item k (set_item d (ln v) (nth k l [])) l)) m)
            | _ => Raised AttributeError m
            end
          else NonFinite
      end
  end.

Definition m_step_nu_alt (seqs : list obs_seq) (m : model) : outcome :=
  match sequence (map (nu_statistics_alt m) seqs) with
  | Raise e => Raised e m
  | Ok stats =>
      let total :=
        fold_left (fun '(a, b, c) '(a', b', c') => (madd a a', madd b b', vadd c c'))
                  stats (zeros2 (K m) (D m), zeros2 (K m) (D m), zeros (K m)) in
      let '(E_taus, E_logtaus, weights) := total in
      newton_loop_alt (list_prod (seq 0 (K m)) (seq 0 (D m))) E_taus E_logtaus weights m
  end.

(** [AltRobustAutoRegressiveDiagonalNoiseObservations.m_step]. *)
Definition m_step_alt (seqs : list obs_seq) (num_em_iters : nat) (m : model) : outcome :=
  m_step_ar_alt seqs num_em_iters m >>= fun m =>
  m_step_nu_alt seqs m.

End AltRobustNu.

(** ** [IndependentAutoRegressiveObservations.m_step] *)

(** [arr[k, d] = value] on a three-axis array and [arr[k, d] = c] on a
    two-axis array.  numpy broadcasts [value] to the length of the row and
    raises [ValueError] when it cannot. *)
Definition broadcast_to (n : nat) (value : vec) : result vec :=
  if (length value =? n)%nat then Ok value
  else match value with
       | [c] => Ok (repeat c n)
       | _ => Raise ValueError
       end.
Definition set_row (k d : nat) (value : vec) (arr : tensor3) : result tensor3 :=
  v <- broadcast_to (length (nth d (nth k arr []) [])) value ;;
  Ok (set_item k (set_item d v (nth k arr [])) arr).
Definition set_entry (k d : nat) (c : R) (arr : mat) : mat :=
  set_item k (set_item d c (nth k arr [])) arr.

(** The data of dimension [d]: the sequences whose mask column [d] is
    complete, as rows [x], targets [y] and weights. *)
Fixpoint collect_dim (lags M d : nat) (seqs : list obs_seq)
    : result (list (mat * vec * mat)) :=
  match seqs with
  | [] => Ok []
  | s :: rest =>
      if forallb (fun row => nth d row false) (sq_mask s) then
        if (length (sq_data s) <? lags)%nat then Raise ValueError
        else
          r <- collect_dim lags M d rest ;;
          Ok ((hstack (map (fun l => cols d (d + 1) (lagged lags l (sq_data s))) (seq 0 lags)
                       ++ [cols 0 M (skipn lags (sq_input s));
                           ones (length (sq_data s) - lags) 1]),
               col d (skipn lags (sq_data s)),
               skipn lags (sq_Ez s)) :: r)
      else collect_dim lags M d rest
  end.

Section IndependentMStep.
Context {N : Numerics}.

(** The body of [for k in range(self.K)] for dimension [d].  Every
    [self.As[k, d] = ...] evaluates the property [As], which builds a new
    dense array, and writes into that array; the stored [_As] is not
    touched and the array is dropped after the statement. *)
Definition m_step_state (d k : nat) (xs : mat) (ys : vec) (weights : mat)
    (m : model) : outcome :=
  let n := (lags m + M m + 1)%nat in
  let w := col k weights in
  if Rltb (Rsum w) (INR n) then
    match set_row k d [1] (As m) with
    | Raise e => Raised e m
    | Ok _ =>
    match set_row k d [0] (Vs m) with
    | Raise e => Raised e m
    | Ok V =>
        let m := set_bs (set_entry k d 0 (bs m)) (set_Vs V m) in
        assign (l <- get_log_sigmasq m ;; Ok (set_entry k d 0 l)) set_log_sigmasq m
    end end
  else
    let Jk := matmul_TN n n (scale_rows xs w) xs in
    let hk := map (fun i => dot (col i (scale_rows xs w)) ys) (seq 0 n) in
    match solve_vec Jk hk with
    | None => Raised LinAlgError m
    | Some muk =>
    match set_row k d (firstn (lags m) muk) (As m) with
    | Raise e => Raised e m
    | Ok _ =>
    match set_row k d (slice (lags m) (lags m + M m) muk) (Vs m) with
    | Raise e => Raised e m
    | Ok V =>
        let m := set_bs (set_entry k d (last muk 0) (bs m)) (set_Vs V m) in
        let coef := nth d (nth k (As m) []) []
                    ++ nth d (nth k (Vs m) []) []
                    ++ [nth d (nth k (bs m) []) 0] in
        if negb (length coef =? n)%nat then Raised ValueError m
        else
          let yhats := map (fun x => dot x coef) xs in
          let sqerr := map (fun r => r * r) (vsub ys yhats) in
          if Reqb (Rsum w) 0 then Raised ZeroDivisionError m
          else
            let sigma := Rsum (vmul sqerr w) / Rsum w + 1e-16 in
            if Rltb 0 sigma then
              assign (l <- get_log_sigmasq m ;; Ok (set_entry k d (ln sigma) l))
                     set_log_sigmasq m
            else NonFinite
    end end end.

(** The body of [for d in range(self.D)]. *)
Definition m_step_dim (seqs : list obs_seq) (d : nat) (m : model) : outcome :=
  match collect_dim (lags m) (M m) d seqs with
  | Raise e => Raised e m
  | Ok [] => Raised ValueError m
  | Ok parts =>
      let xs := concat (map (fun '(x, _, _) => x) parts) in
      let ys := concat (map (fun '(_, y, _) => y) parts) in
      let weights := concat (map (fun '(_, _, w) => w) parts) in
      match xs with
      | [] =>
          Returned (set_bs (map (set_item d 0) (bs m))
                      (set_Vs (map (fun V_k => set_item d (zeros (length (nth d V_k []))) V_k)
                                   (Vs m)) m))
      | _ =>
          fold_left (fun o k => o >>= m_step_state d k xs ys weights)
                    (seq 0 (K m)) (Returned m)
      end
  end.

Definition m_step_independent (seqs : list obs_seq) (m : model) : outcome :=
  fold_left (fun o d => o >>= m_step_dim seqs d) (seq 0 (D m)) (Returned m).

End IndependentMStep.

(** ** [m_step] by class *)

(** The keyword arguments of [m_step]. *)
Record m_step_config := {
  num_em_iters : nat;
  J0 : option tensor3;
  h0 : option tensor3
}.

Definition default_config : m_step_config :=
  {| num_em_iters := 1; J0 := None; h0 := None |}.

Definition m_step {N : Numerics} (rng : nat -> draw) (seqs : list obs_seq)
    (cfg : m_step_config) (m : model) : outcome :=
  match kind m with
  | AutoRegressiveObservations
  | AutoRegressiveDiagonalNoiseObservations =>
      m_step_gaussian rng seqs (J0 cfg) (h0 cfg) m
  | IndependentAutoRegressiveObservations => m_step_independent seqs m
  | RobustAutoRegressiveObservations
  | RobustAutoRegressiveDiagonalNoiseObservations =>
      m_step_robust seqs (num_em_iters cfg) (J0 cfg) (h0 cfg) m
  | AltRobustAutoRegressiveDiagonalNoiseObservations =>
      m_step_alt seqs (num_em_iters cfg) m
  end.

(** ** [sample_x]

    One draw from the model given the state [z] and the history [xhist].
    The arrays the random generator returns are arguments: [randn] is the
    value of [npr.randn(D)], [tau] the value of [npr.gamma(...)] (a positive
    number).  [input] is [None] when the caller leaves the keyword at its
    default. *)

(** [x[z]] for an integer [z >= 0]. *)
Definition item {A : Type} (x : list A) (z : nat) : result A :=
  of_option IndexError (nth_error x z).

(** [u + v] and [u * v] on one-dimensional arrays, with broadcasting. *)
Definition np_add (u v : vec) : result vec := bzip (fun a b => Ok (a + b)) u v.
Definition np_mul (u v : vec) : result vec := bzip (fun a b => Ok (a * b)) u v.

(** [mu += v]: the sum must have the shape of [mu]. *)
Definition np_iadd (mu v : vec) : result vec :=
  if (length v =? length mu)%nat then Ok (vadd mu v)
  else match v with
       | [c] => Ok (map (fun a => a + c) mu)
       | _ => Raise ValueError
       end.

(** [W.dot(x)] for a matrix and a vector: the rows of [W] must have the
    length of [x]. *)
Definition np_dot (W : mat) (x : vec) : result vec :=
  if forallb (fun w => (length w =? length x)%nat) W then Ok (matvec W x)
  else Raise ValueError.

(** [np.dot(S, npr.randn(D))] where [S] is the scalar [0] ([None]) or a
    Cholesky factor. *)
Definition noise_term (S : option mat) (randn : vec) : result vec :=
  match S with
  | None => Ok (vscale 0 randn)
  | Some L => np_dot L randn
  end.

(** [np.sqrt(s) * npr.randn(D)] where [s] is the scalar [0] ([None]) or a
    vector of variances. *)
Definition scaled_noise (s : option vec) (randn : vec) : result vec :=
  match s with
  | None => Ok (vscale (sqrt 0) randn)
  | Some v => np_mul (map sqrt v) randn
  end.

(** [xhist[-l-1]] for [l < len(xhist)]. *)
Definition from_end (xhist : mat) (l : nat) : vec :=
  nth (length xhist - l - 1) xhist [].

Section SampleX.
Context {N : Numerics}.

(** [np.linalg.cholesky(S[z]) if with_noise else 0]. *)
Definition cholesky_or_zero (with_noise : bool) (S : result tensor3) (z : nat)
    (scale : mat -> mat) : result (option mat) :=
  if with_noise then
    Ss <- S ;; Sz <- item Ss z ;;
    L <- of_option LinAlgError (cholesky (scale Sz)) ;;
    Ok (Some L)
  else Ok None.

(** The mean of the autoregressive branch of the full-covariance
    samplers: [mu = Vs[z].dot(input[:M]) + bs[z]] and then
    [mu += As[z][:, l*D:(l+1)*D].dot(xhist[-l-1])] for every lag. *)
Definition sample_mean (m : model) (z : nat) (xhist : mat) (input : option vec)
    : result vec :=
  Vz <- item (Vs m) z ;;
  u <- match input with
       | Some u => Ok (firstn (M m) u)
       | None => Raise TypeError
       end ;;
  Vu <- np_dot Vz u ;;
  bz <- item (bs m) z ;;
  mu <- np_add Vu bz ;;
  fold_left (fun acc l =>
               mu <- acc ;;
               Az <- item (As m) z ;;
               v <- np_dot (cols (l * D m) ((l + 1) * D m) Az) (from_end xhist l) ;;
               np_iadd mu v)
            (seq 0 (lags m)) (Ok mu).

(** [AutoRegressiveObservations.sample_x], inherited by the diagonal
    class. *)
Definition sample_x_full (m : model) (z : nat) (xhist : mat) (input : option vec)
    (with_noise : bool) (randn : vec) : result vec :=
  if (length xhist <? lags m)%nat then
    S <- cholesky_or_zero with_noise (Sigmas_init m) z (fun Sz => Sz) ;;
    mu0 <- item (mu_init m) z ;;
    n <- noise_term S randn ;;
    np_add mu0 n
  else
    mu <- sample_mean m z xhist input ;;
    S <- cholesky_or_zero with_noise (Sigmas m) z (fun Sz => Sz) ;;
    n <- noise_term S randn ;;
    np_add mu n.

(** [_RobustAutoRegressiveObservationsMixin.sample_x]: the first statement
    reads [self.Sigmas] and [self.nus]; the covariance of the draw is
    [Sigmas[z] / tau]. *)
Definition sample_x_robust (m : model) (z : nat) (xhist : mat) (input : option vec)
    (with_noise : bool) (randn : vec) (tau : R) : result vec :=
  S1 <- Sigmas m ;;
  nu <- nus m ;;
  if (length xhist <? lags m)%nat then
    S <- cholesky_or_zero with_noise (Sigmas_init m) z (fun Sz => Sz) ;;
    mu0 <- item (mu_init m) z ;;
    n <- noise_term S randn ;;
    np_add mu0 n
  else
    mu <- sample_mean m z xhist input ;;
    _ <- item nu z ;;
    S <- cholesky_or_zero with_noise (Ok S1) z (map (map (fun s => s / tau))) ;;
    n <- noise_term S randn ;;
    np_add mu n.

(** [IndependentAutoRegressiveObservations.sample_x]: [As] is the dense
    property, read with [As[z, :, lag]]; the input is not used. *)
Definition sample_x_independent (m : model) (z : nat) (xhist : mat)
    (with_noise : bool) (randn : vec) : result vec :=
  let As := As m in
  sigmas <- sigmasq m ;;
  if (length xhist <? lags m)%nat then
    s <- (if with_noise then s0 <- sigmasq_init m ;; sz <- item s0 z ;; Ok (Some sz)
          else Ok None) ;;
    mu0 <- item (mu_init m) z ;;
    n <- scaled_noise s randn ;;
    np_add mu0 n
  else
    muz <- item (bs m) z ;;
    muz <- fold_left (fun acc lag =>
                        muz <- acc ;;
                        Az <- item As z ;;
                        a <- sequence (map (fun row => item row lag) Az) ;;
                        v <- np_mul a (from_end xhist lag) ;;
                        np_iadd muz v)
                     (seq 0 (lags m)) (Ok muz) ;;
    s <- (if with_noise then sz <- item sigmas z ;; Ok (Some sz) else Ok None) ;;
    n <- scaled_noise s randn ;;
    np_add muz n.

(** [AltRobustAutoRegressiveDiagonalNoiseObservations.sample_x].  The
    autoregressive branch computes the mean (without the input term), the
    draw [tau] (one entry per dimension, as [nus[z]] has) and the variance
    [sigmasq[z] / tau], and ends there: the method has no [return] on that
    path and hands back [None]. *)
Definition sample_x_alt (m : model) (z : nat) (xhist : mat)
    (with_noise : bool) (randn : vec) (tau : vec) : result (option vec) :=
  sigmasq <- sigmasq m ;;
  nu <- nus_per_dim m ;;
  if (length xhist <? lags m)%nat then
    s <- (if with_noise then s0 <- sigmasq_init m ;; sz <- item s0 z ;; Ok (Some sz)
          else Ok None) ;;
    mu0 <- item (mu_init m) z ;;
    n <- scaled_noise s randn ;;
    x <- np_add mu0 n ;;
    Ok (Some x)
  else
    mu <- item (bs m) z ;;
    _ <- fold_left (fun acc l =>
                      mu <- acc ;;
                      Az <- item (As m) z ;;
                      v <- np_dot (cols (l * D m) ((l + 1) * D m) Az) (from_end xhist l) ;;
                      np_iadd mu v)
                   (seq 0 (lags m)) (Ok mu) ;;
    _ <- item nu z ;;
    _ <- (if with_noise then
            sz <- item sigmasq z ;; bzip (fun a b => Ok (a / b)) sz tau
          else Ok []) ;;
    Ok None.

End SampleX.

(** [sample_x] by class; [None] is the value of a call that ends without
    [return]. *)
Definition sample_x {N : Numerics} (m : model) (z : nat) (xhist : mat)
    (input : option vec) (with_noise : bool) (randn : vec) (tau : R) (taus : vec)
    : result (option vec) :=
  match kind m with
  | AutoRegressiveObservations
  | AutoRegressiveDiagonalNoiseObservations =>
      x <- sample_x_full m z xhist input with_noise randn ;; Ok (Some x)
  | IndependentAutoRegressiveObservations =>
      x <- sample_x_independent m z xhist with_noise randn ;; Ok (Some x)
  | RobustAutoRegressiveObservations
  | RobustAutoRegressiveDiagonalNoiseObservations =>
      x <- sample_x_robust m z xhist input with_noise randn tau ;; Ok (Some x)
  | AltRobustAutoRegressiveDiagonalNoiseObservations =>
      sample_x_alt m z xhist with_noise randn taus
  end.

(** ** The constructors

    The arrays the constructors draw are arguments: [npr.randn(K, D)] for
    [bs], [npr.randn(K, D, M)] for [Vs] and [npr.randn(K, D, D)] for
    [_sqrt_Sigmas] as functions of the position, and the value of the
    [n]-th call of [random_rotation(D)], a [D x D] matrix. *)
Record init_draws := {
  randn_bs : nat -> nat -> R;
  randn_Vs : nat -> nat -> nat -> R;
  random_rotation : nat -> mat;
  randn_sqrt_Sigmas : nat -> nat -> nat -> R
}.

Definition tabulate {A : Type} (n : nat) (f : nat -> A) : list A := map f (seq 0 n).

(** [.95 * np.array([np.column_stack([random_rotation(D),
    np.zeros((D, (lags-1) * D))]) for _ in range(K)])]; [first] is the
    number of rotations drawn before. *)
Definition initial_As (K D lags first : nat) (dr : init_draws) : tensor3 :=
  tabulate K (fun k =>
    mscale 0.95 (hstack [random_rotation dr (first + k); zeros2 D ((lags - 1) * D)])).

(** [np.concatenate((.95 * np.ones((K, D, 1)), np.zeros((K, D, lags-1))),
    axis=2)]. *)
Definition initial_As_independent (K D lags : nat) : tensor3 :=
  repeat (repeat ((0.95 * 1) :: repeat 0 (lags - 1)) D) K.

(** [__init__] of the six classes.  The base constructor asserts
    [lags > 0].  The diagonal class runs the constructor of the
    full-covariance class first and draws [K] further rotations for
    [_As]; the robust classes add [_log_nus = np.log(4) * np.ones(...)].
    The independent class takes no penalties (the fields keep the defaults
    of the other classes and none of its methods reads them). *)
Definition init (v : variant) (K D M lags : nat) (pA pb pV : R) (dr : init_draws)
    : result model :=
  if (lags =? 0)%nat then Raise AssertionError
  else
    let mu0 := zeros2 K D in
    let b := tabulate K (fun k => tabulate D (randn_bs dr k)) in
    let V := tabulate K (fun k => tabulate D (fun d => tabulate M (randn_Vs dr k d))) in
    let sqrt_init := repeat (eye D) K in
    let sqrt := tabulate K (fun k => tabulate D (fun i => tabulate D (randn_sqrt_Sigmas dr k i))) in
    let log_nus := map (Rmult (ln 4)) (repeat 1 K) in
    let make A nz nu p :=
      {| kind := v; K := K; D := D; M := M; lags := lags;
         mu_init := mu0; _As := A; bs := b; Vs := V;
         noise_params := nz; nus_params := nu;
         l2_penalty_A := fst (fst p); l2_penalty_b := snd (fst p);
         l2_penalty_V := snd p |} in
    Ok match v with
       | AutoRegressiveObservations =>
           make (initial_As K D lags 0 dr) (SqrtSigmas sqrt_init sqrt) NoNus (pA, pb, pV)
       | AutoRegressiveDiagonalNoiseObservations =>
           make (initial_As K D lags K dr) (LogSigmasq (zeros2 K D) (zeros2 K D)) NoNus
                (pA, pb, pV)
       | IndependentAutoRegressiveObservations =>
           make (initial_As_independent K D lags) (LogSigmasq (zeros2 K D) (zeros2 K D))
                NoNus (1e-8, 1e-8, 1e-8)
       | RobustAutoRegressiveObservations =>
           make (initial_As K D lags 0 dr) (SqrtSigmas sqrt_init sqrt) (LogNus log_nus)
                (pA, pb, pV)
       | RobustAutoRegressiveDiagonalNoiseObservations =>
           make (initial_As K D lags K dr) (LogSigmasq (zeros2 K D) (zeros2 K D))
                (LogNus log_nus) (pA, pb, pV)
       | AltRobustAutoRegressiveDiagonalNoiseObservations =>
           make (initial_As K D lags K dr) (LogSigmasq (zeros2 K D) (zeros2 K D))
                (LogNusPerDim (map (map (Rmult (ln 4))) (ones K D))) (1e-8, 1e-8, 1e-8)
       end.

(** The two [...NoInput] classes: the parent's constructor with [M = 0],
    whatever [M] the caller passes; the Gaussian one does not forward a
    penalty for [Vs]. *)
Definition init_AutoRegressiveObservationsNoInput (K D M lags : nat) (pA pb : R)
    (dr : init_draws) : result model :=
  init AutoRegressiveObservations K D 0 lags pA pb 1e-8 dr.
Definition init_RobustAutoRegressiveObservationsNoInput (K D M lags : nat)
    (pA pb pV : R) (dr : init_draws) : result model :=
  init RobustAutoRegressiveObservations K D 0 lags pA pb pV dr.

(** ** An instance of the external routines, and small models

    The theorems below hold for every instance of [Numerics].  To run the
    model on concrete inputs the examples use [example_numerics]: Cholesky
    factors and linear solves that are exact on diagonal matrices (and fail
    on any other), Gaussian log-densities for diagonal covariances, and
    simple expressions in place of the remaining special functions. *)
Definition is_diagonal (S : mat) : bool :=
  forallb (fun i =>
             forallb (fun j => (i =? j)%nat || Reqb (nth j (nth i S []) 0) 0)
                     (seq 0 (length S)))
          (seq 0 (length S)).

Definition cholesky_diagonal (S : mat) : option mat :=
  if is_diagonal S && forallb (Rltb 0) (diagonal S)
  then Some (diag (map sqrt (diagonal S)))
  else None.

Definition solve_diagonal (J h : mat) : option mat :=
  if is_diagonal J && forallb (fun c => negb (Reqb c 0)) (diagonal J)
  then Some (map2 (fun c row => map (fun x => x / c) row) (diagonal J) h)
  else None.

Definition gaussian_logpdf_diag (x mu s : vec) : R :=
  Rsum (map2 (fun r s_d => - (1 / 2) * ln (2 * PI * s_d) - r * r / (2 * s_d))
             (vsub x mu) s).

Definition studentst_kernel_diag (x mu s nu : vec) : R :=
  Rsum (map2 (fun r '(s_d, nu_d) => - ((nu_d + 1) / 2) * ln (1 + r * r / (nu_d * s_d)))
             (vsub x mu) (combine s nu)).

Definition mahalanobis_diag (L : mat) (v : vec) : R :=
  Rsum (map2 (fun r l => (r / l) * (r / l)) v (diagonal L)).

Definition robust_ar_statistics_sum (Ez : mat) (tau : tensor3) (x y : mat)
    (J : list tensor3) (h : tensor3) : list tensor3 * tensor3 :=
  let n := length (hd [] x) in
  let w (k d : nat) : vec :=
    map2 (fun e_t tau_t => nth k e_t 0 * nth d (nth k tau_t []) 0) Ez tau in
  (map2 (fun Jk k =>
           map2 (fun Jkd d => madd Jkd (matmul_TN n n (scale_rows x (w k d)) x))
                Jk (seq 0 (length Jk)))
        J (seq 0 (length J)),
   map2 (fun hk k =>
           map2 (fun hkd d =>
                   vadd hkd (map (fun i => dot (col i (scale_rows x (w k d))) (col d y))
                                 (seq 0 n)))
                hk (seq 0 (length hk)))
        h (seq 0 (length h))).

Definition example_numerics : Numerics := {|
  multivariate_normal_logpdf := fun x mu Sigma => gaussian_logpdf_diag x mu (diagonal Sigma);
  diagonal_gaussian_logpdf := gaussian_logpdf_diag;
  multivariate_studentst_logpdf := fun x mu Sigma nu =>
    studentst_kernel_diag x mu (diagonal Sigma) (repeat nu (length x));
  independent_studentst_logpdf := studentst_kernel_diag;
  batch_mahalanobis := mahalanobis_diag;
  cholesky := cholesky_diagonal;
  solve := solve_diagonal;
  digamma := fun a => ln a - 1 / (2 * a);
  generalized_newton_studentst_dof := fun E_tau E_logtau =>
    match E_tau, E_logtau with
    | Some _, Some _ => Dof 4
    | _, _ => DofAssertionFails
    end;
  robust_ar_statistics := robust_ar_statistics_sum
|}.

(** A model of class [v] with one lag, no input, [K] states and [D]
    dimensions, built from the given parameters. *)
Definition make_model (v : variant) (K D : nat) (mu0 : mat) (A : tensor3) (b : mat)
    (nz : noise) (nu : dof) : model :=
  {| kind := v; K := K; D := D; M := 0; lags := 1;
     mu_init := mu0; _As := A; bs := b; Vs := repeat (repeat [] D) K;
     noise_params := nz; nus_params := nu;
     l2_penalty_A := 1e-8; l2_penalty_b := 1e-8; l2_penalty_V := 1e-8 |}.

(** One state, one dimension: [x_t = x_{t-1} / 2 + 1]. *)
Definition gaussian_1x1 : model :=
  make_model AutoRegressiveObservations 1 1 [[0]] [[[1 / 2]]] [[1]]
    (SqrtSigmas [[[1]]] [[[1]]]) NoNus.
Definition independent_1x1 : model :=
  make_model IndependentAutoRegressiveObservations 1 1 [[0]] [[[1 / 2]]] [[1]]
    (LogSigmasq [[0]] [[0]]) NoNus.

(** One state, two dimensions, lag coefficients 2 and 3 on the diagonal. *)
Definition diagonal_1x2 : model :=
  make_model AutoRegressiveDiagonalNoiseObservations 1 2 [[0; 0]]
    [[[2; 0]; [0; 3]]] [[0; 0]] (LogSigmasq [[0; 0]] [[0; 0]]) NoNus.
Definition independent_1x2 : model :=
  make_model IndependentAutoRegressiveObservations 1 2 [[0; 0]]
    [[[2]; [3]]] [[0; 0]] (LogSigmasq [[0; 0]] [[0; 0]]) NoNus.

(** Two states, one dimension. *)
Definition gaussian_2x1 : model :=
  make_model AutoRegressiveObservations 2 1 [[0]; [0]] [[[1 / 2]]; [[- (1 / 2)]]]
    [[1]; [0]] (SqrtSigmas [[[1]]; [[1]]] [[[1]]; [[1]]]) NoNus.
Definition independent_2x1 : model :=
  make_model IndependentAutoRegressiveObservations 2 1 [[0]; [0]]
    [[[1 / 2]]; [[- (1 / 2)]]] [[1]; [0]] (LogSigmasq [[0]; [0]] [[0]; [0]]) NoNus.
Definition robust_diagonal_2x1 : model :=
  make_model RobustAutoRegressiveDiagonalNoiseObservations 2 1 [[0]; [0]]
    [[[1 / 2]]; [[- (1 / 2)]]] [[1]; [0]] (LogSigmasq [[0]; [0]] [[0]; [0]])
    (LogNus [ln 4; ln 4]).
Definition alt_2x1 : model :=
  make_model AltRobustAutoRegressiveDiagonalNoiseObservations 2 1 [[0]; [0]]
    [[[1 / 2]]; [[- (1 / 2)]]] [[1]; [0]] (LogSigmasq [[0]; [0]] [[0]; [0]])
    (LogNusPerDim [[ln 4]; [ln 4]]).

(* ================================================================== *)
(** * Part II: theorems *)
(* ================================================================== *)

(** ** Outcomes of the building blocks *)

(** An outcome that carries an instance: the method returned or raised. *)
Definition final_state (o : outcome) : option model :=
  match o with
  | Returned m => Some m
  | Raised _ m => Some m
  | NonFinite => None
  end.


Lemma Rltb_true (x y : R) : Rltb x y = true <-> x < y.
Proof. unfold Rltb. destruct (Rlt_dec x y); split; intros; congruence || auto. Qed.

Lemma Rltb_false (x y : R) : Rltb x y = false <-> ~ x < y.
Proof. unfold Rltb. destruct (Rlt_dec x y); split; intros; congruence || tauto. Qed.

Lemma Reqb_true (x y : R) : Reqb x y = true <-> x = y.
Proof. unfold Reqb. destruct (Req_dec_T x y); split; intros; congruence || auto. Qed.

Lemma Reqb_false (x y : R) : Reqb x y = false <-> x <> y.
Proof. unfold Reqb. destruct (Req_dec_T x y); split; intros; congruence || tauto. Qed.

Lemma assign_cases {A : Type} (r : result A) (store : A -> model -> model) (m : model) :
  (exists a, r = Ok a /\ assign r store m = Returned (store a m))
  \/ (exists e, r = Raise e /\ assign r store m = Raised e m).
Proof. destruct r; [left | right]; eauto. Qed.

(** ** C5: the prior arguments of the Gaussian M-step *)

Section PriorArguments.
Context {N : Numerics}.

(** C5 (the code departs from the claim).  In
    [AutoRegressiveObservations.m_step] the supplied prior is only
    inspected: once [J0] and [h0] have passed the shape assertions the call
    is the call without them, because [J] and [h] are assigned a second
    time from the ridge prior before the accumulation loop. *)
Theorem m_step_gaussian_discards_prior
    (rng : nat -> draw) (seqs : list obs_seq) (J0 h0 : option tensor3) (m : model) :
  m_step_gaussian rng seqs J0 h0 m =
  match collect (lags m) (M m) seqs with
  | Raise e => Raised e m
  | Ok _ =>
      match check_prior m J0 h0 with
      | Raise e => Raised e m
      | Ok _ => m_step_gaussian rng seqs None None m
      end
  end.
Proof.
  unfold m_step_gaussian.
  destruct (collect (lags m) (M m) seqs) as [xyz | e]; [ | reflexivity].
  destruct (check_prior m J0 h0) as [[] | e]; reflexivity.
Qed.

End PriorArguments.

(** ** C7: the independent M-step and the stored lag coefficients *)

Ltac break_match :=
  match goal with
  | |- context [match ?x with _ => _ end] => destruct x eqn:?
  | |- context [if ?x then _ else _] => destruct x eqn:?
  end.

Lemma and_then_final (o : outcome) (f : model -> outcome) (I : model -> Prop) :
  (forall m', final_state o = Some m' -> I m') ->
  (forall m1 m', I m1 -> final_state (f m1) = Some m' -> I m') ->
  forall m', final_state (o >>= f) = Some m' -> I m'.
Proof.
  intros Ho Hf m' H. destruct o as [m1 | e m1 | ]; simpl in *.
  - eapply Hf; [apply Ho; reflexivity | exact H].
  - apply Ho; exact H.
  - discriminate.
Qed.

Lemma fold_and_then_final (I : model -> Prop) (f : nat -> model -> outcome)
    (ks : list nat) :
  (forall k m1 m', I m1 -> final_state (f k m1) = Some m' -> I m') ->
  forall o, (forall m', final_state o = Some m' -> I m') ->
  forall m', final_state (fold_left (fun o k => o >>= f k) ks o) = Some m' -> I m'.
Proof.
  intros Hf. induction ks as [ | k ks IH]; intros o Ho m' H; simpl in H.
  - apply Ho; exact H.
  - eapply IH; [ | exact H].
    intros m2. apply and_then_final; [exact Ho | apply Hf].
Qed.

Lemma set_log_sigmasq_As (v : mat) (m : model) : _As (set_log_sigmasq v m) = _As m.
Proof. unfold set_log_sigmasq. destruct (noise_params m); reflexivity. Qed.

Section IndependentCoefficients.
Context {N : Numerics}.

Lemma m_step_state_keeps_As (d k : nat) (xs : mat) (ys : vec) (weights : mat)
    (m m' : model) :
  final_state (m_step_state d k xs ys weights m) = Some m' -> _As m' = _As m.
Proof.
  unfold m_step_state, assign.
  repeat (break_match; simpl); intros H; inversion H; subst; clear H;
    rewrite ?set_log_sigmasq_As; reflexivity.
Qed.

Lemma m_step_dim_keeps_As (seqs : list obs_seq) (d : nat) (m m' : model) :
  final_state (m_step_dim seqs d m) = Some m' -> _As m' = _As m.
Proof.
  unfold m_step_dim.
  destruct (collect_dim (lags m) (M m) d seqs) as [parts | e]; simpl.
  2:{ intros H; inversion H; reflexivity. }
  destruct parts as [ | p parts].
  { simpl. intros H; inversion H; reflexivity. }
  generalize (concat (map (fun '(x, _, _) => x) (p :: parts))).
  generalize (concat (map (fun '(_, y, _) => y) (p :: parts))).
  generalize (concat (map (fun '(_, _, w) => w) (p :: parts))).
  intros ws ys xs.
  destruct xs as [ | x0 xs].
  { simpl. intros H; inversion H; reflexivity. }
  revert m'.
  apply (fold_and_then_final (fun m1 => _As m1 = _As m)).
  - intros k' m1 m2 H1 H2. rewrite <- H1. eapply m_step_state_keeps_As; exact H2.
  - simpl. intros m2 H; inversion H; reflexivity.
Qed.

(** C7 (the code departs from the claim).  However
    [IndependentAutoRegressiveObservations.m_step] ends (by returning or by
    raising) the stored lag coefficients [_As] are the ones it started
    with: neither the fallback value 1 nor the regression solution reaches
    them, since every [self.As[k, d] = ...] writes into the array the
    property [As] has just built. *)
Theorem m_step_independent_keeps_As (seqs : list obs_seq) (m : model) :
  match final_state (m_step_independent seqs m) with
  | Some m' => _As m' = _As m
  | None => True
  end.
Proof.
  destruct (final_state (m_step_independent seqs m)) as [m' | ] eqn:H; [ | exact I].
  revert m' H. unfold m_step_independent.
  apply (fold_and_then_final (fun m1 => _As m1 = _As m)).
  - intros d m1 m2 H1 H2. rewrite <- H1. eapply m_step_dim_keeps_As; exact H2.
  - simpl. intros m2 H; inversion H; reflexivity.
Qed.

End IndependentCoefficients.

(** ** C8: [permute] *)

Lemma and_then_finite (o : outcome) (f : model -> outcome) :
  o <> NonFinite -> (forall m, f m <> NonFinite) -> o >>= f <> NonFinite.
Proof. destruct o; simpl; intros; auto; congruence. Qed.

Lemma assign_finite {A : Type} (r : result A) (store : A -> model -> model) (m : model) :
  assign r store m <> NonFinite.
Proof. destruct r; simpl; congruence. Qed.

Lemma As_setter_finite (v : tensor3) (m : model) : As_setter v m <> NonFinite.
Proof. unfold As_setter. destruct (is_independent (kind m)); congruence. Qed.

Ltac finite_outcome :=
  repeat match goal with
         | |- and_then _ _ <> NonFinite => apply and_then_finite; [ | intros ]
         | |- assign _ _ _ <> NonFinite => apply assign_finite
         | |- As_setter _ _ <> NonFinite => apply As_setter_finite
         | |- match ?r with Ok _ => _ | Raise _ => _ end <> NonFinite => destruct r
         | |- Raised _ _ <> NonFinite => discriminate
         | |- Returned _ <> NonFinite => discriminate
         end.

Lemma permute_base_finite (perm : list nat) (m : model) :
  permute_base perm m <> NonFinite.
Proof. unfold permute_base. finite_outcome. Qed.

Lemma permute_diagonal_finite (perm : list nat) (m : model) :
  permute_diagonal perm m <> NonFinite.
Proof. unfold permute_diagonal. finite_outcome. apply permute_base_finite. Qed.

(** C8 (the code departs from the claim).  For the class
    [AltRobustAutoRegressiveDiagonalNoiseObservations] every call of
    [permute] raises, whatever the permutation: the parent's method either
    raises itself or is followed by the read of [self.inv_nus]. *)
Theorem permute_alt_raises (perm : list nat) (m : model) :
  exists e m', permute_alt perm m = Raised e m'.
Proof.
  unfold permute_alt.
  destruct (permute_diagonal perm m) as [m1 | e m1 | ] eqn:H; simpl; eauto.
  exfalso. exact (permute_diagonal_finite perm m H).
Qed.

(** ** C10: the covariance and variance setters *)

(** Symmetric positive-definite, for the statement of the claim. *)
Definition symmetric (S : mat) : Prop :=
  forall i j, nth j (nth i S []) 0 = nth i (nth j S []) 0.

Definition is_full_class (v : variant) : bool :=
  match v with
  | AutoRegressiveObservations | RobustAutoRegressiveObservations => true
  | _ => false
  end.



Section SetterTheorems.
Context {N : Numerics}.


End SetterTheorems.

(** ** C3: incomplete masks *)

(** A result, or an outcome, that is not the missing-data error. *)
Definition no_missing {A : Type} (r : result A) : Prop := r <> Raise MissingData.
Definition accepts (o : outcome) : Prop := forall m', o <> Raised MissingData m'.

Lemma no_missing_Ok {A : Type} (a : A) : no_missing (Ok a).
Proof. unfold no_missing. discriminate. Qed.

Lemma no_missing_bind {A B : Type} (r : result A) (f : A -> result B) :
  no_missing r -> (forall a, no_missing (f a)) -> no_missing (bind r f).
Proof.
  unfold no_missing. destruct r; simpl; intros H1 H2; [apply H2 | ].
  intros E. apply H1. inversion E. reflexivity.
Qed.

Lemma no_missing_sequence {A : Type} (rs : list (result A)) :
  (forall r, In r rs -> no_missing r) -> no_missing (sequence rs).
Proof.
  induction rs as [ | r rs IH]; simpl; intros H; [apply no_missing_Ok | ].
  apply no_missing_bind; [apply H; auto | intros a].
  apply no_missing_bind; [apply IH; intros; apply H; auto | intros; apply no_missing_Ok].
Qed.

Lemma no_missing_of_option {A : Type} (e : exn) (o : option A) :
  e <> MissingData -> no_missing (of_option e o).
Proof. unfold no_missing. destruct o; simpl; congruence. Qed.

Lemma accepts_and_then (o : outcome) (f : model -> outcome) :
  accepts o -> (forall m, accepts (f m)) -> accepts (o >>= f).
Proof.
  unfold accepts. destruct o; simpl; intros H1 H2; [apply H2 | exact H1 | discriminate].
Qed.

Lemma accepts_assign {A : Type} (r : result A) (store : A -> model -> model) (m : model) :
  no_missing r -> accepts (assign r store m).
Proof. unfold accepts, no_missing. destruct r; simpl; congruence. Qed.

Lemma accepts_Returned (m : model) : accepts (Returned m).
Proof. unfold accepts. discriminate. Qed.

Lemma accepts_NonFinite : accepts NonFinite.
Proof. unfold accepts. discriminate. Qed.

Lemma accepts_Raised (e : exn) (m : model) : e <> MissingData -> accepts (Raised e m).
Proof. unfold accepts. congruence. Qed.

Lemma accepts_of_result {A : Type} (r : result A) (m : model) (f : A -> outcome) :
  no_missing r -> (forall a, accepts (f a)) ->
  accepts match r with Ok a => f a | Raise e => Raised e m end.
Proof. unfold no_missing. destruct r; intros; auto. apply accepts_Raised. congruence. Qed.

Lemma no_missing_compute_mus (m : model) (data input : mat) :
  no_missing (_compute_mus m data input).
Proof.
  unfold _compute_mus, compute_mus_independent, no_missing.
  destruct (is_independent (kind m)); [ | discriminate].
  match goal with |- (if ?c then _ else _) <> _ => destruct c end; discriminate.
Qed.

Lemma no_missing_getters (m : model) :
  no_missing (Sigmas m) /\ no_missing (Sigmas_init m) /\ no_missing (sigmasq m)
  /\ no_missing (sigmasq_init m) /\ no_missing (nus m) /\ no_missing (nus_per_dim m)
  /\ no_missing (get_log_sigmasq m).
Proof.
  unfold no_missing, Sigmas, Sigmas_init, sigmasq, sigmasq_init, nus, nus_per_dim,
    get_sqrt_Sigmas, get_sqrt_Sigmas_init, get_log_sigmasq, get_log_sigmasq_init.
  destruct (kind m), (noise_params m), (nus_params m); simpl; repeat split; discriminate.
Qed.

Lemma no_missing_column_stack (cs : list vec) : no_missing (column_stack cs).
Proof. unfold no_missing. destruct cs; simpl; discriminate. Qed.

Lemma no_missing_ll_columns {P : Type} (f : vec -> vec -> P -> R)
    (X : mat) (mus : tensor3) (ps : list P) :
  no_missing (ll_columns f X mus ps).
Proof. apply no_missing_column_stack. Qed.

Create HintDb missing.

#[local] Hint Resolve no_missing_Ok no_missing_compute_mus no_missing_column_stack
  no_missing_ll_columns accepts_Returned accepts_NonFinite : missing.

Ltac no_missing_step :=
  match goal with
  | |- no_missing (bind _ _) => apply no_missing_bind; [ | intros ]
  | |- no_missing (Sigmas _) => apply no_missing_getters
  | |- no_missing (Sigmas_init _) => apply no_missing_getters
  | |- no_missing (sigmasq _) => apply no_missing_getters
  | |- no_missing (sigmasq_init _) => apply no_missing_getters
  | |- no_missing (nus _) => apply no_missing_getters
  | |- no_missing (nus_per_dim _) => apply no_missing_getters
  | |- no_missing (get_log_sigmasq _) => apply no_missing_getters
  | |- no_missing (Raise ?e) => unfold no_missing; discriminate
  | |- no_missing _ => solve [auto with missing]
  | |- accepts (and_then _ _) => apply accepts_and_then; [ | intros ]
  | |- accepts (assign _ _ _) => apply accepts_assign
  | |- accepts (Raised _ _) => apply accepts_Raised; discriminate
  | |- accepts (match ?r with Ok _ => _ | Raise _ => _ end) =>
      apply accepts_of_result; [ | intros ]
  | |- accepts _ => solve [auto with missing]
  end.

Section MissingData.
Context {N : Numerics}.

Lemma log_likelihoods_no_missing (m : model) (data input : mat) (mask : list (list bool)) :
  np_all mask = true -> no_missing (log_likelihoods m data input mask).
Proof.
  intros Hm.
  unfold log_likelihoods, log_likelihoods_full, log_likelihoods_diagonal,
    log_likelihoods_independent, log_likelihoods_robust, log_likelihoods_alt.
  rewrite Hm. simpl. destruct (kind m); repeat no_missing_step.
Qed.

Lemma no_missing_cholesky_batch (value : tensor3) : no_missing (cholesky_batch value).
Proof.
  unfold cholesky_batch. apply no_missing_sequence. intros r Hr.
  apply in_map_iff in Hr. destruct Hr as (S0 & <- & _).
  apply no_missing_of_option. discriminate.
Qed.

Lemma no_missing_solve_batch (J h : tensor3) : no_missing (solve_batch J h).
Proof.
  unfold solve_batch. apply no_missing_sequence.
  revert h. induction J as [ | Jk J IH]; intros [ | hk h] r Hr; simpl in Hr; try contradiction.
  destruct Hr as [<- | Hr]; [apply no_missing_of_option; discriminate | eauto].
Qed.

Lemma accepts_As_setter (v : tensor3) (m : model) : accepts (As_setter v m).
Proof.
  unfold As_setter. destruct (is_independent (kind m));
    [apply accepts_Raised; discriminate | apply accepts_Returned].
Qed.

Lemma accepts_Sigmas_setter (value : tensor3) (m : model) : accepts (Sigmas_setter value m).
Proof.
  unfold Sigmas_setter, Sigmas_setter_full, Sigmas_setter_diagonal.
  destruct (kind m); repeat (break_match; simpl);
    try (apply accepts_Raised; discriminate); try apply accepts_Returned;
    apply accepts_assign; apply no_missing_cholesky_batch.
Qed.

Lemma accepts_Sigmas_setter_computed (value : list (option mat)) (m : model) :
  accepts (Sigmas_setter_computed value m).
Proof.
  unfold Sigmas_setter_computed. destruct (those value).
  - apply accepts_Sigmas_setter.
  - destruct (kind m); try (apply accepts_Raised; discriminate); apply accepts_Returned.
Qed.

Lemma collect_complete (lags M : nat) (seqs : list obs_seq) :
  forallb (fun s => np_all (sq_mask s)) seqs = true ->
  no_missing (collect lags M seqs).
Proof.
  induction seqs as [ | s seqs IH]; simpl; intros H; [apply no_missing_Ok | ].
  apply andb_prop in H. destruct H as [Hs H]. rewrite Hs. simpl.
  destruct (length (sq_data s) <? lags)%nat; [unfold no_missing; discriminate | ].
  apply no_missing_bind; [apply IH; exact H | intros; apply no_missing_Ok].
Qed.

Lemma collect_incomplete (lags M : nat) (seqs : list obs_seq) :
  forallb (fun s => (lags <=? length (sq_data s))%nat) seqs = true ->
  existsb (fun s => negb (np_all (sq_mask s))) seqs = true ->
  collect lags M seqs = Raise MissingData.
Proof.
  induction seqs as [ | s seqs IH]; simpl; intros HT H; [discriminate | ].
  apply andb_prop in HT. destruct HT as [Hs HT].
  destruct (np_all (sq_mask s)); simpl in *; [ | reflexivity].
  apply Nat.leb_le in Hs.
  destruct (Nat.ltb_spec (length (sq_data s)) lags) as [Hlt | _]; [lia | ].
  rewrite IH by assumption. reflexivity.
Qed.


Lemma no_missing_check_prior (m : model) (J0 h0 : option tensor3) :
  no_missing (check_prior m J0 h0).
Proof.
  unfold check_prior, no_missing.
  destruct J0, h0; repeat (break_match; simpl); discriminate.
Qed.

Lemma accepts_m_step_gaussian (rng : nat -> draw) (seqs : list obs_seq)
    (J0 h0 : option tensor3) (m : model) :
  forallb (fun s => np_all (sq_mask s)) seqs = true ->
  accepts (m_step_gaussian rng seqs J0 h0 m).
Proof.
  intros Hm. unfold m_step_gaussian.
  apply accepts_of_result; [apply collect_complete; exact Hm | intros xyz].
  apply accepts_of_result; [apply no_missing_check_prior | intros _].
  apply accepts_of_result; [apply no_missing_solve_batch | intros mus].
  apply accepts_and_then; [apply accepts_As_setter | intros m1].
  cbv zeta.
  destruct xyz as [ | p xyz]; [apply accepts_Raised; discriminate | ].
  match goal with
  | |- accepts (match ?u with _ => _ end) => destruct u
  end.
  - destruct (reinit_unused _ _ _ _ _) as [[[A V] b] Sg].
    apply accepts_Sigmas_setter_computed.
  - match goal with
    | |- accepts (match ?u with _ => _ end) => destruct u
    end; [apply accepts_Raised; discriminate | ].
    destruct (reinit_unused _ _ _ _ _) as [[[A V] b] Sg].
    apply accepts_Sigmas_setter_computed.
Qed.

Lemma no_missing_e_step_robust (m : model) (x y : mat) :
  no_missing (e_step_robust m x y).
Proof.
  unfold e_step_robust. cbv zeta.
  repeat no_missing_step. apply no_missing_cholesky_batch.
Qed.

Lemma no_missing_e_steps_robust (m : model) (xyz : list (mat * mat * mat)) :
  no_missing (e_steps_robust m xyz).
Proof.
  unfold e_steps_robust. apply no_missing_sequence. intros r Hr.
  apply in_map_iff in Hr. destruct Hr as ([[x y] Ez] & <- & _).
  apply no_missing_e_step_robust.
Qed.

Lemma accepts_robust_update (xyz : list (mat * mat * mat)) (taus : list mat)
    (prior : option tensor3 * option tensor3) (m : model) :
  accepts (fst (robust_update xyz taus prior m)).
Proof.
  unfold robust_update. cbv zeta.
  destruct (check_prior m (fst prior) (snd prior)) as [[] | e] eqn:Hc.
  2:{ simpl. apply accepts_Raised. intros ->.
      exact (no_missing_check_prior _ _ _ Hc). }
  match goal with
  | |- accepts (fst (match ?s with Ok _ => _ | Raise _ => _ end)) =>
      destruct s as [mus | e] eqn:Hs
  end.
  2:{ simpl. apply accepts_Raised. intros ->.
      exact (no_missing_solve_batch _ _ Hs). }
  simpl. apply accepts_and_then; [apply accepts_As_setter | intros m1].
  apply accepts_Sigmas_setter_computed.
Qed.

Lemma accepts_robust_iteration (xyz : list (mat * mat * mat))
    (prior : option tensor3 * option tensor3) (m : model) :
  accepts (fst (robust_iteration xyz prior m)).
Proof.
  unfold robust_iteration.
  destruct (e_steps_robust m xyz) as [taus | e] eqn:Ht.
  - apply accepts_robust_update.
  - simpl. apply accepts_Raised. intros ->.
    exact (no_missing_e_steps_robust m xyz Ht).
Qed.

Lemma accepts_robust_em (n : nat) (xyz : list (mat * mat * mat)) :
  forall prior m, accepts (robust_em n xyz prior m).
Proof.
  induction n as [ | n IH]; intros prior m; simpl; [apply accepts_Returned | ].
  pose proof (accepts_robust_iteration xyz prior m) as H.
  destruct (robust_iteration xyz prior m) as [[m1 | e m1 | ] prior']; simpl in H.
  - apply IH.
  - exact H.
  - apply accepts_NonFinite.
Qed.

Lemma no_missing_nu_statistics (m : model) (s : obs_seq) :
  no_missing (nu_statistics m s).
Proof.
  unfold nu_statistics. cbv zeta.
  repeat no_missing_step. apply no_missing_cholesky_batch.
Qed.

Lemma accepts_newton_loop (stats : list (R * (R * R))) :
  forall k m, accepts (newton_loop k stats m).
Proof.
  induction stats as [ | [a [b w]] stats IH]; intros k m; simpl;
    [apply accepts_Returned | ].
  destruct (generalized_newton_studentst_dof _ _);
    [ | apply accepts_NonFinite | apply accepts_Raised; discriminate].
  destruct (Rltb 0 nu); [ | apply accepts_NonFinite].
  destruct (nus_params m); try (apply accepts_Raised; discriminate). apply IH.
Qed.

Lemma accepts_m_step_nu_robust (seqs : list obs_seq) (m : model) :
  accepts (m_step_nu_robust seqs m).
Proof.
  unfold m_step_nu_robust.
  apply accepts_of_result.
  - apply no_missing_sequence. intros r Hr. apply in_map_iff in Hr.
    destruct Hr as (s & <- & _). apply no_missing_nu_statistics.
  - intros stats. destruct (fold_left _ stats _) as [[a b] c].
    apply accepts_newton_loop.
Qed.

Lemma accepts_m_step_robust (seqs : list obs_seq) (n : nat)
    (J0 h0 : option tensor3) (m : model) :
  forallb (fun s => np_all (sq_mask s)) seqs = true ->
  accepts (m_step_robust seqs n J0 h0 m).
Proof.
  intros Hm. unfold m_step_robust, m_step_ar_robust.
  apply accepts_and_then; [ | intros; apply accepts_m_step_nu_robust].
  apply accepts_of_result; [apply collect_complete; exact Hm | intros xyz].
  apply accepts_robust_em.
Qed.


Lemma no_missing_e_step_alt (m : model) (x y : mat) : no_missing (e_step_alt m x y).
Proof. unfold e_step_alt. cbv zeta. repeat no_missing_step. Qed.

Lemma no_missing_map2_sequence {A B C : Type} (f : A -> B -> result C)
    (xs : list A) (ys : list B) :
  (forall a b, no_missing (f a b)) -> no_missing (sequence (map2 f xs ys)).
Proof.
  intros Hf. apply no_missing_sequence.
  revert ys. induction xs as [ | x xs IH]; intros [ | y ys] r Hr; simpl in Hr;
    try contradiction.
  destruct Hr as [<- | Hr]; [apply Hf | eauto].
Qed.

Lemma accepts_alt_update (xyz : list (mat * mat * mat)) (taus : list tensor3)
    (m : model) :
  accepts (alt_update xyz taus m).
Proof.
  unfold alt_update. cbv zeta.
  apply accepts_of_result.
  { apply no_missing_map2_sequence. intros Jk hk.
    apply no_missing_map2_sequence. intros Jkd hkd.
    apply no_missing_of_option. discriminate. }
  intros mus.
  apply accepts_and_then; [apply accepts_As_setter | intros m1].
  destruct xyz; [apply accepts_Raised; discriminate | ].
  destruct (log_variances _ _); [apply accepts_Returned | apply accepts_NonFinite].
Qed.

Lemma accepts_alt_iteration (xyz : list (mat * mat * mat)) (m : model) :
  accepts (alt_iteration xyz m).
Proof.
  unfold alt_iteration, e_steps_alt.
  apply accepts_of_result.
  { apply no_missing_sequence. intros r Hr. apply in_map_iff in Hr.
    destruct Hr as ([[x y] Ez] & <- & _). apply no_missing_e_step_alt. }
  intros taus. apply accepts_alt_update.
Qed.

Lemma accepts_alt_em (n : nat) (xyz : list (mat * mat * mat)) :
  forall m, accepts (alt_em n xyz m).
Proof.
  induction n as [ | n IH]; intros m; simpl; [apply accepts_Returned | ].
  apply accepts_and_then; [apply accepts_alt_iteration | exact IH].
Qed.

Lemma no_missing_nu_statistics_alt (m : model) (s : obs_seq) :
  no_missing (nu_statistics_alt m s).
Proof. unfold nu_statistics_alt. cbv zeta. repeat no_missing_step. Qed.

Lemma accepts_newton_loop_alt (kds : list (nat * nat)) (E_taus E_logtaus : mat)
    (weights : vec) :
  forall m, accepts (newton_loop_alt kds E_taus E_logtaus weights m).
Proof.
  induction kds as [ | [k d] kds IH]; intros m; simpl; [apply accepts_Returned | ].
  destruct (generalized_newton_studentst_dof _ _);
    [ | apply accepts_NonFinite | apply accepts_Raised; discriminate].
  destruct (Rltb 0 nu); [ | apply accepts_NonFinite].
  destruct (nus_params m); try (apply accepts_Raised; discriminate). apply IH.
Qed.

Lemma accepts_m_step_alt (seqs : list obs_seq) (n : nat) (m : model) :
  forallb (fun s => np_all (sq_mask s)) seqs = true ->
  accepts (m_step_alt seqs n m).
Proof.
  intros Hm. unfold m_step_alt, m_step_ar_alt, m_step_nu_alt.
  apply accepts_and_then.
  - apply accepts_of_result; [apply collect_complete; exact Hm | intros xyz].
    apply accepts_alt_em.
  - intros m1. apply accepts_of_result.
    + apply no_missing_sequence. intros r Hr. apply in_map_iff in Hr.
      destruct Hr as (s & <- & _). apply no_missing_nu_statistics_alt.
    + intros stats. destruct (fold_left _ stats _) as [[a b] c].
      apply accepts_newton_loop_alt.
Qed.

(** C3, as the code has it.  In every class but the independent one, a
    mask that is not entirely true makes [log_likelihoods] raise the
    missing-data error, and makes [m_step] raise it with the instance
    untouched (the sequences being at least [lags] long, so that the
    collecting loop reaches the mask); with complete masks neither call
    raises that error. *)
Theorem incomplete_mask_rejected (m : model) :
  is_independent (kind m) = false ->
  (forall data input mask,
     np_all mask = false ->
     log_likelihoods m data input mask = Raise MissingData)
  /\ (forall rng seqs cfg,
        forallb (fun s => (lags m <=? length (sq_data s))%nat) seqs = true ->
        existsb (fun s => negb (np_all (sq_mask s))) seqs = true ->
        m_step rng seqs cfg m = Raised MissingData m)
  /\ (forall data input mask,
        np_all mask = true ->
        log_likelihoods m data input mask <> Raise MissingData)
  /\ (forall rng seqs cfg m',
        forallb (fun s => np_all (sq_mask s)) seqs = true ->
        m_step rng seqs cfg m <> Raised MissingData m').
Proof.
  intros Hk. repeat split.
  - intros data input mask Hm.
    unfold log_likelihoods, log_likelihoods_full, log_likelihoods_diagonal,
      log_likelihoods_robust, log_likelihoods_alt.
    rewrite Hm. destruct (kind m); try discriminate; reflexivity.
  - intros rng seqs cfg HT Hm.
    pose proof (collect_incomplete (lags m) (M m) seqs HT Hm) as Hc.
    unfold m_step, m_step_gaussian, m_step_robust, m_step_ar_robust,
      m_step_alt, m_step_ar_alt.
    rewrite Hc. destruct (kind m); try discriminate; reflexivity.
  - intros data input mask Hm. apply log_likelihoods_no_missing. exact Hm.
  - intros rng seqs cfg m' Hm. revert m'. fold (accepts (m_step rng seqs cfg m)).
    unfold m_step. destruct (kind m); try discriminate.
    + apply accepts_m_step_gaussian; exact Hm.
    + apply accepts_m_step_gaussian; exact Hm.
    + apply accepts_m_step_robust; exact Hm.
    + apply accepts_m_step_robust; exact Hm.
    + apply accepts_m_step_alt; exact Hm.
Qed.

End MissingData.

(** ** C1 and C9: the mean predictor *)

(** The mean of the specification, in its words: the sum over
    [l = 1..lags] of [A_k^(l) x[t-l]], plus [V_k u[t]], plus [b_k], where
    [A_k^(l)] is the [l]-th block of [D] columns of [As[k]]. *)
Definition lag_block (D l : nat) (A : mat) : mat := cols ((l - 1) * D) (l * D) A.
Definition vsum (d : nat) (vs : list vec) : vec := fold_right vadd (zeros d) vs.
Definition ar_mean (m : model) (data input : mat) (k t : nat) : vec :=
  let D := length (hd [] data) in
  vadd (vadd (vsum D (map (fun l => matvec (lag_block D l (nth k (As m) []))
                                           (nth (t - l) data []))
                          (seq 1 (lags m))))
             (matvec (nth k (Vs m) []) (firstn (M m) (nth t input []))))
       (nth k (bs m) []).

Lemma map2_length {A B C : Type} (f : A -> B -> C) (xs : list A) (ys : list B) :
  length (map2 f xs ys) = Nat.min (length xs) (length ys).
Proof.
  revert ys. induction xs as [ | x xs IH]; intros [ | y ys]; simpl; auto.
Qed.

Lemma nth_map2 {A B C : Type} (f : A -> B -> C) (xs : list A) (ys : list B)
    (n : nat) (a : A) (b : B) (c : C) :
  (n < length xs)%nat -> (n < length ys)%nat ->
  nth n (map2 f xs ys) c = f (nth n xs a) (nth n ys b).
Proof.
  revert ys n. induction xs as [ | x xs IH]; intros [ | y ys] [ | n] Hx Hy;
    simpl in *; try lia; auto.
  apply IH; lia.
Qed.

Lemma vadd_comm (u v : vec) : vadd u v = vadd v u.
Proof.
  unfold vadd. revert v. induction u as [ | x u IH]; intros [ | y v]; simpl; auto.
  rewrite IH. f_equal. apply Rplus_comm.
Qed.

Lemma vadd_assoc (u v w : vec) : vadd (vadd u v) w = vadd u (vadd v w).
Proof.
  unfold vadd. revert v w. induction u as [ | x u IH]; intros [ | y v] [ | z w];
    simpl; auto.
  rewrite IH. f_equal. apply Rplus_assoc.
Qed.

Lemma vadd_length (u v : vec) (d : nat) :
  length u = d -> length v = d -> length (vadd u v) = d.
Proof. intros Hu Hv. unfold vadd. rewrite map2_length. lia. Qed.

Lemma vadd_zeros (v : vec) : vadd (zeros (length v)) v = v.
Proof.
  unfold vadd, zeros. induction v as [ | x v IH]; simpl; [reflexivity | ].
  rewrite IH. f_equal. apply Rplus_0_l.
Qed.

Lemma vmul_ones (v : vec) : vmul v (repeat 1 (length v)) = v.
Proof.
  unfold vmul. induction v as [ | x v IH]; simpl; [reflexivity | ].
  rewrite IH. f_equal. apply Rmult_1_r.
Qed.

Lemma dot_comm (u v : vec) : dot u v = dot v u.
Proof.
  unfold dot, vmul. f_equal. revert v.
  induction u as [ | x u IH]; intros [ | y v]; simpl; auto.
  rewrite IH. f_equal. apply Rmult_comm.
Qed.

Lemma map2_nil_r {A B C : Type} (f : A -> B -> C) (xs : list A) : map2 f xs [] = [].
Proof. destruct xs; reflexivity. Qed.

Lemma nth_madd (X Y : mat) (n : nat) :
  nth n (madd X Y) [] = vadd (nth n X []) (nth n Y []).
Proof.
  unfold madd, vadd. revert Y n. induction X as [ | x X IH]; intros Y n.
  - destruct n; reflexivity.
  - destruct Y as [ | y Y]; destruct n as [ | n]; simpl;
      rewrite ?map2_nil_r; auto.
Qed.

Lemma nth_fold_madd (F : nat -> mat) (ls : list nat) (acc : mat) (n : nat) :
  nth n (fold_left (fun acc l => madd acc (F l)) ls acc) []
  = fold_left (fun v l => vadd v (nth n (F l) [])) ls (nth n acc []).
Proof.
  revert acc. induction ls as [ | l ls IH]; intros acc; simpl; [reflexivity | ].
  rewrite IH, nth_madd. reflexivity.
Qed.

Lemma fold_vadd_vsum (d : nat) (a : nat -> vec) (ls : list nat) (v0 : vec) :
  length v0 = d -> (forall l, In l ls -> length (a l) = d) ->
  fold_left (fun v l => vadd v (a l)) ls v0 = vadd (vsum d (map a ls)) v0.
Proof.
  revert v0. induction ls as [ | l ls IH]; intros v0 H0 Ha; simpl.
  - subst d. symmetry. apply vadd_zeros.
  - rewrite IH.
    + rewrite (vadd_comm v0 (a l)), <- vadd_assoc.
      f_equal. rewrite vadd_comm. reflexivity.
    + apply vadd_length; [exact H0 | apply Ha; simpl; auto].
    + intros l' Hl'. apply Ha. simpl. auto.
Qed.

Lemma nth_slice {A : Type} (a b n : nat) (l : list A) (d : A) :
  (n < b - a)%nat -> nth n (slice a b l) d = nth (a + n) l d.
Proof.
  intros H. unfold slice. rewrite nth_firstn.
  destruct (Nat.ltb_spec n (b - a)); [ | lia].
  apply nth_skipn.
Qed.

Lemma slice_length {A : Type} (a b : nat) (l : list A) :
  (b <= length l)%nat -> length (slice a b l) = (b - a)%nat.
Proof.
  intros H. unfold slice. rewrite length_firstn, length_skipn. lia.
Qed.

Lemma nth_map_in_range {A B : Type} (f : A -> B) (l : list A) (n : nat) (a : A) (b : B) :
  (n < length l)%nat -> nth n (map f l) b = f (nth n l a).
Proof.
  intros H. rewrite (nth_indep _ b (f a)) by (rewrite length_map; exact H).
  apply map_nth.
Qed.

Lemma nth_map_rows (f : vec -> vec) (X : mat) (n : nat) :
  (n < length X)%nat -> nth n (map f X) [] = f (nth n X []).
Proof. apply nth_map_in_range. Qed.

Lemma fold_left_ext_in {A B : Type} (f g : A -> B -> A) (ls : list B) (a : A) :
  (forall l v, In l ls -> f v l = g v l) -> fold_left f ls a = fold_left g ls a.
Proof.
  revert a. induction ls as [ | l ls IH]; intros a H; simpl; [reflexivity | ].
  rewrite H by (simpl; auto). apply IH. intros; apply H; simpl; auto.
Qed.

Lemma matvec_length (W : mat) (x : vec) : length (matvec W x) = length W.
Proof. unfold matvec. apply length_map. Qed.

Lemma compute_mus_k_initial (lags D M : nat) (data input A : mat) (b : vec)
    (V : mat) (mu0 : vec) (t : nat) :
  (t < lags)%nat -> length mu0 = D ->
  nth t (compute_mus_k lags D M data input A b V mu0) [] = mu0.
Proof.
  intros Ht Hmu. unfold compute_mus_k, vstack, ones.
  rewrite app_nth1 by (rewrite length_map, repeat_length; exact Ht).
  rewrite nth_map_rows by (rewrite repeat_length; exact Ht).
  rewrite nth_repeat_lt by exact Ht. subst D. apply vmul_ones.
Qed.

Lemma compute_mus_k_lagged (lags D M : nat) (data input A : mat) (b : vec)
    (V : mat) (mu0 : vec) (t : nat) :
  (lags <= t < length data)%nat -> length input = length data ->
  length A = D -> length V = D -> length b = D ->
  nth t (compute_mus_k lags D M data input A b V mu0) []
  = vadd (vadd (vsum D (map (fun l => matvec (lag_block D l A) (nth (t - l) data []))
                            (seq 1 lags)))
               (matvec V (firstn M (nth t input []))))
         b.
Proof.
  intros Ht Hin HA HV Hb. unfold compute_mus_k, vstack, ones.
  rewrite app_nth2 by (rewrite length_map, repeat_length; lia).
  rewrite length_map, repeat_length.
  set (t' := (t - lags)%nat).
  assert (Hlag : forall l, In l (seq 0 lags) ->
            nth t' (dot_T (lagged lags l data) (cols (l * D) ((l + 1) * D) A)) []
            = matvec (cols (l * D) ((l + 1) * D) A) (nth (t - (l + 1)) data [])).
  { intros l Hl. apply in_seq in Hl. unfold dot_T, lagged.
    rewrite nth_map_rows by (rewrite slice_length; lia).
    rewrite nth_slice by lia.
    replace (lags - l - 1 + t')%nat with (t - (l + 1))%nat by lia.
    unfold matvec. apply map_ext. intros w. apply dot_comm. }
  unfold add_row.
  assert (Hlen : (t' < length
            (fold_left (fun acc l => madd acc
                          (dot_T (lagged lags l data) (cols (l * D) ((l + 1) * D) A)))
                       (seq 0 lags) (dot_T (cols 0 M (skipn lags input)) V)))%nat).
  { assert (G : forall ls acc,
              (forall l, In l ls -> l < lags)%nat ->
              length acc = (length data - lags)%nat ->
              length (fold_left (fun acc l => madd acc
                          (dot_T (lagged lags l data) (cols (l * D) ((l + 1) * D) A)))
                        ls acc) = (length data - lags)%nat).
    { induction ls as [ | l ls IH]; intros acc Hls Hacc; simpl; [exact Hacc | ].
      apply IH; [intros; apply Hls; simpl; auto | ].
      unfold madd. rewrite map2_length, Hacc. unfold dot_T, lagged.
      rewrite length_map, slice_length by lia.
      assert (l < lags)%nat by (apply Hls; simpl; auto). lia. }
    rewrite G; [unfold t'; lia | intros l Hl; apply in_seq in Hl; lia | ].
    unfold dot_T, cols. rewrite !length_map, length_skipn. lia. }
  rewrite nth_map_rows by exact Hlen.
  f_equal.
  rewrite nth_fold_madd.
  rewrite (fold_left_ext_in _
             (fun v l => vadd v (matvec (cols (l * D) ((l + 1) * D) A)
                                        (nth (t - (l + 1)) data [])))).
  2:{ intros l v Hl. rewrite Hlag by exact Hl. reflexivity. }
  rewrite (fold_vadd_vsum D
             (fun l => matvec (cols (l * D) ((l + 1) * D) A) (nth (t - (l + 1)) data []))).
  - f_equal.
    + f_equal. rewrite <- seq_shift, map_map. apply map_ext. intros l.
      unfold lag_block. replace (S l - 1)%nat with l by lia.
      replace (l + 1)%nat with (S l) by lia. reflexivity.
    + unfold dot_T, cols.
      rewrite nth_map_rows
        by (rewrite length_map, length_skipn; unfold t'; lia).
      rewrite nth_map_rows by (rewrite length_skipn; unfold t'; lia).
      rewrite nth_skipn. replace (lags + t')%nat with t by (unfold t'; lia).
      unfold slice. rewrite Nat.sub_0_r. simpl skipn.
      unfold matvec. apply map_ext. intros w. apply dot_comm.
  - unfold dot_T, cols.
    rewrite nth_map_rows
      by (rewrite length_map, length_skipn; unfold t'; lia).
    rewrite length_map. exact HV.
  - intros l _. rewrite matvec_length. unfold cols. rewrite length_map. exact HA.
Qed.

(** The shape of the parameters on the state and dimension axes:
    [mu_init : (K, D)], [_As : (K, D, -)], [bs : (K, D)], [Vs : (K, D, -)],
    and [lags > 0] as the constructor asserts. *)
Definition well_shaped (m : model) : bool :=
  (0 <? lags m)%nat
  && has_shape2 (mu_init m) (K m) (D m)
  && has_shape2 (bs m) (K m) (D m)
  && (length (_As m) =? K m)%nat
  && forallb (fun A => (length A =? D m)%nat) (_As m)
  && (length (Vs m) =? K m)%nat
  && forallb (fun V => (length V =? D m)%nat) (Vs m).

Lemma forallb_nth {A : Type} (P : A -> bool) (l : list A) (n : nat) (d : A) :
  forallb P l = true -> (n < length l)%nat -> P (nth n l d) = true.
Proof.
  intros H Hn. rewrite forallb_forall in H. apply H. apply nth_In. exact Hn.
Qed.

Lemma has_shape2_rows (X : mat) (n d k : nat) :
  has_shape2 X n d = true -> (k < n)%nat ->
  length X = n /\ length (nth k X []) = d.
Proof.
  unfold has_shape2. intros H Hk. apply andb_prop in H. destruct H as [H1 H2].
  apply Nat.eqb_eq in H1. split; [exact H1 | ].
  apply Nat.eqb_eq.
  apply (forallb_nth (fun r => (length r =? d)%nat) X k []);
    [exact H2 | lia].
Qed.

Lemma well_shaped_state (m : model) (k : nat) :
  well_shaped m = true -> (k < K m)%nat ->
  (0 < lags m)%nat
  /\ length (mu_init m) = K m /\ length (nth k (mu_init m) []) = D m
  /\ length (bs m) = K m /\ length (nth k (bs m) []) = D m
  /\ length (_As m) = K m /\ length (nth k (_As m) []) = D m
  /\ length (Vs m) = K m /\ length (nth k (Vs m) []) = D m.
Proof.
  unfold well_shaped. intros H Hk.
  repeat rewrite andb_true_iff in H.
  destruct H as ((((((H1 & H2) & H3) & H4) & H5) & H6) & H7).
  apply Nat.ltb_lt in H1. apply Nat.eqb_eq in H4, H6.
  destruct (has_shape2_rows _ _ _ k H2 Hk). destruct (has_shape2_rows _ _ _ k H3 Hk).
  repeat split; auto.
  - apply Nat.eqb_eq.
    apply (forallb_nth (fun A => (length A =? D m)%nat) (_As m) k []);
      [assumption | lia].
  - apply Nat.eqb_eq.
    apply (forallb_nth (fun V => (length V =? D m)%nat) (Vs m) k []);
      [assumption | lia].
Qed.

Lemma nth_zip4 {A B C E F : Type} (f : A * (B * (C * E)) -> F)
    (l1 : list A) (l2 : list B) (l3 : list C) (l4 : list E)
    (a : A) (b : B) (c : C) (e : E) (d : F) (n k : nat) :
  length l1 = n -> length l2 = n -> length l3 = n -> length l4 = n -> (k < n)%nat ->
  nth k (map f (combine l1 (combine l2 (combine l3 l4)))) d
  = f (nth k l1 a, (nth k l2 b, (nth k l3 c, nth k l4 e))).
Proof.
  intros H1 H2 H3 H4 Hk.
  rewrite (nth_map_in_range f _ _ (a, (b, (c, e))))
    by (rewrite !length_combine; lia).
  rewrite !combine_nth by (rewrite ?length_combine; lia).
  reflexivity.
Qed.

(** The base-class mean predictor meets the specification: [mu_init[k]]
    on the first [lags] steps, the autoregressive mean afterwards. *)
Theorem compute_mus_base_spec (m : model) (data input : mat) (k t : nat) :
  is_independent (kind m) = false ->
  well_shaped m = true ->
  length (hd [] data) = D m ->
  length input = length data ->
  (lags m <= length data)%nat ->
  (k < K m)%nat -> (t < length data)%nat ->
  nth t (nth k (compute_mus_base m data input) []) []
  = if (t <? lags m)%nat then nth k (mu_init m) [] else ar_mean m data input k t.
Proof.
  intros Hind Hws HD Hin HT Hk Ht.
  destruct (well_shaped_state m k Hws Hk)
    as (Hl & Hmu & Hmuk & Hb & Hbk & HA & HAk & HV & HVk).
  assert (HAs : As m = _As m) by (unfold As; rewrite Hind; reflexivity).
  unfold compute_mus_base. rewrite HAs.
  match goal with
  | |- nth t (nth k (map ?f _) []) [] = _ =>
      rewrite (nth_zip4 f (_As m) (bs m) (Vs m) (mu_init m) [] [] [] [] []
                 (K m) k HA Hb HV Hmu Hk)
  end.
  destruct (Nat.ltb_spec t (lags m)) as [Hlt | Hge].
  - apply compute_mus_k_initial; [exact Hlt | congruence].
  - rewrite compute_mus_k_lagged; try congruence; try lia.
    unfold ar_mean. rewrite HAs. reflexivity.
Qed.

(** C1 (the code departs from the claim).  The independent class with two
    dimensions and lag coefficients 2 and 3: at [t = 1] the specification's
    mean of dimension 1 is [3 * x[0][1] = 3], the override returns [0]; its
    lag term reads column [l] of the dense [As], which is zero outside
    dimension [l]. *)
Theorem independent_mus_drops_lag_term :
  exists mus,
    _compute_mus independent_1x2 [[1; 1]; [5; 7]] [[]; []] = Ok mus
    /\ nth 1 (nth 0 (nth 1 mus []) []) 0 = 0
    /\ nth 1 (ar_mean independent_1x2 [[1; 1]; [5; 7]] [[]; []] 0 1) 0 = 3.
Proof.
  eexists. split; [reflexivity | ]. split; cbn; lra.
Qed.

(** The same parameters in a class that inherits the base method. *)
Example diagonal_mus_keeps_lag_term :
  exists mus,
    _compute_mus diagonal_1x2 [[1; 1]; [5; 7]] [[]; []] = Ok mus
    /\ nth 1 (nth 1 (nth 0 mus []) []) 0 = 3.
Proof.
  eexists. split; [reflexivity | ]. cbn. lra.
Qed.

Lemma compute_mus_independent_shape (m : model) (data input : mat) (mus : tensor3) :
  compute_mus_independent m data input = Ok mus ->
  has_shape3 mus (length data) (K m) (length (hd [] data)) = true.
Proof.
  unfold compute_mus_independent. cbv zeta.
  match goal with |- (if ?c then _ else _) = _ -> _ => destruct c eqn:Hc end;
    intros H; inversion H; subst. exact Hc.
Qed.

(** C9 (the code departs from the claim).  The override returns the time
    steps on the first axis, shape [(T, K, D)], where the base method
    returns the states there, shape [(K, T, D)]; the inherited [smooth]
    swaps the two axes of either, so on an independent instance it
    multiplies a [(T, K, 1)] array with a [(K, T, D)] array, which numpy
    cannot broadcast unless [T = K] or one of them is 1: the call raises. *)
Theorem smooth_independent_raises (m : model) (expectations data input : mat) :
  kind m = IndependentAutoRegressiveObservations ->
  (2 <= K m)%nat -> (2 <= length data)%nat -> length data <> K m ->
  length expectations = length data ->
  exists e, smooth m expectations data input = Raise e.
Proof.
  intros Hk HK HT Hne HE. unfold smooth, _compute_mus. rewrite Hk. simpl is_independent.
  cbv iota.
  destruct (compute_mus_independent m data input) as [mus | e] eqn:Hc; simpl;
    [ | eauto].
  apply compute_mus_independent_shape in Hc.
  unfold has_shape3 in Hc. apply andb_prop in Hc. destruct Hc as [H1 H2].
  apply Nat.eqb_eq in H1.
  assert (HY : length (swapaxes [] mus) = K m).
  { unfold swapaxes. rewrite length_map, length_seq.
    destruct mus as [ | mu0 mus]; simpl in *; [lia | ].
    apply andb_prop in H2. destruct H2 as [H2 _].
    unfold has_shape2 in H2. apply andb_prop in H2. destruct H2 as [H2 _].
    apply Nat.eqb_eq in H2. exact H2. }
  assert (HX : length (map (map (fun e : R => [e])) expectations) = length data)
    by (rewrite length_map; exact HE).
  unfold bmul3.
  generalize dependent (swapaxes [] mus).
  generalize dependent (map (map (fun e : R => [e])) expectations).
  intros X HX Y HY. unfold bzip at 1.
  destruct (Nat.eqb_spec (length X) (length Y)) as [Heq | _]; [lia | ].
  destruct X as [ | x1 [ | x2 X]]; simpl in HX; try lia.
  destruct Y as [ | y1 [ | y2 Y]]; simpl in HY; try lia.
  simpl. eauto.
Qed.

Lemma smooth_independent_raises_witness :
  exists e, smooth independent_2x1 [[1; 0]; [1; 0]; [0; 1]]
                   [[1]; [2]; [4]] [[]; []; []] = Raise e.
Proof.
  apply smooth_independent_raises;
    [reflexivity | simpl; lia | simpl; lia | simpl; lia | reflexivity].
Defined.

(** The two layouts side by side, and [smooth] on the two classes. *)
Example mus_layouts :
  (exists mus, _compute_mus gaussian_2x1 [[1]; [2]; [4]] [[]; []; []] = Ok mus
               /\ has_shape3 mus 2 3 1 = true)
  /\ (exists mus, _compute_mus independent_2x1 [[1]; [2]; [4]] [[]; []; []] = Ok mus
                  /\ has_shape3 mus 3 2 1 = true)
  /\ (exists s, smooth gaussian_2x1 [[1; 0]; [1; 0]; [0; 1]]
                       [[1]; [2]; [4]] [[]; []; []] = Ok s /\ length s = 3%nat)
  /\ smooth independent_2x1 [[1; 0]; [1; 0]; [0; 1]]
            [[1]; [2]; [4]] [[]; []; []] = Raise ValueError.
Proof.
  repeat split; try (eexists; split; reflexivity); reflexivity.
Qed.

(** ** Examples for C3 and C10 *)

(** Rewrites the comparisons of concrete reals in the goal to their
    values. *)
Ltac decide_R :=
  repeat match goal with
         | |- context [Rltb ?a ?b] =>
             first [ rewrite (proj2 (Rltb_true a b)) by lra
                   | rewrite (proj2 (Rltb_false a b)) by lra ]
         | |- context [Reqb ?a ?b] =>
             first [ rewrite (proj2 (Reqb_true a b)) by lra
                   | rewrite (proj2 (Reqb_false a b)) by lra ]
         end.

(** A sequence of two steps whose second row is masked out. *)
Definition masked_sequence : obs_seq :=
  {| sq_Ez := [[1]; [1]]; sq_data := [[1]; [2]]; sq_input := [[]; []];
     sq_mask := [[true]; [false]] |}.

(** C3, counterexample: on an independent instance an incomplete mask is
    not rejected as missing data.  [log_likelihoods] never looks at it and
    returns the likelihoods; [m_step] drops the sequence for the masked
    dimension and then fails in [np.concatenate] on the empty list, a
    [ValueError]. *)
Lemma independent_accepts_incomplete_mask :
  np_all (sq_mask masked_sequence) = false
  /\ (forall N : Numerics,
        exists ll,
          @log_likelihoods N independent_1x1 (sq_data masked_sequence)
            (sq_input masked_sequence) (sq_mask masked_sequence) = Ok ll)
  /\ (forall (N : Numerics) (rng : nat -> draw) (cfg : m_step_config),
        @m_step N rng [masked_sequence] cfg independent_1x1
        = Raised ValueError independent_1x1).
Proof.
  split; [reflexivity | ]. split.
  - intros N. eexists. reflexivity.
  - intros N rng cfg. reflexivity.
Qed.

Lemma incomplete_mask_rejected_witness :
  @log_likelihoods example_numerics gaussian_1x1 (sq_data masked_sequence)
    (sq_input masked_sequence) (sq_mask masked_sequence) = Raise MissingData
  /\ @m_step example_numerics (fun _ => {| choice := 0; randn_A := []; randn_V := [];
                                            randn_b := [] |})
       [masked_sequence] default_config gaussian_1x1
     = Raised MissingData gaussian_1x1.
Proof.
  destruct (@incomplete_mask_rejected example_numerics gaussian_1x1 eq_refl)
    as (H1 & H2 & _).
  split.
  - apply H1. reflexivity.
  - apply H2; reflexivity.
Defined.



(** ** C4: the E-step of the robust variants *)

Lemma nth_combine {A B : Type} (l : list A) (l' : list B) (n : nat) (a : A) (b : B) :
  (n < length l)%nat -> (n < length l')%nat ->
  nth n (combine l l') (a, b) = (nth n l a, nth n l' b).
Proof.
  revert l' n. induction l as [ | x l IH]; intros [ | y l'] [ | n] H1 H2;
    simpl in *; try lia; auto.
  apply IH; lia.
Qed.

Lemma nth_predicted (m : model) (x : mat) (t k : nat) :
  (t < length x)%nat -> (k < length (Afull m))%nat ->
  nth k (nth t (predicted m x) []) [] = matvec (nth k (Afull m) []) (nth t x []).
Proof.
  intros Ht Hk. unfold predicted.
  rewrite (@nth_map_in_range vec (list vec) _ _ _ []) by exact Ht.
  rewrite (@nth_map_in_range mat vec _ _ _ []) by exact Hk.
  reflexivity.
Qed.

Section EStep.
Context {N : Numerics}.


End EStep.


(** ** C2: the rows of the log-likelihood matrix *)

Ltac lia_len := simpl in *; lia.

Lemma compute_mus_k_length (lags D M : nat) (data input A : mat) (b : vec)
    (V : mat) (mu0 : vec) :
  (lags <= length data)%nat -> length input = length data ->
  length (compute_mus_k lags D M data input A b V mu0) = length data.
Proof.
  intros HT Hin. unfold compute_mus_k, vstack, ones, add_row.
  rewrite length_app, !length_map, repeat_length.
  assert (G : forall ls acc,
            (forall l, In l ls -> l < lags)%nat ->
            length acc = (length data - lags)%nat ->
            length (fold_left (fun acc l => madd acc
                        (dot_T (lagged lags l data) (cols (l * D) ((l + 1) * D) A)))
                      ls acc) = (length data - lags)%nat).
  { induction ls as [ | l ls IH]; intros acc Hls Hacc; simpl; [exact Hacc | ].
    apply IH; [intros; apply Hls; simpl; auto | ].
    unfold madd. rewrite map2_length, Hacc. unfold dot_T, lagged.
    rewrite length_map, slice_length by lia.
    assert (l < lags)%nat by (apply Hls; simpl; auto). lia. }
  rewrite G; [lia | intros l Hl; apply in_seq in Hl; lia | ].
  unfold dot_T, cols. rewrite !length_map, length_skipn. lia.
Qed.

Lemma compute_mus_base_lengths (m : model) (data input : mat) :
  well_shaped m = true -> is_independent (kind m) = false ->
  (lags m <= length data)%nat -> length input = length data ->
  length (compute_mus_base m data input) = K m
  /\ forall k, (k < K m)%nat ->
       length (nth k (compute_mus_base m data input) []) = length data.
Proof.
  intros Hws Hind HT Hin.
  assert (HAs : As m = _As m) by (unfold As; rewrite Hind; reflexivity).
  assert (HK : (0 < K m)%nat ->
           length (As m) = K m /\ length (bs m) = K m /\ length (Vs m) = K m
           /\ length (mu_init m) = K m).
  { intros H0. destruct (well_shaped_state m 0 Hws H0) as (_ & ? & _ & ? & _ & ? & _ & ? & _).
    rewrite HAs. auto. }
  destruct (Nat.eq_dec (K m) 0) as [H0 | H0].
  - split; [ | intros; lia].
    unfold compute_mus_base. rewrite length_map, !length_combine, HAs.
    unfold well_shaped in Hws. repeat rewrite andb_true_iff in Hws.
    destruct Hws as ((((((_ & _) & _) & H4) & _) & _) & _).
    apply Nat.eqb_eq in H4. lia_len.
  - destruct HK as (H1 & H2 & H3 & H4); [lia | ].
    split.
    + unfold compute_mus_base. rewrite length_map, !length_combine. lia_len.
    + intros k Hk. unfold compute_mus_base.
      match goal with
      | |- length (nth k (map ?f _) []) = _ =>
          rewrite (nth_zip4 f (As m) (bs m) (Vs m) (mu_init m) [] [] [] [] []
                     (K m) k H1 H2 H3 H4 Hk)
      end.
      apply compute_mus_k_length; assumption.
Qed.

(** The entries of a column-stacked block and of a broadcast block. *)
Lemma ll_columns_entries {P : Type} (f : vec -> vec -> P -> R)
    (X : mat) (mus : tensor3) (ps : list P) (dp : P) (n Kp : nat) :
  (0 < Kp)%nat -> length mus = Kp -> length ps = Kp -> length X = n ->
  (forall k, (k < Kp)%nat -> length (nth k mus []) = n) ->
  exists B,
    ll_columns f X mus ps = Ok B
    /\ length B = n
    /\ forall t, (t < n)%nat ->
         length (nth t B []) = Kp
         /\ forall k, (k < Kp)%nat ->
              nth k (nth t B []) 0
              = f (nth t X []) (nth t (nth k mus []) []) (nth k ps dp).
Proof.
  intros HK Hmus Hps HX Hrows. unfold ll_columns.
  match goal with
  | |- context [map ?g (combine mus ps)] => set (cs := map g (combine mus ps))
  end.
  assert (Hcs : length cs = Kp)
    by (unfold cs; rewrite length_map, length_combine; lia).
  assert (Hcol : forall k, (k < Kp)%nat ->
            nth k cs [] = map2 (fun x mu_t => f x mu_t (nth k ps dp)) X (nth k mus [])).
  { intros k Hk. unfold cs.
    rewrite (@nth_map_in_range (mat * P) vec _ _ _ ([], dp))
      by (rewrite length_combine; lia).
    rewrite nth_combine by lia. reflexivity. }
  assert (Hhd : length (hd [] cs) = n).
  { replace (hd [] cs) with (nth 0 cs []) by (destruct cs; reflexivity).
    rewrite Hcol by exact HK. rewrite map2_length, Hrows by exact HK. lia. }
  clearbody cs. unfold column_stack.
  destruct cs as [ | c0 cs']; [simpl in Hcs; lia | ].
  simpl hd in Hhd.
  eexists. split; [reflexivity | ]. split.
  - rewrite length_map, length_seq. exact Hhd.
  - intros t Ht.
    rewrite (@nth_map_in_range nat vec _ _ _ 0%nat) by (rewrite length_seq; lia).
    rewrite seq_nth by lia. rewrite Nat.add_0_l. split.
    + rewrite length_map. exact Hcs.
    + intros k Hk.
      rewrite (@nth_map_in_range vec R _ _ _ []) by (rewrite Hcs; exact Hk).
      rewrite Hcol by exact Hk.
      rewrite (nth_map2 (fun x mu_t => f x mu_t (nth k ps dp)) X (nth k mus []) t [] [] 0);
        [reflexivity | lia | rewrite Hrows by exact Hk; exact Ht].
Qed.

Lemma ll_broadcast_entries {P : Type} (f : vec -> vec -> P -> R)
    (X : mat) (mus : tensor3) (ps : list P) (dp : P) (n Kp : nat) :
  length X = n -> length mus = n -> length ps = Kp ->
  (forall t, (t < n)%nat -> length (nth t mus []) = Kp) ->
  length (ll_broadcast f X mus ps) = n
  /\ forall t, (t < n)%nat ->
       length (nth t (ll_broadcast f X mus ps) []) = Kp
       /\ forall k, (k < Kp)%nat ->
            nth k (nth t (ll_broadcast f X mus ps) []) 0
            = f (nth t X []) (nth k (nth t mus []) []) (nth k ps dp).
Proof.
  intros HX Hmus Hps Hrows. unfold ll_broadcast. split.
  - rewrite map2_length. lia.
  - intros t Ht.
    rewrite (@nth_map2 vec mat vec _ _ _ _ [] [] []) by lia.
    split.
    + rewrite map2_length, Hrows by exact Ht. lia.
    + intros k Hk.
      rewrite (nth_map2 (fun mu p => f (nth t X []) mu p) (nth t mus []) ps k [] dp 0);
        [reflexivity | rewrite Hrows by exact Ht; exact Hk | lia].
Qed.

(** Shapes as propositions. *)
Definition shape2 (X : mat) (n d : nat) : Prop :=
  length X = n /\ forall i, (i < n)%nat -> length (nth i X []) = d.
Definition shape3 (X : tensor3) (n k d : nat) : Prop :=
  length X = n /\ forall t, (t < n)%nat -> shape2 (nth t X []) k d.

Lemma has_shape2_spec (X : mat) (n d : nat) :
  has_shape2 X n d = true <-> shape2 X n d.
Proof.
  unfold has_shape2, shape2. rewrite andb_true_iff, Nat.eqb_eq, forallb_forall. split.
  - intros [H1 H2]. split; [exact H1 | ]. intros i Hi.
    apply Nat.eqb_eq. apply H2. apply nth_In. lia.
  - intros [H1 H2]. split; [exact H1 | ]. intros r Hr.
    destruct (In_nth _ _ [] Hr) as (i & Hi & <-). apply Nat.eqb_eq. apply H2. lia.
Qed.

Lemma has_shape3_spec (X : tensor3) (n k d : nat) :
  has_shape3 X n k d = true <-> shape3 X n k d.
Proof.
  unfold has_shape3, shape3. rewrite andb_true_iff, Nat.eqb_eq, forallb_forall. split.
  - intros [H1 H2]. split; [exact H1 | ]. intros t Ht.
    apply has_shape2_spec. apply H2. apply nth_In. lia.
  - intros [H1 H2]. split; [exact H1 | ]. intros r Hr.
    destruct (In_nth _ _ [] Hr) as (i & Hi & <-). apply has_shape2_spec. apply H2. lia.
Qed.

Lemma shape3_app (X Y : tensor3) (n n' k d : nat) :
  shape3 X n k d -> shape3 Y n' k d -> shape3 (X ++ Y) (n + n') k d.
Proof.
  intros [HX1 HX2] [HY1 HY2]. split; [rewrite length_app; lia | ].
  intros t Ht. destruct (Nat.lt_ge_cases t n) as [Hlt | Hge].
  - rewrite app_nth1 by lia. apply HX2. exact Hlt.
  - rewrite app_nth2 by lia. apply HY2. lia.
Qed.

Lemma shape2_map2 (f : vec -> vec -> vec) (X Y : mat) (n d : nat) :
  (forall u v, length u = d -> length v = d -> length (f u v) = d) ->
  shape2 X n d -> shape2 Y n d -> shape2 (map2 f X Y) n d.
Proof.
  intros Hf [HX1 HX2] [HY1 HY2]. split; [rewrite map2_length; lia | ].
  intros i Hi. rewrite (nth_map2 f X Y i [] [] []) by lia.
  apply Hf; [apply HX2 | apply HY2]; exact Hi.
Qed.

Lemma vmul_length (u v : vec) (d : nat) :
  length u = d -> length v = d -> length (vmul u v) = d.
Proof. intros Hu Hv. unfold vmul. rewrite map2_length. lia. Qed.

Lemma As_dense_shape (lags : nat) (A : tensor3) (k : nat) (n d : nat) :
  (0 < lags)%nat -> length A = n ->
  (forall k, (k < n)%nat -> length (nth k A []) = d) ->
  length (As_dense lags A) = n
  /\ forall k, (k < n)%nat -> length (nth k (As_dense lags A) []) = d.
Proof.
  intros Hl HA Hrows. unfold As_dense. split; [rewrite length_map; exact HA | ].
  intros k' Hk'.
  rewrite (@nth_map_in_range (list (list R)) (list (list R)) _ _ _ []) by lia.
  unfold hstack. destruct lags as [ | lags']; [lia | ].
  simpl seq. simpl map. cbv iota.
  rewrite length_map, length_seq. unfold diag.
  rewrite length_map, length_seq. unfold col. rewrite length_map.
  apply Hrows. exact Hk'.
Qed.

Lemma compute_mus_independent_ok (m : model) (data input : mat) :
  kind m = IndependentAutoRegressiveObservations ->
  well_shaped m = true ->
  has_shape2 data (length data) (D m) = true ->
  length input = length data ->
  (lags m <= length data)%nat ->
  exists mus,
    compute_mus_independent m data input = Ok mus
    /\ shape3 mus (length data) (K m) (D m).
Proof.
  intros Hk Hws Hdata Hin HT.
  apply has_shape2_spec in Hdata. destruct Hdata as [_ Hrows].
  assert (Hst : forall k, (k < K m)%nat ->
            length (mu_init m) = K m /\ length (nth k (mu_init m) []) = D m
            /\ length (bs m) = K m /\ length (nth k (bs m) []) = D m
            /\ length (_As m) = K m /\ length (nth k (_As m) []) = D m
            /\ length (Vs m) = K m /\ length (nth k (Vs m) []) = D m).
  { intros k Hk'. destruct (well_shaped_state m k Hws Hk') as (_ & H). exact H. }
  assert (Hl : (0 < lags m)%nat).
  { unfold well_shaped in Hws. repeat rewrite andb_true_iff in Hws.
    destruct Hws as ((((((H1 & _) & _) & _) & _) & _) & _).
    apply Nat.ltb_lt. exact H1. }
  assert (HK : length (mu_init m) = K m /\ length (bs m) = K m
               /\ length (_As m) = K m /\ length (Vs m) = K m).
  { unfold well_shaped in Hws. repeat rewrite andb_true_iff in Hws.
    destruct Hws as ((((((_ & H2) & H3) & H4) & _) & H6) & _).
    apply has_shape2_spec in H2, H3. apply Nat.eqb_eq in H4, H6.
    destruct H2, H3. auto. }
  destruct HK as (HKmu & HKb & HKA & HKV).
  assert (Hmu : shape2 (mu_init m) (K m) (D m))
    by (split; [exact HKmu | intros k Hk'; apply (Hst k Hk')]).
  assert (Hb : shape2 (bs m) (K m) (D m))
    by (split; [exact HKb | intros k Hk'; apply (Hst k Hk')]).
  assert (HAs : As m = As_dense (lags m) (_As m))
    by (unfold As; rewrite Hk; reflexivity).
  destruct (As_dense_shape (lags m) (_As m) 0 (K m) (D m) Hl HKA) as [HA1 HA2].
  { intros k Hk'. apply (Hst k Hk'). }
  assert (HD : length (hd [] data) = D m \/ length data = 0%nat).
  { destruct data as [ | r data']; [right; reflexivity | left].
    apply (Hrows 0%nat). simpl. lia. }
  set (n := (length data - lags m)%nat).
  assert (Hinit : shape3 (map (fun o => map2 vmul (mu_init m) o)
                              (ones3 (lags m) (K m) (D m))) (lags m) (K m) (D m)).
  { unfold ones3. split; [rewrite length_map, repeat_length; reflexivity | ].
    intros t Ht.
    rewrite (@nth_map_in_range (list (list R)) (list (list R)) _ _ _ [])
      by (rewrite repeat_length; exact Ht).
    rewrite nth_repeat_lt by exact Ht.
    apply shape2_map2; [intros; apply vmul_length; assumption | exact Hmu | ].
    unfold ones. split; [apply repeat_length | ].
    intros i Hi. rewrite nth_repeat_lt by exact Hi. apply repeat_length. }
  assert (Hstep : forall ls acc,
            (forall l, In l ls -> l < lags m)%nat ->
            shape3 acc n (K m) (D m) ->
            shape3 (fold_left
                      (fun mus l =>
                         map2 (fun mus_t x_t =>
                                 map2 (fun mu_tk A_k => vadd mu_tk (vmul (col l A_k) x_t))
                                      mus_t (As m))
                              mus (lagged (lags m) l data))
                      ls acc) n (K m) (D m)).
  { induction ls as [ | l ls IH]; intros acc Hls Hacc; simpl; [exact Hacc | ].
    apply IH; [intros; apply Hls; simpl; auto | ].
    assert (Hll : (l < lags m)%nat) by (apply Hls; simpl; auto).
    destruct Hacc as [Hacc1 Hacc2].
    assert (Hlag : length (lagged (lags m) l data) = n)
      by (unfold lagged; rewrite slice_length by lia; unfold n; lia).
    split; [rewrite map2_length; lia | ]. intros t Ht.
    rewrite (@nth_map2 (list (list R)) (list R) (list (list R)) _ _ _ _ [] [] [])
      by lia.
    destruct (Hacc2 t Ht) as [Ht1 Ht2].
    split; [rewrite map2_length, HAs; lia | ]. intros k Hk'.
    rewrite (@nth_map2 (list R) (list (list R)) (list R) _ _ _ _ [] [] [])
      by (rewrite ?HAs; lia).
    apply vadd_length; [apply Ht2; exact Hk' | ].
    apply vmul_length.
    - unfold col. rewrite length_map, HAs. apply HA2. exact Hk'.
    - unfold lagged. rewrite nth_slice by (unfold n in Ht; lia).
      apply Hrows. unfold n in Ht. lia. }
  assert (Har : shape3
            (map (fun mus_t => map2 vadd mus_t (bs m))
               (fold_left
                  (fun mus l =>
                     map2 (fun mus_t x_t =>
                             map2 (fun mu_tk A_k => vadd mu_tk (vmul (col l A_k) x_t))
                                  mus_t (As m))
                          mus (lagged (lags m) l data))
                  (seq 0 (lags m))
                  (map (fun u => map (fun V => matvec V u) (Vs m))
                       (cols 0 (M m) (skipn (lags m) input)))))
            n (K m) (D m)).
  { match goal with
    | |- shape3 (map _ ?acc) _ _ _ =>
        assert (Hacc : shape3 acc n (K m) (D m))
    end.
    { apply Hstep; [intros l Hl'; apply in_seq in Hl'; lia | ].
      split; [unfold cols; rewrite !length_map, length_skipn; unfold n; lia | ].
      intros t Ht.
      rewrite (@nth_map_in_range (list R) (list (list R)) _ _ _ [])
        by (unfold cols; rewrite length_map, length_skipn; unfold n in Ht; lia).
      split; [rewrite length_map; exact HKV | ]. intros k Hk'.
      rewrite (@nth_map_in_range (list (list R)) (list R) _ _ _ []) by lia.
      rewrite matvec_length. apply (Hst k Hk'). }
    destruct Hacc as [Hacc1 Hacc2].
    split; [rewrite length_map; exact Hacc1 | ]. intros t Ht.
    rewrite (@nth_map_in_range (list (list R)) (list (list R)) _ _ _ []) by lia.
    apply shape2_map2; [intros; apply vadd_length; assumption | apply Hacc2; exact Ht | exact Hb]. }
  pose proof (shape3_app _ _ _ _ _ _ Hinit Har) as Hall.
  replace (lags m + n)%nat with (length data) in Hall by (unfold n; lia).
  unfold compute_mus_independent. cbv zeta. unfold vstack.
  destruct HD as [HD | H0].
  - rewrite HD. rewrite (proj2 (has_shape3_spec _ _ _ _) Hall).
    eexists. split; [reflexivity | exact Hall].
  - lia.
Qed.

Lemma swapaxes_entries (X : tensor3) (Kp T : nat) :
  (0 < Kp)%nat -> length X = Kp ->
  (forall k, (k < Kp)%nat -> length (nth k X []) = T) ->
  length (swapaxes [] X) = T
  /\ forall t, (t < T)%nat ->
       length (nth t (swapaxes [] X) []) = Kp
       /\ forall k, (k < Kp)%nat ->
            nth k (nth t (swapaxes [] X) []) [] = nth t (nth k X []) [].
Proof.
  intros HK HX Hrows. unfold swapaxes.
  assert (Hhd : length (hd [] X) = T).
  { replace (hd [] X) with (nth 0 X []) by (destruct X; reflexivity).
    apply Hrows. exact HK. }
  rewrite Hhd. split; [rewrite length_map, length_seq; reflexivity | ].
  intros t Ht.
  rewrite (@nth_map_in_range nat (list (list R)) _ _ _ 0%nat)
    by (rewrite length_seq; exact Ht).
  rewrite seq_nth by exact Ht. rewrite Nat.add_0_l.
  split; [rewrite length_map; exact HX | ].
  intros k Hk.
  rewrite (@nth_map_in_range (list (list R)) (list R) _ _ _ []) by lia.
  reflexivity.
Qed.

(** The two blocks of a likelihood built from state-major means; the
    steady block may use another density and other parameters. *)
Lemma state_major_blocks {P Q : Type} (f : vec -> vec -> P -> R) (g : vec -> vec -> Q -> R)
    (data : mat) (mus : tensor3) (ps : list P) (qs : list Q) (dp : P) (dq : Q)
    (L Kp : nat) :
  (0 < Kp)%nat -> length mus = Kp -> length ps = Kp -> length qs = Kp ->
  (forall k, (k < Kp)%nat -> length (nth k mus []) = length data) ->
  (L <= length data)%nat ->
  exists B0 B1,
    ll_columns f (firstn L data) (map (firstn L) mus) ps = Ok B0
    /\ ll_columns g (skipn L data) (map (skipn L) mus) qs = Ok B1
    /\ length (row_stack B0 B1) = length data
    /\ forall t, (t < length data)%nat ->
         length (nth t (row_stack B0 B1) []) = Kp
         /\ forall k, (k < Kp)%nat ->
              nth k (nth t (row_stack B0 B1) []) 0
              = if (t <? L)%nat
                then f (nth t data []) (nth t (nth k mus []) []) (nth k ps dp)
                else g (nth t data []) (nth t (nth k mus []) []) (nth k qs dq).
Proof.
  intros HK Hmus Hps Hqs Hrows HL.
  destruct (ll_columns_entries f (firstn L data) (map (firstn L) mus) ps dp L Kp)
    as (B0 & E0 & Hl0 & H0); try assumption.
  { rewrite length_map. exact Hmus. }
  { rewrite length_firstn. lia. }
  { intros k Hk.
    rewrite (@nth_map_in_range (list (list R)) (list (list R)) _ _ _ []) by lia.
    rewrite length_firstn, Hrows by exact Hk. lia. }
  destruct (ll_columns_entries g (skipn L data) (map (skipn L) mus) qs dq
              (length data - L) Kp)
    as (B1 & E1 & Hl1 & H1); try assumption.
  { rewrite length_map. exact Hmus. }
  { rewrite length_skipn. reflexivity. }
  { intros k Hk.
    rewrite (@nth_map_in_range (list (list R)) (list (list R)) _ _ _ []) by lia.
    rewrite length_skipn, Hrows by exact Hk. reflexivity. }
  exists B0, B1. split; [exact E0 | ]. split; [exact E1 | ].
  unfold row_stack. split; [rewrite length_app; lia | ].
  intros t Ht. destruct (Nat.ltb_spec t L) as [Hlt | Hge].
  - rewrite app_nth1 by lia. destruct (H0 t Hlt) as [Ha Hb]. split; [exact Ha | ].
    intros k Hk. rewrite Hb by exact Hk.
    rewrite (@nth_map_in_range (list (list R)) (list (list R)) _ _ _ []) by lia.
    rewrite !nth_firstn. destruct (Nat.ltb_spec t L); [reflexivity | lia].
  - rewrite app_nth2 by lia. rewrite Hl0.
    destruct (H1 (t - L)%nat) as [Ha Hb]; [lia | ]. split; [exact Ha | ].
    intros k Hk. rewrite Hb by exact Hk.
    rewrite (@nth_map_in_range (list (list R)) (list (list R)) _ _ _ []) by lia.
    rewrite !nth_skipn. replace (L + (t - L))%nat with t by lia. reflexivity.
Qed.

(** The two blocks of a likelihood built from time-major means; the steady
    block may use another density and other parameters. *)
Lemma time_major_blocks {P Q : Type} (f : vec -> vec -> P -> R) (g : vec -> vec -> Q -> R)
    (data : mat) (mus : tensor3) (ps : list P) (qs : list Q) (dp : P) (dq : Q)
    (L Kp : nat) :
  length mus = length data -> length ps = Kp -> length qs = Kp ->
  (forall t, (t < length data)%nat -> length (nth t mus []) = Kp) ->
  (L <= length data)%nat ->
  let B := row_stack (ll_broadcast f (firstn L data) (firstn L mus) ps)
                     (ll_broadcast g (skipn L data) (skipn L mus) qs) in
  length B = length data
  /\ forall t, (t < length data)%nat ->
       length (nth t B []) = Kp
       /\ forall k, (k < Kp)%nat ->
            nth k (nth t B []) 0
            = if (t <? L)%nat
              then f (nth t data []) (nth k (nth t mus []) []) (nth k ps dp)
              else g (nth t data []) (nth k (nth t mus []) []) (nth k qs dq).
Proof.
  intros Hmus Hps Hqs Hrows HL B.
  destruct (ll_broadcast_entries f (firstn L data) (firstn L mus) ps dp L Kp)
    as (Hl0 & H0); try assumption.
  { rewrite length_firstn. lia. }
  { rewrite length_firstn. lia. }
  { intros t Ht. rewrite nth_firstn. destruct (Nat.ltb_spec t L); [ | lia].
    apply Hrows. lia. }
  destruct (ll_broadcast_entries g (skipn L data) (skipn L mus) qs dq
              (length data - L) Kp)
    as (Hl1 & H1); try assumption.
  { rewrite length_skipn. reflexivity. }
  { rewrite length_skipn. lia. }
  { intros t Ht. rewrite nth_skipn. apply Hrows. lia. }
  unfold B, row_stack. split; [rewrite length_app; lia | ].
  intros t Ht. destruct (Nat.ltb_spec t L) as [Hlt | Hge].
  - rewrite app_nth1 by lia. destruct (H0 t Hlt) as [Ha Hb]. split; [exact Ha | ].
    intros k Hk. rewrite Hb by exact Hk.
    rewrite !nth_firstn. destruct (Nat.ltb_spec t L); [reflexivity | lia].
  - rewrite app_nth2 by lia. rewrite Hl0.
    destruct (H1 (t - L)%nat) as [Ha Hb]; [lia | ]. split; [exact Ha | ].
    intros k Hk. rewrite Hb by exact Hk.
    rewrite !nth_skipn. replace (L + (t - L))%nat with t by lia. reflexivity.
Qed.

(** The shapes the constructors give the parameters: the lag coefficients
    (one row of [lags] coefficients per dimension in the independent class),
    the input weights, and the noise attributes of the class. *)
Definition coherent (m : model) : bool :=
  has_shape3 (_As m) (K m) (D m)
    (if is_independent (kind m) then lags m else D m * lags m)
  && has_shape3 (Vs m) (K m) (D m) (M m)
  && match kind m, noise_params m, nus_params m with
     | AutoRegressiveObservations, SqrtSigmas s0 s, NoNus =>
         has_shape3 s0 (K m) (D m) (D m) && has_shape3 s (K m) (D m) (D m)
     | AutoRegressiveDiagonalNoiseObservations, LogSigmasq l0 l, NoNus =>
         has_shape2 l0 (K m) (D m) && has_shape2 l (K m) (D m)
     | IndependentAutoRegressiveObservations, LogSigmasq l0 l, NoNus =>
         has_shape2 l0 (K m) (D m) && has_shape2 l (K m) (D m)
     | RobustAutoRegressiveObservations, SqrtSigmas s0 s, LogNus nu =>
         has_shape3 s0 (K m) (D m) (D m) && has_shape3 s (K m) (D m) (D m)
         && (length nu =? K m)%nat
     | RobustAutoRegressiveDiagonalNoiseObservations, LogSigmasq l0 l, LogNus nu =>
         has_shape2 l0 (K m) (D m) && has_shape2 l (K m) (D m)
         && (length nu =? K m)%nat
     | AltRobustAutoRegressiveDiagonalNoiseObservations, LogSigmasq l0 l, LogNusPerDim nu =>
         has_shape2 l0 (K m) (D m) && has_shape2 l (K m) (D m)
         && has_shape2 nu (K m) (D m)
     | _, _, _ => false
     end.

Lemma has_shape2_length (X : mat) (n d : nat) :
  has_shape2 X n d = true -> length X = n.
Proof.
  unfold has_shape2. intros H. apply andb_true_iff in H. destruct H as [H _].
  apply Nat.eqb_eq. exact H.
Qed.

Lemma has_shape3_length (X : tensor3) (n k d : nat) :
  has_shape3 X n k d = true -> length X = n.
Proof.
  unfold has_shape3. intros H. apply andb_true_iff in H. destruct H as [H _].
  apply Nat.eqb_eq. exact H.
Qed.

(** The mean of state [k] at time [t] in what [_compute_mus] returned, in
    the layout of the class. *)
Definition mean_at (m : model) (mus : tensor3) (t k : nat) : vec :=
  if is_independent (kind m) then nth k (nth t mus []) [] else nth t (nth k mus []) [].

Section LikelihoodRows.
Context {N : Numerics}.

(** Entry [(t, k)] as the claim describes it: the density of the class at
    [x] around [mu], with the initial noise parameters of state [k] before
    [lags] and the steady-state ones (and the degrees of freedom, in the
    robust classes) from [lags] on. *)
Definition ll_entry (m : model) (x mu : vec) (t k : nat) : result R :=
  if (t <? lags m)%nat then
    match kind m with
    | AutoRegressiveObservations
    | RobustAutoRegressiveObservations
    | RobustAutoRegressiveDiagonalNoiseObservations =>
        S0 <- Sigmas_init m ;; Ok (multivariate_normal_logpdf x mu (nth k S0 []))
    | _ =>
        s0 <- sigmasq_init m ;; Ok (diagonal_gaussian_logpdf x mu (nth k s0 []))
    end
  else
    match kind m with
    | AutoRegressiveObservations =>
        S1 <- Sigmas m ;; Ok (multivariate_normal_logpdf x mu (nth k S1 []))
    | AutoRegressiveDiagonalNoiseObservations
    | IndependentAutoRegressiveObservations =>
        s1 <- sigmasq m ;; Ok (diagonal_gaussian_logpdf x mu (nth k s1 []))
    | RobustAutoRegressiveObservations
    | RobustAutoRegressiveDiagonalNoiseObservations =>
        S1 <- Sigmas m ;; nu <- nus m ;;
        Ok (multivariate_studentst_logpdf x mu (nth k S1 []) (nth k nu 0))
    | AltRobustAutoRegressiveDiagonalNoiseObservations =>
        s1 <- sigmasq m ;; nu <- nus_per_dim m ;;
        Ok (independent_studentst_logpdf x mu (nth k s1 []) (nth k nu []))
    end.

(** What the theorem promises of a likelihood matrix [ll]. *)
Definition rows_as_claimed (m : model) (data : mat) (mus : tensor3) (ll : mat) : Prop :=
  length ll = length data
  /\ forall t, (t < length data)%nat ->
       length (nth t ll []) = K m
       /\ forall k, (k < K m)%nat ->
            ll_entry m (nth t data []) (mean_at m mus t k) t k
            = Ok (nth k (nth t ll []) 0).

Lemma state_major_rows {P Q : Type} (f : vec -> vec -> P -> R) (g : vec -> vec -> Q -> R)
    (m : model) (data input : mat) (ps : list P) (qs : list Q) (dp : P) (dq : Q) :
  well_shaped m = true -> is_independent (kind m) = false -> (0 < K m)%nat ->
  length input = length data -> (lags m <= length data)%nat ->
  length ps = K m -> length qs = K m ->
  (forall t k, (t < length data)%nat -> (k < K m)%nat ->
     ll_entry m (nth t data []) (nth t (nth k (compute_mus_base m data input) []) []) t k
     = Ok (if (t <? lags m)%nat
           then f (nth t data []) (nth t (nth k (compute_mus_base m data input) []) [])
                  (nth k ps dp)
           else g (nth t data []) (nth t (nth k (compute_mus_base m data input) []) [])
                  (nth k qs dq))) ->
  exists B0 B1,
    ll_columns f (firstn (lags m) data)
      (map (firstn (lags m)) (compute_mus_base m data input)) ps = Ok B0
    /\ ll_columns g (skipn (lags m) data)
         (map (skipn (lags m)) (compute_mus_base m data input)) qs = Ok B1
    /\ rows_as_claimed m data (compute_mus_base m data input) (row_stack B0 B1).
Proof.
  intros Hws Hind HK Hin HT Hps Hqs Hentry.
  destruct (compute_mus_base_lengths m data input Hws Hind HT Hin) as [Hm1 Hm2].
  destruct (state_major_blocks f g data (compute_mus_base m data input) ps qs dp dq
              (lags m) (K m) HK Hm1 Hps Hqs Hm2 HT)
    as (B0 & B1 & E0 & E1 & Hlen & Hrows).
  exists B0, B1. split; [exact E0 | ]. split; [exact E1 | ].
  split; [exact Hlen | ]. intros t Ht.
  destruct (Hrows t Ht) as [Ha Hb]. split; [exact Ha | ].
  intros k Hk. unfold mean_at. rewrite Hind.
  rewrite Hentry by assumption. rewrite Hb by exact Hk. reflexivity.
Qed.

End LikelihoodRows.

Lemma time_major_rows {N : Numerics} {P Q : Type}
    (f : vec -> vec -> P -> R) (g : vec -> vec -> Q -> R)
    (m : model) (data : mat) (mus : tensor3) (ps : list P) (qs : list Q) (dp : P) (dq : Q)
    (mean : nat -> nat -> vec) :
  (lags m <= length data)%nat ->
  length mus = length data -> length ps = K m -> length qs = K m ->
  (forall t, (t < length data)%nat ->
     length (nth t mus []) = K m
     /\ forall k, (k < K m)%nat -> nth k (nth t mus []) [] = mean t k) ->
  (forall t k, (t < length data)%nat -> (k < K m)%nat ->
     ll_entry m (nth t data []) (mean t k) t k
     = Ok (if (t <? lags m)%nat
           then f (nth t data []) (mean t k) (nth k ps dp)
           else g (nth t data []) (mean t k) (nth k qs dq))) ->
  let B := row_stack (ll_broadcast f (firstn (lags m) data) (firstn (lags m) mus) ps)
                     (ll_broadcast g (skipn (lags m) data) (skipn (lags m) mus) qs) in
  length B = length data
  /\ forall t, (t < length data)%nat ->
       length (nth t B []) = K m
       /\ forall k, (k < K m)%nat ->
            ll_entry m (nth t data []) (mean t k) t k = Ok (nth k (nth t B []) 0).
Proof.
  intros HT Hmus Hps Hqs Hrows Hentry B.
  destruct (time_major_blocks f g data mus ps qs dp dq (lags m) (K m) Hmus Hps Hqs)
    as [Hlen Hb]; [intros t Ht; apply (Hrows t Ht) | exact HT | ].
  fold B in Hlen, Hb. split; [exact Hlen | ].
  intros t Ht. destruct (Hb t Ht) as [Ha Hc]. split; [exact Ha | ].
  intros k Hk. rewrite Hentry by assumption. rewrite (Hc k Hk).
  destruct (Hrows t Ht) as [_ Hmean]. rewrite (Hmean k Hk). reflexivity.
Qed.

Ltac split_lengths :=
  repeat match goal with
  | H : (_ && _)%bool = true |- _ => apply andb_true_iff in H; destruct H
  | H : (_ =? _)%nat = true |- _ => apply Nat.eqb_eq in H
  | H : has_shape2 _ _ _ = true |- _ => apply has_shape2_length in H
  | H : has_shape3 _ _ _ _ = true |- _ => apply has_shape3_length in H
  end.

(** C2.  For a sequence of length [T >= lags] with an all-true mask, on an
    instance of any of the six classes whose parameters have the shapes the
    constructor gives them, [log_likelihoods] returns a matrix with exactly
    [T] rows and [K] columns; entry [(t, k)] is the density of the class at
    [data[t]] around the mean that [_compute_mus] gives state [k] at time
    [t] (see [compute_mus_base_spec] for that mean), with the initial noise parameters of state [k] ([Sigmas_init] or
    [sigmasq_init]) in rows [0 .. lags-1] and the steady-state ones
    ([Sigmas] or [sigmasq], with the degrees of freedom in the robust
    classes) in rows [lags .. T-1]. *)
Theorem log_likelihoods_rows {N : Numerics} (m : model) (data input : mat)
    (mask : list (list bool)) :
  well_shaped m = true -> coherent m = true -> (0 < K m)%nat ->
  has_shape2 data (length data) (D m) = true ->
  has_shape2 input (length data) (M m) = true ->
  (lags m <= length data)%nat -> np_all mask = true ->
  exists mus ll,
    _compute_mus m data input = Ok mus
    /\ log_likelihoods m data input mask = Ok ll
    /\ length ll = length data
    /\ forall t, (t < length data)%nat ->
         length (nth t ll []) = K m
         /\ forall k, (k < K m)%nat ->
              ll_entry m (nth t data []) (mean_at m mus t k) t k
              = Ok (nth k (nth t ll []) 0).
Proof.
  intros Hws Hco HK Hdata Hin HT Hmask.
  apply has_shape2_length in Hin.
  unfold coherent in Hco.
  apply andb_true_iff in Hco. destruct Hco as [_ Hco].
  destruct (kind m) eqn:Hk; destruct (noise_params m) as [s0 s | l0 l] eqn:Hn;
    destruct (nus_params m) as [ | nu | nu] eqn:Hnu; try discriminate Hco;
    revert Hdata; split_lengths; intros Hdata.
  - (* AutoRegressiveObservations *)
    assert (Hind : is_independent (kind m) = false) by (rewrite Hk; reflexivity).
    assert (HS0 : Sigmas_init m = Ok (map matmul_T s0))
      by (unfold Sigmas_init, get_sqrt_Sigmas_init; rewrite Hk, Hn; reflexivity).
    assert (HS1 : Sigmas m = Ok (map matmul_T s))
      by (unfold Sigmas, get_sqrt_Sigmas; rewrite Hk, Hn; reflexivity).
    destruct (state_major_rows multivariate_normal_logpdf multivariate_normal_logpdf
                m data input (map matmul_T s0) (map matmul_T s) [] [])
      as (B0 & B1 & E0 & E1 & Hrows); try assumption;
      try (rewrite length_map; assumption).
    { intros t k Ht Hkk. unfold ll_entry. rewrite Hk, HS0, HS1.
      destruct (t <? lags m)%nat; reflexivity. }
    exists (compute_mus_base m data input), (row_stack B0 B1).
    split; [unfold _compute_mus; rewrite Hind; reflexivity | ].
    split; [ | exact Hrows].
    unfold log_likelihoods. rewrite Hk. unfold log_likelihoods_full.
    rewrite Hmask. cbn [negb]. unfold _compute_mus. rewrite Hind. cbn [bind].
    rewrite HS0. cbn [bind]. rewrite E0. cbn [bind]. rewrite HS1. cbn [bind].
    rewrite E1. reflexivity.
  - (* AutoRegressiveDiagonalNoiseObservations *)
    assert (Hind : is_independent (kind m) = false) by (rewrite Hk; reflexivity).
    assert (HS0 : sigmasq_init m = Ok (map (map exp) l0))
      by (unfold sigmasq_init, get_log_sigmasq_init; rewrite Hk, Hn; reflexivity).
    assert (HS1 : sigmasq m = Ok (map (map exp) l))
      by (unfold sigmasq, get_log_sigmasq; rewrite Hk, Hn; reflexivity).
    destruct (state_major_rows diagonal_gaussian_logpdf diagonal_gaussian_logpdf
                m data input (map (map exp) l0) (map (map exp) l) [] [])
      as (B0 & B1 & E0 & E1 & Hrows); try assumption;
      try (rewrite length_map; assumption).
    { intros t k Ht Hkk. unfold ll_entry. rewrite Hk, HS0, HS1.
      destruct (t <? lags m)%nat; reflexivity. }
    exists (compute_mus_base m data input), (row_stack B0 B1).
    split; [unfold _compute_mus; rewrite Hind; reflexivity | ].
    split; [ | exact Hrows].
    unfold log_likelihoods. rewrite Hk. unfold log_likelihoods_diagonal.
    rewrite Hmask. cbn [negb]. unfold _compute_mus. rewrite Hind. cbn [bind].
    rewrite HS0. cbn [bind]. rewrite E0. cbn [bind]. rewrite HS1. cbn [bind].
    rewrite E1. reflexivity.
  - (* IndependentAutoRegressiveObservations *)
    assert (Hind : is_independent (kind m) = true) by (rewrite Hk; reflexivity).
    assert (HS0 : sigmasq_init m = Ok (map (map exp) l0))
      by (unfold sigmasq_init, get_log_sigmasq_init; rewrite Hk, Hn; reflexivity).
    assert (HS1 : sigmasq m = Ok (map (map exp) l))
      by (unfold sigmasq, get_log_sigmasq; rewrite Hk, Hn; reflexivity).
    destruct (compute_mus_independent_ok m data input Hk Hws Hdata Hin HT)
      as (mus & Emus & Hshape).
    destruct Hshape as [Hlen Hshape].
    exists mus,
      (row_stack (ll_broadcast diagonal_gaussian_logpdf (firstn (lags m) data)
                    (firstn (lags m) mus) (map (map exp) l0))
                 (ll_broadcast diagonal_gaussian_logpdf (skipn (lags m) data)
                    (skipn (lags m) mus) (map (map exp) l))).
    split; [unfold _compute_mus; rewrite Hind; exact Emus | ].
    split.
    { unfold log_likelihoods. rewrite Hk. unfold log_likelihoods_independent.
      unfold _compute_mus. rewrite Hind, Emus. cbn [bind].
      rewrite HS0. cbn [bind]. rewrite HS1. reflexivity. }
    apply (time_major_rows diagonal_gaussian_logpdf diagonal_gaussian_logpdf
             m data mus (map (map exp) l0) (map (map exp) l) [] []
             (mean_at m mus)); try assumption; try (rewrite length_map; assumption).
    { intros t Ht. split; [apply (Hshape t Ht) | ].
      intros k Hkk. unfold mean_at. rewrite Hind. reflexivity. }
    { intros t k Ht Hkk. unfold ll_entry. rewrite Hk, HS0, HS1.
      destruct (t <? lags m)%nat; reflexivity. }
  - (* RobustAutoRegressiveObservations *)
    assert (Hind : is_independent (kind m) = false) by (rewrite Hk; reflexivity).
    assert (HS0 : Sigmas_init m = Ok (map matmul_T s0))
      by (unfold Sigmas_init, get_sqrt_Sigmas_init; rewrite Hk, Hn; reflexivity).
    assert (HS1 : Sigmas m = Ok (map matmul_T s))
      by (unfold Sigmas, get_sqrt_Sigmas; rewrite Hk, Hn; reflexivity).
    assert (Hnus : nus m = Ok (map exp nu))
      by (unfold nus; rewrite Hnu; reflexivity).
    destruct (state_major_rows multivariate_normal_logpdf
                (fun x mu '(Sigma, nu_k) => multivariate_studentst_logpdf x mu Sigma nu_k)
                m data input (map matmul_T s0)
                (combine (map matmul_T s) (map exp nu)) [] ([], 0))
      as (B0 & B1 & E0 & E1 & Hrows); try assumption;
      try (rewrite length_map; assumption).
    { rewrite length_combine, !length_map. lia. }
    { intros t k Ht Hkk. unfold ll_entry. rewrite Hk, HS0, HS1, Hnus.
      rewrite combine_nth by (rewrite !length_map; lia).
      destruct (t <? lags m)%nat; reflexivity. }
    exists (compute_mus_base m data input), (row_stack B0 B1).
    split; [unfold _compute_mus; rewrite Hind; reflexivity | ].
    split; [ | exact Hrows].
    unfold log_likelihoods. rewrite Hk. unfold log_likelihoods_robust.
    rewrite Hmask. cbn [negb]. unfold _compute_mus. rewrite Hind. cbn [bind].
    rewrite HS0. cbn [bind]. rewrite E0. cbn [bind]. rewrite HS1. cbn [bind].
    rewrite Hnus. cbn [bind]. rewrite E1. reflexivity.
  - (* RobustAutoRegressiveDiagonalNoiseObservations *)
    assert (Hind : is_independent (kind m) = false) by (rewrite Hk; reflexivity).
    assert (HS0 : Sigmas_init m = Ok (map (fun log_s => diag (map exp log_s)) l0))
      by (unfold Sigmas_init, get_log_sigmasq_init; rewrite Hk, Hn; reflexivity).
    assert (HS1 : Sigmas m = Ok (map (fun log_s => diag (map exp log_s)) l))
      by (unfold Sigmas, get_log_sigmasq; rewrite Hk, Hn; reflexivity).
    assert (Hnus : nus m = Ok (map exp nu))
      by (unfold nus; rewrite Hnu; reflexivity).
    destruct (state_major_rows multivariate_normal_logpdf
                (fun x mu '(Sigma, nu_k) => multivariate_studentst_logpdf x mu Sigma nu_k)
                m data input (map (fun log_s => diag (map exp log_s)) l0)
                (combine (map (fun log_s => diag (map exp log_s)) l) (map exp nu))
                [] ([], 0))
      as (B0 & B1 & E0 & E1 & Hrows); try assumption;
      try (rewrite length_map; assumption).
    { rewrite length_combine, !length_map. lia. }
    { intros t k Ht Hkk. unfold ll_entry. rewrite Hk, HS0, HS1, Hnus.
      rewrite combine_nth by (rewrite !length_map; lia).
      destruct (t <? lags m)%nat; reflexivity. }
    exists (compute_mus_base m data input), (row_stack B0 B1).
    split; [unfold _compute_mus; rewrite Hind; reflexivity | ].
    split; [ | exact Hrows].
    unfold log_likelihoods. rewrite Hk. unfold log_likelihoods_robust.
    rewrite Hmask. cbn [negb]. unfold _compute_mus. rewrite Hind. cbn [bind].
    rewrite HS0. cbn [bind]. rewrite E0. cbn [bind]. rewrite HS1. cbn [bind].
    rewrite Hnus. cbn [bind]. rewrite E1. reflexivity.
  - (* AltRobustAutoRegressiveDiagonalNoiseObservations *)
    assert (Hind : is_independent (kind m) = false) by (rewrite Hk; reflexivity).
    assert (HS0 : sigmasq_init m = Ok (map (map exp) l0))
      by (unfold sigmasq_init, get_log_sigmasq_init; rewrite Hk, Hn; reflexivity).
    assert (HS1 : sigmasq m = Ok (map (map exp) l))
      by (unfold sigmasq, get_log_sigmasq; rewrite Hk, Hn; reflexivity).
    assert (Hnus : nus_per_dim m = Ok (map (map exp) nu))
      by (unfold nus_per_dim; rewrite Hnu; reflexivity).
    destruct (compute_mus_base_lengths m data input Hws Hind HT Hin) as [Hm1 Hm2].
    destruct (swapaxes_entries (compute_mus_base m data input) (K m) (length data)
                HK Hm1 Hm2) as [Hsw1 Hsw2].
    exists (compute_mus_base m data input),
      (row_stack
         (ll_broadcast diagonal_gaussian_logpdf (firstn (lags m) data)
            (firstn (lags m) (swapaxes [] (compute_mus_base m data input)))
            (map (map exp) l0))
         (ll_broadcast
            (fun x mu '(s_k, nu_k) => independent_studentst_logpdf x mu s_k nu_k)
            (skipn (lags m) data)
            (skipn (lags m) (swapaxes [] (compute_mus_base m data input)))
            (combine (map (map exp) l) (map (map exp) nu)))).
    split; [unfold _compute_mus; rewrite Hind; reflexivity | ].
    split.
    { unfold log_likelihoods. rewrite Hk. unfold log_likelihoods_alt.
      rewrite Hmask. cbn [negb]. unfold _compute_mus. rewrite Hind. cbn [bind].
      rewrite HS0. cbn [bind]. rewrite HS1. cbn [bind]. rewrite Hnus. reflexivity. }
    apply (time_major_rows diagonal_gaussian_logpdf
             (fun x mu '(s_k, nu_k) => independent_studentst_logpdf x mu s_k nu_k)
             m data (swapaxes [] (compute_mus_base m data input))
             (map (map exp) l0) (combine (map (map exp) l) (map (map exp) nu))
             [] ([], [])
             (mean_at m (compute_mus_base m data input)));
      try assumption; try (rewrite length_map; assumption).
    { rewrite length_combine, !length_map. lia. }
    { intros t Ht. destruct (Hsw2 t Ht) as [Ha Hb]. split; [exact Ha | ].
      intros k Hkk. unfold mean_at. rewrite Hind. apply Hb. exact Hkk. }
    { intros t k Ht Hkk. unfold ll_entry. rewrite Hk, HS0, HS1, Hnus.
      rewrite combine_nth by (rewrite !length_map; lia).
      destruct (t <? lags m)%nat; reflexivity. }
Qed.

Lemma log_likelihoods_rows_witness :
  exists mus ll,
    _compute_mus robust_diagonal_2x1 [[1]; [2]; [4]] [[]; []; []] = Ok mus
    /\ @log_likelihoods example_numerics robust_diagonal_2x1 [[1]; [2]; [4]]
         [[]; []; []] [[true]; [true]; [true]] = Ok ll
    /\ length ll = 3%nat
    /\ forall t, (t < 3)%nat ->
         length (nth t ll []) = 2%nat
         /\ forall k, (k < 2)%nat ->
              @ll_entry example_numerics robust_diagonal_2x1
                (nth t [[1]; [2]; [4]] []) (mean_at robust_diagonal_2x1 mus t k) t k
              = Ok (nth k (nth t ll []) 0).
Proof.
  apply (@log_likelihoods_rows example_numerics robust_diagonal_2x1
           [[1]; [2]; [4]] [[]; []; []] [[true]; [true]; [true]]);
    [reflexivity | reflexivity | simpl; lia | reflexivity | reflexivity
    | simpl; lia | reflexivity].
Defined.

(** ** C6: states without responsibility in the M-step *)



Lemma collect_Ok (lags M : nat) (seqs : list obs_seq) (xyz : list (mat * mat * mat)) :
  collect lags M seqs = Ok xyz ->
  xyz = map (fun s => (design lags M (sq_data s) (sq_input s),
                       skipn lags (sq_data s), skipn lags (sq_Ez s))) seqs.
Proof.
  revert xyz. induction seqs as [ | s seqs IH]; simpl; intros xyz H.
  - inversion H. reflexivity.
  - destruct (negb (np_all (sq_mask s))); [discriminate | ].
    destruct (length (sq_data s) <? lags)%nat; [discriminate | ].
    destruct (collect lags M seqs) as [r | e]; simpl in H; [ | discriminate].
    inversion H. f_equal. apply IH. reflexivity.
Qed.














Section RobustUnused.
Context {N : Numerics}.



End RobustUnused.



(** *** The fallback of the Gaussian classes *)












Lemma has_shape3_of_blocks (X : tensor3) (n k d : nat) :
  length X = n -> (forall j, (j < n)%nat -> has_shape2 (nth j X []) k d = true) ->
  has_shape3 X n k d = true.
Proof.
  intros HX H. apply has_shape3_spec. split; [exact HX | ].
  intros t Ht. apply has_shape2_spec. apply H. exact Ht.
Qed.


Section GaussianUnused.
Context {N : Numerics}.

(** The arrays the Gaussian [m_step] builds on the way: the normal
    equations after the accumulation loop, the covariances before the
    fallback, and the usage of the states. *)
Definition normal_equations (m : model) (xyz : list (mat * mat * mat)) : tensor3 * tensor3 :=
  fold_left (fun Jh '(x, y, Ez) =>
               accumulate (K m) (D m * lags m + M m + 1) (D m) Jh x y Ez)
            xyz (ridge_prior m).


Definition state_usage (m : model) (seqs : list obs_seq) : vec :=
  usage (K m) (map (fun s => skipn (lags m) (sq_Ez s)) seqs).




End GaussianUnused.


Section GaussianFallback.
Context {N : Numerics}.


End GaussianFallback.

(** The draw used in the example: the first used state, unit noise. *)
Definition unit_noise : nat -> draw :=
  fun _ => {| choice := 0; randn_A := [[1]]; randn_V := [[]]; randn_b := [1] |}.


(* ================================================================== *)
(** * Part III: further properties of the code *)
(* ================================================================== *)

(** ** [permute]: what it reorders, its inverse, and bad indices *)

(** [x[perm]] when it succeeds: entry [k] of the result is entry [perm[k]]
    of [x]. *)
Definition reorder {A : Type} (d : A) (perm : list nat) (x : list A) : list A :=
  map (fun p => nth p x d) perm.

Lemma take_Ok {A : Type} (x : list A) (perm : list nat) (d : A) :
  (forall p, In p perm -> (p < length x)%nat) ->
  take x perm = Ok (reorder d perm x).
Proof.
  unfold take, reorder. induction perm as [ | p perm IH]; intros H; [reflexivity | ].
  simpl. assert (Hp : (p < length x)%nat) by (apply H; left; reflexivity).
  destruct (nth_error x p) as [a | ] eqn:E.
  - simpl. rewrite IH by (intros q Hq; apply H; right; exact Hq). simpl.
    f_equal. f_equal. symmetry. apply nth_error_nth. exact E.
  - apply nth_error_None in E. lia.
Qed.

Lemma take_Raise {A : Type} (x : list A) (perm : list nat) :
  (exists p, In p perm /\ (length x <= p)%nat) -> take x perm = Raise IndexError.
Proof.
  unfold take. induction perm as [ | q perm IH]; intros (p & Hp & Hge);
    [destruct Hp | ].
  simpl. destruct (nth_error x q) as [a | ] eqn:E; [ | reflexivity].
  simpl. destruct Hp as [-> | Hp].
  - apply nth_error_None in Hge. congruence.
  - rewrite IH by eauto. reflexivity.
Qed.

Lemma reorder_inverse {A : Type} (d : A) (perm inv : list nat) (x : list A) :
  length inv = length x ->
  (forall i, (i < length x)%nat ->
     (nth i inv 0%nat < length perm)%nat /\ nth (nth i inv 0%nat) perm 0%nat = i) ->
  reorder d inv (reorder d perm x) = x.
Proof.
  intros Hl H. unfold reorder. apply (nth_ext _ _ d d).
  - rewrite length_map. exact Hl.
  - intros i Hi. rewrite length_map in Hi.
    rewrite (nth_map_in_range _ inv i 0%nat d) by exact Hi.
    destruct (H i) as [H1 H2]; [lia | ].
    rewrite (nth_map_in_range _ perm _ 0%nat d) by exact H1.
    rewrite H2. reflexivity.
Qed.

Lemma reorder_length {A : Type} (d : A) (perm : list nat) (x : list A) :
  length (reorder d perm x) = length perm.
Proof. unfold reorder. apply length_map. Qed.

(** The per-state parameters of an instance all have [n] entries, and the
    noise attributes are the ones of its class. *)
Definition per_state (n : nat) (m : model) : Prop :=
  length (mu_init m) = n /\ length (_As m) = n /\ length (bs m) = n
  /\ length (Vs m) = n
  /\ match kind m, noise_params m, nus_params m with
     | AutoRegressiveObservations, SqrtSigmas s0 s, NoNus => length s = n
     | AutoRegressiveDiagonalNoiseObservations, LogSigmasq l0 l, NoNus
     | IndependentAutoRegressiveObservations, LogSigmasq l0 l, NoNus =>
         length l0 = n /\ length l = n
     | RobustAutoRegressiveObservations, SqrtSigmas s0 s, LogNus nu =>
         length s = n /\ length nu = n
     | RobustAutoRegressiveDiagonalNoiseObservations, LogSigmasq l0 l, LogNus nu =>
         length l0 = n /\ length l = n /\ length nu = n
     | AltRobustAutoRegressiveDiagonalNoiseObservations, LogSigmasq l0 l, LogNusPerDim nu =>
         length l0 = n /\ length l = n /\ length nu = n
     | _, _, _ => False
     end.

(** The instance [permute] leaves behind when every index is in range. *)
Definition permuted (perm : list nat) (m : model) : model :=
  {| kind := kind m; K := K m; D := D m; M := M m; lags := lags m;
     mu_init := reorder [] perm (mu_init m);
     _As := reorder [] perm (_As m);
     bs := reorder [] perm (bs m);
     Vs := reorder [] perm (Vs m);
     noise_params :=
       match noise_params m with
       | SqrtSigmas s0 s => SqrtSigmas s0 (reorder [] perm s)
       | LogSigmasq l0 l => LogSigmasq (reorder [] perm l0) (reorder [] perm l)
       end;
     nus_params :=
       match nus_params m with
       | NoNus => NoNus
       | LogNus nu => LogNus (reorder 0 perm nu)
       | LogNusPerDim nu => LogNusPerDim nu
       end;
     l2_penalty_A := l2_penalty_A m; l2_penalty_b := l2_penalty_b m;
     l2_penalty_V := l2_penalty_V m |}.

Lemma permute_base_reorders (perm : list nat) (m : model) (n : nat) :
  is_independent (kind m) = false ->
  length (mu_init m) = n -> length (_As m) = n -> length (bs m) = n ->
  length (Vs m) = n ->
  (forall p, In p perm -> (p < n)%nat) ->
  permute_base perm m
  = Returned (set_Vs (reorder [] perm (Vs m))
                (set_bs (reorder [] perm (bs m))
                   (set__As (reorder [] perm (_As m))
                      (set_mu_init (reorder [] perm (mu_init m)) m)))).
Proof.
  intros Hind H1 H2 H3 H4 Hp. unfold permute_base.
  rewrite (take_Ok (mu_init m) perm []) by (rewrite H1; exact Hp).
  cbn [assign and_then]. unfold As at 1, As_setter.
  cbn [kind _As bs Vs set_mu_init set__As set_bs set_Vs]. rewrite Hind.
  rewrite (take_Ok (_As m) perm []) by (rewrite H2; exact Hp).
  cbn [kind _As bs Vs set_mu_init set__As set_bs set_Vs and_then]. rewrite ?Hind.
  cbn [and_then].
  cbn [kind _As bs Vs set_mu_init set__As set_bs set_Vs and_then].
  rewrite (take_Ok (bs m) perm []) by (rewrite H3; exact Hp).
  cbn [assign and_then kind _As bs Vs set_mu_init set__As set_bs set_Vs].
  rewrite (take_Ok (Vs m) perm []) by (rewrite H4; exact Hp).
  reflexivity.
Qed.

Lemma permute_permuted (perm : list nat) (m : model) (n : nat) :
  kind m <> AltRobustAutoRegressiveDiagonalNoiseObservations ->
  per_state n m ->
  (forall p, In p perm -> (p < n)%nat) ->
  permute perm m = Returned (permuted perm m).
Proof.
  intros Halt (H1 & H2 & H3 & H4 & Hn) Hp. unfold permute.
  destruct m as [v Km Dm Mm Lm mu0 A b V nz nu pA pb pV]. cbn in *.
  destruct v; destruct nz as [s0 s | l0 l]; destruct nu as [ | nu | nu];
    try contradiction; try congruence.
  - unfold permute_full. rewrite (permute_base_reorders perm _ n) by (assumption || reflexivity).
    cbn. rewrite (take_Ok s perm []) by (rewrite Hn; exact Hp). reflexivity.
  - destruct Hn as [Hn0 Hn1]. unfold permute_diagonal.
    rewrite (permute_base_reorders perm _ n) by (assumption || reflexivity).
    cbn. rewrite (take_Ok l0 perm []) by (rewrite Hn0; exact Hp). cbn.
    rewrite (take_Ok l perm []) by (rewrite Hn1; exact Hp). reflexivity.
  - destruct Hn as [Hn0 Hn1]. unfold permute_independent. cbn.
    rewrite (take_Ok mu0 perm []) by (rewrite H1; exact Hp). cbn.
    rewrite (take_Ok A perm []) by (rewrite H2; exact Hp). cbn.
    rewrite (take_Ok b perm []) by (rewrite H3; exact Hp). cbn.
    rewrite (take_Ok V perm []) by (rewrite H4; exact Hp). cbn.
    rewrite (take_Ok l0 perm []) by (rewrite Hn0; exact Hp). cbn.
    rewrite (take_Ok l perm []) by (rewrite Hn1; exact Hp). reflexivity.
  - destruct Hn as [Hn1 Hn2]. unfold permute_robust, permute_full.
    rewrite (permute_base_reorders perm _ n) by (assumption || reflexivity).
    cbn. rewrite (take_Ok s perm []) by (rewrite Hn1; exact Hp). cbn.
    rewrite (take_Ok nu perm 0) by (rewrite Hn2; exact Hp). reflexivity.
  - destruct Hn as (Hn0 & Hn1 & Hn2). unfold permute_robust, permute_diagonal.
    rewrite (permute_base_reorders perm _ n) by (assumption || reflexivity).
    cbn. rewrite (take_Ok l0 perm []) by (rewrite Hn0; exact Hp). cbn.
    rewrite (take_Ok l perm []) by (rewrite Hn1; exact Hp). cbn.
    rewrite (take_Ok nu perm 0) by (rewrite Hn2; exact Hp). reflexivity.
Qed.

(** [permute] with indices in range returns, and state [k] of the result
    carries the parameters of state [perm[k]]: [mu_init], the lag
    coefficients, [bs], [Vs], the steady-state noise parameters and the
    degrees of freedom, and in the diagonal and independent classes the
    initial variances.  The full-covariance classes leave
    [_sqrt_Sigmas_init] in its old order.  [K] is not updated, whatever the
    length of [perm]. *)
Theorem permute_reorders (perm : list nat) (m : model) (n : nat) :
  kind m <> AltRobustAutoRegressiveDiagonalNoiseObservations ->
  per_state n m ->
  (forall p, In p perm -> (p < n)%nat) ->
  exists m',
    permute perm m = Returned m'
    /\ kind m' = kind m /\ K m' = K m
    /\ mu_init m' = reorder [] perm (mu_init m)
    /\ _As m' = reorder [] perm (_As m)
    /\ bs m' = reorder [] perm (bs m)
    /\ Vs m' = reorder [] perm (Vs m)
    /\ noise_params m'
       = match noise_params m with
         | SqrtSigmas s0 s => SqrtSigmas s0 (reorder [] perm s)
         | LogSigmasq l0 l => LogSigmasq (reorder [] perm l0) (reorder [] perm l)
         end
    /\ nus_params m'
       = match nus_params m with
         | LogNus nu => LogNus (reorder 0 perm nu)
         | other => other
         end.
Proof.
  intros Halt Hps Hp. exists (permuted perm m).
  split; [apply (permute_permuted perm m n); assumption | ].
  unfold permuted. cbn. destruct (nus_params m); repeat split; reflexivity.
Qed.

Lemma permute_reorders_witness :
  exists m',
    permute [1; 0]%nat robust_diagonal_2x1 = Returned m'
    /\ bs m' = [[0]; [1]] /\ _As m' = [[[- (1 / 2)]]; [[1 / 2]]].
Proof.
  destruct (permute_reorders [1; 0]%nat robust_diagonal_2x1 2)
    as (m' & E & _ & _ & _ & HA & Hb & _).
  - discriminate.
  - cbn. repeat split; reflexivity.
  - intros p [<- | [<- | []]]; lia.
  - exists m'. split; [exact E | ]. split; [exact Hb | exact HA].
Defined.

Lemma per_state_permuted (perm : list nat) (m : model) (n : nat) :
  kind m <> AltRobustAutoRegressiveDiagonalNoiseObservations ->
  per_state n m -> per_state (length perm) (permuted perm m).
Proof.
  intros Halt (H1 & H2 & H3 & H4 & Hn). unfold per_state, permuted. cbn.
  rewrite !reorder_length.
  split; [reflexivity | ]. split; [reflexivity | ]. split; [reflexivity | ].
  split; [reflexivity | ].
  destruct (kind m), (noise_params m), (nus_params m); try contradiction;
    try congruence; rewrite ?reorder_length; repeat split; reflexivity.
Qed.

(** Round trip: [permute(perm)] followed by [permute(inv)], where [inv] is
    the inverse permutation ([perm[inv[i]] = i], as [np.argsort(perm)]
    gives it), returns twice and restores the instance, for every class
    but the Alt one (whose [permute] always raises). *)
Theorem permute_round_trip (perm inv : list nat) (m : model) (n : nat) :
  kind m <> AltRobustAutoRegressiveDiagonalNoiseObservations ->
  per_state n m ->
  length inv = n ->
  (forall p, In p perm -> (p < n)%nat) ->
  (forall i, (i < n)%nat ->
     (nth i inv 0%nat < length perm)%nat /\ nth (nth i inv 0%nat) perm 0%nat = i) ->
  exists m', permute perm m = Returned m' /\ permute inv m' = Returned m.
Proof.
  intros Halt Hps Hinv Hp Hi. exists (permuted perm m).
  split; [apply (permute_permuted perm m n); assumption | ].
  rewrite (permute_permuted inv (permuted perm m) (length perm)).
  - f_equal. destruct Hps as (H1 & H2 & H3 & H4 & Hn).
    destruct m as [v Km Dm Mm Lm mu0 A b V nz nu pA pb pV]. unfold permuted. cbn in *.
    rewrite !reorder_inverse by (congruence || (intros; apply Hi; congruence)).
    destruct v; destruct nz as [s0 s | l0 l]; destruct nu as [ | nu | nu];
      try contradiction; try congruence;
      repeat match goal with H : _ /\ _ |- _ => destruct H end;
      rewrite !reorder_inverse by (congruence || (intros; apply Hi; congruence));
      reflexivity.
  - exact Halt.
  - apply per_state_permuted with (n := n); assumption.
  - intros p Hin. destruct (In_nth _ _ 0%nat Hin) as (i & Hlt & <-).
    apply Hi. lia.
Qed.

Lemma permute_round_trip_witness :
  exists m',
    permute [2; 0; 1]%nat
      (make_model AutoRegressiveDiagonalNoiseObservations 3 1 [[0]; [1]; [2]]
         [[[1]]; [[2]]; [[3]]] [[4]; [5]; [6]]
         (LogSigmasq [[0]; [1]; [2]] [[3]; [4]; [5]]) NoNus) = Returned m'
    /\ permute [1; 2; 0]%nat m'
       = Returned
           (make_model AutoRegressiveDiagonalNoiseObservations 3 1 [[0]; [1]; [2]]
              [[[1]]; [[2]]; [[3]]] [[4]; [5]; [6]]
              (LogSigmasq [[0]; [1]; [2]] [[3]; [4]; [5]]) NoNus).
Proof.
  apply (permute_round_trip [2; 0; 1]%nat [1; 2; 0]%nat
           (make_model AutoRegressiveDiagonalNoiseObservations 3 1 [[0]; [1]; [2]]
              [[[1]]; [[2]]; [[3]]] [[4]; [5]; [6]]
              (LogSigmasq [[0]; [1]; [2]] [[3]; [4]; [5]]) NoNus) 3).
  - discriminate.
  - cbn. repeat split; reflexivity.
  - reflexivity.
  - intros p [<- | [<- | [<- | []]]]; lia.
  - intros [ | [ | [ | i]]] Hi; cbn; try lia; split; (lia || reflexivity).
Defined.

(** An index that is out of range for [mu_init] makes [permute] raise
    [IndexError] on its first statement, in every class: the instance is
    left exactly as it was. *)
Theorem permute_bad_index (perm : list nat) (m : model) :
  (exists p, In p perm /\ (length (mu_init m) <= p)%nat) ->
  permute perm m = Raised IndexError m.
Proof.
  intros H. unfold permute.
  assert (Hb : permute_base perm m = Raised IndexError m).
  { unfold permute_base. rewrite (take_Raise _ _ H). reflexivity. }
  destruct (kind m);
    unfold permute_robust, permute_alt, permute_full, permute_diagonal,
      permute_independent;
    rewrite ?Hb; try reflexivity.
  rewrite (take_Raise _ _ H). reflexivity.
Qed.

Lemma permute_bad_index_witness :
  permute [0; 2]%nat alt_2x1 = Raised IndexError alt_2x1.
Proof.
  apply permute_bad_index. exists 2%nat. split; [right; left; reflexivity | simpl; lia].
Defined.

(** ** The mean predictor: the base formula and short sequences *)

(** For the five classes that inherit the base method, [_compute_mus]
    returns one block per state with one row per time step; the row of
    state [k] at time [t] is [mu_init[k]] for [t < lags], and for
    [t >= lags] the sum over [l = 1..lags] of the [l]-th [D]-column block
    of [As[k]] applied to [data[t-l]], plus [Vs[k] @ input[t, :M]], plus
    [bs[k]]. *)
Theorem base_predictor_rows (m : model) (data input : mat) :
  is_independent (kind m) = false ->
  well_shaped m = true ->
  length (hd [] data) = D m ->
  length input = length data ->
  (lags m <= length data)%nat ->
  exists mus,
    _compute_mus m data input = Ok mus
    /\ length mus = K m
    /\ forall k t, (k < K m)%nat -> (t < length data)%nat ->
         length (nth k mus []) = length data
         /\ nth t (nth k mus []) []
            = if (t <? lags m)%nat then nth k (mu_init m) []
              else ar_mean m data input k t.
Proof.
  intros Hind Hws HD Hin HT. exists (compute_mus_base m data input).
  split; [unfold _compute_mus; rewrite Hind; reflexivity | ].
  destruct (compute_mus_base_lengths m data input Hws Hind HT Hin) as [H1 H2].
  split; [exact H1 | ].
  intros k t Hk Ht. split; [apply H2; exact Hk | ].
  apply compute_mus_base_spec; assumption.
Qed.

Lemma base_predictor_rows_witness :
  exists mus,
    _compute_mus gaussian_2x1 [[1]; [2]; [4]] [[]; []; []] = Ok mus
    /\ nth 0 (nth 1 mus []) [] = [0]
    /\ nth 2 (nth 1 mus []) []
       = ar_mean gaussian_2x1 [[1]; [2]; [4]] [[]; []; []] 1 2.
Proof.
  destruct (base_predictor_rows gaussian_2x1 [[1]; [2]; [4]] [[]; []; []])
    as (mus & E & _ & H); try reflexivity; [simpl; lia | ].
  exists mus. split; [exact E | ].
  split; [apply (H 1%nat 0%nat); simpl; lia | apply (H 1%nat 2%nat); simpl; lia].
Defined.

Lemma fold_left_nil_absorbing {A B : Type} (f : list A -> B -> list A) (ls : list B) :
  (forall b, f [] b = []) -> fold_left f ls [] = [].
Proof.
  intros H. induction ls as [ | b ls IH]; simpl; [reflexivity | ].
  rewrite H. exact IH.
Qed.

Lemma map_zip4_last {A B C E F : Type} (f : A * (B * (C * E)) -> F) (g : E -> F)
    (la : list A) (lb : list B) (lc : list C) (le : list E) :
  length la = length le -> length lb = length le -> length lc = length le ->
  (forall a b c e, In e le -> f (a, (b, (c, e))) = g e) ->
  map f (combine la (combine lb (combine lc le))) = map g le.
Proof.
  revert la lb lc. induction le as [ | e le IH]; intros [ | a la] [ | b lb] [ | c lc];
    simpl; intros H1 H2 H3 Hf; try discriminate; try reflexivity.
  rewrite Hf by (left; reflexivity). f_equal. apply IH; auto.
Qed.

(** A sequence shorter than [lags].  The base method still stacks [lags]
    initial rows on the (empty) autoregressive part: every state gets
    [lags] copies of [mu_init[k]], more rows than the sequence has.  The
    override of the independent class builds the same number of rows and
    then fails its own shape assertion. *)
Theorem compute_mus_short_sequence (m : model) (data input : mat) :
  well_shaped m = true ->
  (0 < length data < lags m)%nat ->
  length (hd [] data) = D m ->
  length input = length data ->
  _compute_mus m data input
  = if is_independent (kind m) then Raise AssertionError
    else Ok (map (fun mu0 => repeat mu0 (lags m)) (mu_init m)).
Proof.
  intros Hws HT HD Hin. unfold _compute_mus.
  assert (Hskip : skipn (lags m) input = []) by (apply skipn_all2; lia).
  destruct (is_independent (kind m)) eqn:Hind.
  - unfold compute_mus_independent. cbv zeta. rewrite Hskip.
    cbn [cols map].
    rewrite fold_left_nil_absorbing by reflexivity. cbn [map].
    unfold vstack. rewrite app_nil_r.
    unfold has_shape3. rewrite length_map. unfold ones3. rewrite repeat_length.
    destruct (Nat.eqb_spec (lags m) (length data)) as [E | _]; [lia | reflexivity].
  - f_equal. unfold compute_mus_base.
    assert (HAs : As m = _As m) by (unfold As; rewrite Hind; reflexivity).
    rewrite HAs.
    unfold well_shaped in Hws.
    repeat match goal with
           | H : (_ && _)%bool = true |- _ => apply andb_prop in H; destruct H
           end.
    repeat match goal with
           | H : has_shape2 _ _ _ = true |- _ =>
               apply has_shape2_spec in H; destruct H
           | H : (_ =? _)%nat = true |- _ => apply Nat.eqb_eq in H
           end.
    apply map_zip4_last; try congruence.
    intros A b V mu0 Hmu. unfold compute_mus_k. rewrite Hskip. cbn [cols map dot_T].
    rewrite fold_left_nil_absorbing by reflexivity.
    unfold add_row, vstack. cbn [map]. rewrite app_nil_r.
    unfold ones. rewrite HD.
    destruct (In_nth _ _ [] Hmu) as (k & Hk & <-).
    match goal with
    | H : forall i, (i < K m)%nat -> length (nth i (mu_init m) []) = D m |- _ =>
        rewrite <- (H k) by lia
    end.
    rewrite map_repeat. rewrite vmul_ones. reflexivity.
Qed.

(** One state, one dimension, two lags. *)
Definition gaussian_two_lags : model :=
  {| kind := AutoRegressiveObservations; K := 1; D := 1; M := 0; lags := 2;
     mu_init := [[7]]; _As := [[[1; 1]]]; bs := [[0]]; Vs := [[[]]];
     noise_params := SqrtSigmas [[[1]]] [[[1]]]; nus_params := NoNus;
     l2_penalty_A := 1e-8; l2_penalty_b := 1e-8; l2_penalty_V := 1e-8 |}.

Lemma compute_mus_short_sequence_witness :
  _compute_mus gaussian_two_lags [[5]] [[]] = Ok [[[7]; [7]]].
Proof.
  apply (compute_mus_short_sequence gaussian_two_lags [[5]] [[]]);
    try reflexivity.
  simpl. lia.
Defined.

(** ** [smooth]: the posterior mean of the observations *)

Lemma sequence_map_Ok {A B : Type} (f : A -> B) (l : list A) :
  sequence (map (fun a => Ok (f a)) l) = Ok (map f l).
Proof.
  induction l as [ | a l IH]; simpl; [reflexivity | ]. rewrite IH. reflexivity.
Qed.

Lemma sequence_map2_Ok {A B C : Type} (f : A -> B -> result C) (g : A -> B -> C)
    (xs : list A) (ys : list B) :
  (forall x y, In x xs -> In y ys -> f x y = Ok (g x y)) ->
  sequence (map2 f xs ys) = Ok (map2 g xs ys).
Proof.
  revert ys. induction xs as [ | x xs IH]; intros [ | y ys] H; simpl; try reflexivity.
  rewrite H by (left; reflexivity). simpl.
  rewrite IH by (intros; apply H; right; assumption). reflexivity.
Qed.

(** A scalar against a vector: numpy repeats the length-one axis. *)
Lemma bzip_scalar (e : R) (mu : vec) :
  bzip (fun a b => Ok (a * b)) [e] mu = Ok (vscale e mu).
Proof.
  unfold bzip, vscale. destruct mu as [ | x [ | y mu]]; simpl; try reflexivity.
  rewrite (sequence_map_Ok (Rmult e) mu). reflexivity.
Qed.

Lemma bmul3_expectations (E : mat) (mus : tensor3) (T Kp : nat) :
  length E = T -> length mus = T ->
  (forall t, (t < T)%nat -> length (nth t E []) = Kp /\ length (nth t mus []) = Kp) ->
  bmul3 (map (map (fun e => [e])) E) mus
  = Ok (map2 (fun E_t mus_t => map2 vscale E_t mus_t) E mus).
Proof.
  intros HE Hm Hrows. unfold bmul3. unfold bzip at 1.
  rewrite length_map, HE, Hm, Nat.eqb_refl.
  assert (G : forall E' mus', length E' = length mus' ->
            (forall t, (t < length E')%nat ->
               length (nth t E' []) = length (nth t mus' [])) ->
            sequence (map2 (bzip (bzip (fun a b => Ok (a * b))))
                        (map (map (fun e => [e])) E') mus')
            = Ok (map2 (fun E_t mus_t => map2 vscale E_t mus_t) E' mus')).
  { induction E' as [ | E_t E' IH]; intros [ | mus_t mus'] Hl Hr; simpl in *;
      try reflexivity; try discriminate.
    assert (Hrow : bzip (bzip (fun a b => Ok (a * b))) (map (fun e => [e]) E_t) mus_t
                   = Ok (map2 vscale E_t mus_t)).
    { unfold bzip at 1. rewrite length_map.
      rewrite (Hr 0%nat) by lia. simpl nth. rewrite Nat.eqb_refl.
      clear. revert mus_t. induction E_t as [ | e E_t IH]; intros [ | mu mus_t];
        simpl; try reflexivity.
      rewrite bzip_scalar. simpl. rewrite IH. reflexivity. }
    rewrite Hrow. simpl. rewrite IH; [reflexivity | lia | ].
    intros t Ht. apply (Hr (S t)). lia. }
  apply G; [lia | ].
  intros t Ht. destruct (Hrows t) as [H1 H2]; [lia | ]. lia.
Qed.

Lemma nth_fold_vadd (rs : mat) (r : vec) (d n : nat) :
  length r = n -> (forall x, In x rs -> length x = n) -> (d < n)%nat ->
  length (fold_left vadd rs r) = n
  /\ nth d (fold_left vadd rs r) 0 = nth d r 0 + Rsum (map (fun x => nth d x 0) rs).
Proof.
  revert r. induction rs as [ | x rs IH]; intros r Hr Hrs Hd; simpl.
  - split; [exact Hr | unfold Rsum; simpl; lra].
  - destruct (IH (vadd r x)) as [H1 H2].
    + apply vadd_length; [exact Hr | apply Hrs; left; reflexivity].
    + intros y Hy. apply Hrs. right. exact Hy.
    + exact Hd.
    + split; [exact H1 | ]. rewrite H2.
      unfold vadd. rewrite (nth_map2 Rplus r x d 0 0 0)
        by (rewrite ?Hr, ?(Hrs x (or_introl eq_refl)); exact Hd).
      change (Rsum (nth d x 0 :: map (fun x0 => nth d x0 0) rs))
        with (nth d x 0 + Rsum (map (fun x0 => nth d x0 0) rs)).
      lra.
Qed.

Lemma nth_sum_rows (rows : mat) (d n : nat) :
  rows <> [] -> (forall x, In x rows -> length x = n) -> (d < n)%nat ->
  length (sum_rows rows) = n
  /\ nth d (sum_rows rows) 0 = Rsum (map (fun x => nth d x 0) rows).
Proof.
  intros Hne Hrows Hd. destruct rows as [ | r rs]; [congruence | ].
  unfold sum_rows.
  destruct (nth_fold_vadd rs r d n) as [H1 H2];
    [apply Hrows; left; reflexivity | intros; apply Hrows; right; assumption
    | exact Hd | ].
  split; [exact H1 | ]. rewrite H2. reflexivity.
Qed.

Lemma vsum_length (d : nat) (vs : list vec) :
  (forall v, In v vs -> length v = d) -> length (vsum d vs) = d.
Proof.
  unfold vsum. induction vs as [ | v vs IH]; intros H; simpl.
  - unfold zeros. apply repeat_length.
  - apply vadd_length; [apply H; left; reflexivity | ].
    apply IH. intros; apply H; right; assumption.
Qed.

(** The means of the base predictor are vectors of [D] entries. *)
Lemma compute_mus_base_row_length (m : model) (data input : mat) (k t : nat) :
  is_independent (kind m) = false ->
  well_shaped m = true ->
  length (hd [] data) = D m ->
  length input = length data ->
  (lags m <= length data)%nat ->
  (k < K m)%nat -> (t < length data)%nat ->
  length (nth t (nth k (compute_mus_base m data input) []) []) = D m.
Proof.
  intros Hind Hws HD Hin HT Hk Ht.
  rewrite compute_mus_base_spec by assumption.
  destruct (well_shaped_state m k Hws Hk)
    as (Hl & Hmu & Hmuk & Hb & Hbk & HA & HAk & HV & HVk).
  destruct (t <? lags m)%nat; [exact Hmuk | ].
  unfold ar_mean. cbv zeta. rewrite HD.
  assert (HAs : As m = _As m) by (unfold As; rewrite Hind; reflexivity).
  rewrite HAs.
  apply vadd_length; [ | exact Hbk].
  apply vadd_length; [ | rewrite matvec_length; exact HVk].
  apply vsum_length. intros v Hv. apply in_map_iff in Hv.
  destruct Hv as (l & <- & _). rewrite matvec_length.
  unfold lag_block, cols. rewrite length_map. exact HAk.
Qed.

(** For the classes that inherit the base predictor: [smooth] returns one
    row per time step, and entry [d] of row [t] is the sum over the states
    of [expectations[t, k]] times entry [d] of the mean of state [k] at
    time [t]. *)
Theorem smooth_weighted_mean (m : model) (expectations data input : mat) :
  is_independent (kind m) = false ->
  well_shaped m = true ->
  (0 < K m)%nat -> (0 < D m)%nat ->
  has_shape2 data (length data) (D m) = true ->
  length input = length data ->
  (lags m <= length data)%nat ->
  has_shape2 expectations (length data) (K m) = true ->
  exists s,
    smooth m expectations data input = Ok s
    /\ length s = length data
    /\ forall t d, (t < length data)%nat -> (d < D m)%nat ->
         nth d (nth t s []) 0
         = Rsum (map (fun k =>
                        nth k (nth t expectations []) 0
                        * nth d (nth t (nth k (compute_mus_base m data input) []) []) 0)
                     (seq 0 (K m))).
Proof.
  intros Hind Hws HK HDpos Hdata Hin HT HE.
  apply has_shape2_spec in HE. destruct HE as [HE1 HE2].
  assert (HD : length (hd [] data) = D m).
  { apply has_shape2_spec in Hdata. destruct Hdata as [_ Hrows].
    destruct data as [ | x data].
    - simpl in HT. destruct (well_shaped_state m 0%nat Hws HK) as (Hl & _). lia.
    - apply (Hrows 0%nat). simpl. lia. }
  destruct (compute_mus_base_lengths m data input Hws Hind HT Hin) as [Hm1 Hm2].
  destruct (swapaxes_entries (compute_mus_base m data input) (K m) (length data)
              HK Hm1 Hm2) as [Hsw1 Hsw2].
  unfold smooth, _compute_mus. rewrite Hind. cbn [bind].
  rewrite (bmul3_expectations expectations _ (length data) (K m)); try assumption.
  2:{ intros t Ht. split; [apply HE2; exact Ht | apply (Hsw2 t Ht)]. }
  cbn [bind].
  eexists. split; [reflexivity | ].
  split; [rewrite length_map, map2_length; lia | ].
  intros t d Ht Hd.
  set (mus := compute_mus_base m data input) in *.
  rewrite (nth_map_in_range sum_rows _ t [] []) by (rewrite map2_length; lia).
  rewrite (nth_map2 (fun E_t mus_t => map2 vscale E_t mus_t) expectations
             (swapaxes [] mus) t [] [] []) by lia.
  destruct (Hsw2 t Ht) as [Hlen Hent].
  set (E_t := nth t expectations []).
  set (mus_t := nth t (swapaxes [] mus) []).
  assert (HEt : length E_t = K m) by (apply HE2; exact Ht).
  assert (Hrowlen : forall k, (k < K m)%nat -> length (nth k mus_t []) = D m).
  { intros k Hk. unfold mus_t. rewrite Hent by exact Hk.
    apply compute_mus_base_row_length; assumption. }
  destruct (nth_sum_rows (map2 vscale E_t mus_t) d (D m)) as [_ Hsum].
  { intros Hnil. apply (f_equal (@length _)) in Hnil.
    rewrite map2_length in Hnil. simpl in Hnil. unfold mus_t in *. lia. }
  { intros x Hx. destruct (In_nth _ _ [] Hx) as (k & Hk & <-).
    rewrite map2_length in Hk.
    rewrite (nth_map2 vscale E_t mus_t k 0 [] []) by lia.
    unfold vscale. rewrite length_map. apply Hrowlen. unfold mus_t in *. lia. }
  { exact Hd. }
  rewrite Hsum. f_equal.
  apply (nth_ext _ _ 0 0).
  { rewrite !length_map, map2_length, length_seq. unfold mus_t in *. lia. }
  intros k Hk. rewrite length_map, map2_length in Hk.
  assert (Hk' : (k < K m)%nat) by (unfold mus_t in *; lia).
  rewrite (nth_map_in_range (fun x => nth d x 0) _ k [] 0)
    by (rewrite map2_length; lia).
  rewrite (nth_map2 vscale E_t mus_t k 0 [] []) by (unfold mus_t in *; lia).
  rewrite (nth_map_in_range _ (seq 0 (K m)) k 0%nat 0) by (rewrite length_seq; exact Hk').
  rewrite seq_nth by exact Hk'. cbn [Nat.add].
  unfold vscale.
  rewrite (nth_map_in_range (Rmult (nth k E_t 0)) _ d 0 0)
    by (rewrite Hrowlen by exact Hk'; exact Hd).
  unfold mus_t. rewrite Hent by exact Hk'. reflexivity.
Qed.

Lemma smooth_weighted_mean_witness :
  exists s,
    smooth gaussian_2x1 [[1; 0]; [1; 0]; [0; 1]] [[1]; [2]; [4]] [[]; []; []] = Ok s
    /\ length s = 3%nat
    /\ forall t d, (t < 3)%nat -> (d < 1)%nat ->
         nth d (nth t s []) 0
         = Rsum (map (fun k =>
                        nth k (nth t [[1; 0]; [1; 0]; [0; 1]] []) 0
                        * nth d (nth t (nth k (compute_mus_base gaussian_2x1
                                                 [[1]; [2]; [4]] [[]; []; []]) []) []) 0)
                     (seq 0 2)).
Proof.
  apply (smooth_weighted_mean gaussian_2x1 [[1; 0]; [1; 0]; [0; 1]]
           [[1]; [2]; [4]] [[]; []; []]); try reflexivity; simpl; lia.
Defined.

(** ** [sample_x] *)

Lemma item_Ok {A : Type} (x : list A) (z : nat) (d : A) :
  (z < length x)%nat -> item x z = Ok (nth z x d).
Proof.
  intros H. unfold item. destruct (nth_error x z) as [a | ] eqn:E.
  - simpl. f_equal. symmetry. apply nth_error_nth. exact E.
  - apply nth_error_None in E. lia.
Qed.

Lemma item_Raise {A : Type} (x : list A) (z : nat) :
  (length x <= z)%nat -> item x z = Raise IndexError.
Proof.
  intros H. unfold item. apply nth_error_None in H. rewrite H. reflexivity.
Qed.

Lemma np_dot_Ok (W : mat) (x : vec) :
  (forall w, In w W -> length w = length x) -> np_dot W x = Ok (matvec W x).
Proof.
  intros H. unfold np_dot.
  assert (E : forallb (fun w => (length w =? length x)%nat) W = true).
  { apply forallb_forall. intros w Hw. apply Nat.eqb_eq. apply H. exact Hw. }
  rewrite E. reflexivity.
Qed.

Lemma np_add_Ok (u v : vec) :
  length u = length v -> np_add u v = Ok (vadd u v).
Proof.
  intros H. unfold np_add, bzip. rewrite H, Nat.eqb_refl.
  apply sequence_map2_Ok. reflexivity.
Qed.

Lemma np_iadd_Ok (mu v : vec) :
  length v = length mu -> np_iadd mu v = Ok (vadd mu v).
Proof. intros H. unfold np_iadd. rewrite H, Nat.eqb_refl. reflexivity. Qed.

Lemma fold_bind_Ok {A B : Type} (I : A -> Prop) (F : A -> B -> result A) (G : A -> B -> A)
    (ls : list B) (a : A) :
  I a ->
  (forall a b, I a -> In b ls -> F a b = Ok (G a b) /\ I (G a b)) ->
  fold_left (fun acc b => a <- acc ;; F a b) ls (Ok a) = Ok (fold_left G ls a)
  /\ I (fold_left G ls a).
Proof.
  revert a. induction ls as [ | b ls IH]; intros a Ha H; simpl; [auto | ].
  destruct (H a b Ha (or_introl eq_refl)) as [E Hi]. rewrite E.
  apply IH; [exact Hi | ]. intros a' b' Ha' Hb'. apply H; [exact Ha' | right; exact Hb'].
Qed.

Lemma vadd_scaled_zero (mu r : vec) :
  length r = length mu -> vadd mu (vscale 0 r) = mu.
Proof.
  unfold vadd, vscale. revert r. induction mu as [ | x mu IH]; intros [ | y r] H;
    simpl in *; try discriminate; [reflexivity | ].
  rewrite IH by lia. f_equal. lra.
Qed.

(** The four classes whose sampler computes the mean with the input
    term. *)
Definition samples_with_input (v : variant) : bool :=
  match v with
  | AutoRegressiveObservations | AutoRegressiveDiagonalNoiseObservations
  | RobustAutoRegressiveObservations
  | RobustAutoRegressiveDiagonalNoiseObservations => true
  | _ => false
  end.

Lemma coherent_shapes (m : model) :
  coherent m = true ->
  has_shape3 (_As m) (K m) (D m)
    (if is_independent (kind m) then lags m else D m * lags m) = true
  /\ has_shape3 (Vs m) (K m) (D m) (M m) = true.
Proof.
  unfold coherent. intros H.
  apply andb_prop in H. destruct H as [H _].
  apply andb_prop in H. exact H.
Qed.

Lemma shape3_rows (X : tensor3) (n k d z : nat) (w : vec) :
  has_shape3 X n k d = true -> (z < n)%nat -> In w (nth z X []) -> length w = d.
Proof.
  intros H Hz Hw. apply has_shape3_spec in H. destruct H as [_ H].
  destruct (H z Hz) as [H1 H2].
  destruct (In_nth _ _ [] Hw) as (i & Hi & <-). apply H2. lia.
Qed.

(** The mean of the sampler is the mean of the predictor. *)
Lemma sample_mean_is_ar_mean {N : Numerics} (m : model) (data input : mat) (z t : nat) :
  is_independent (kind m) = false ->
  well_shaped m = true -> coherent m = true ->
  has_shape2 data (length data) (D m) = true ->
  has_shape2 input (length data) (M m) = true ->
  (lags m <= t < length data)%nat -> (z < K m)%nat ->
  sample_mean m z (firstn t data) (Some (nth t input [])) = Ok (ar_mean m data input z t)
  /\ length (ar_mean m data input z t) = D m.
Proof.
  intros Hind Hws Hco Hdata Hinput Ht Hz.
  destruct (coherent_shapes m Hco) as [HAs HVs]. rewrite Hind in HAs.
  destruct (well_shaped_state m z Hws Hz)
    as (Hl & Hmu & Hmuz & Hb & Hbz & HA & HAz & HV & HVz).
  apply has_shape2_spec in Hdata. destruct Hdata as [_ Hrows].
  apply has_shape2_spec in Hinput. destruct Hinput as [Hin Hinrows].
  assert (HD : length (hd [] data) = D m).
  { destruct data as [ | x data]; [simpl in Ht; lia | ].
    apply (Hrows 0%nat). simpl. lia. }
  assert (HAsm : As m = _As m) by (unfold As; rewrite Hind; reflexivity).
  unfold sample_mean. rewrite HAsm.
  rewrite (item_Ok (Vs m) z []) by lia. cbn [bind].
  assert (Hu : length (firstn (M m) (nth t input [])) = M m).
  { rewrite length_firstn, Hinrows by lia. lia. }
  rewrite np_dot_Ok.
  2:{ intros w Hw. rewrite Hu. apply (shape3_rows _ _ _ _ z w HVs Hz Hw). }
  cbn [bind]. rewrite (item_Ok (bs m) z []) by lia. cbn [bind].
  rewrite np_add_Ok by (rewrite matvec_length; congruence). cbn [bind].
  set (A := nth z (_As m) []). set (V := nth z (Vs m) []). set (b := nth z (bs m) []).
  set (a := fun l : nat =>
              matvec (cols (l * D m) ((l + 1) * D m) A) (nth (t - l - 1) data [])).
  assert (Ha : forall l, In l (seq 0 (lags m)) -> length (a l) = D m).
  { intros l _. unfold a. rewrite matvec_length. unfold cols. rewrite length_map.
    exact HAz. }
  destruct (fold_bind_Ok (fun mu : vec => length mu = D m)
              (fun mu l =>
                 Az <- item (_As m) z ;;
                 v <- np_dot (cols (l * D m) ((l + 1) * D m) Az)
                        (from_end (firstn t data) l) ;;
                 np_iadd mu v)
              (fun mu l => vadd mu (a l))
              (seq 0 (lags m))
              (vadd (matvec V (firstn (M m) (nth t input []))) b))
    as [Efold Hlen].
  { apply vadd_length; [rewrite matvec_length; exact HVz | exact Hbz]. }
  { intros mu l Hmu_len Hlin. apply in_seq in Hlin.
    rewrite (item_Ok (_As m) z []) by lia. cbn [bind]. fold A.
    assert (Hx : from_end (firstn t data) l = nth (t - l - 1) data []).
    { unfold from_end. rewrite length_firstn.
      replace (Nat.min t (length data)) with t by lia.
      rewrite nth_firstn. destruct (Nat.ltb_spec (t - l - 1) t); [reflexivity | lia]. }
    rewrite Hx.
    rewrite np_dot_Ok.
    2:{ intros w Hw. unfold cols in Hw. apply in_map_iff in Hw.
        destruct Hw as (r & <- & Hr).
        rewrite (Hrows (t - l - 1)%nat) by lia.
        rewrite slice_length.
        - rewrite Nat.mul_add_distr_r. lia.
        - rewrite (shape3_rows _ _ _ _ z r HAs Hz Hr).
          rewrite (Nat.mul_comm (D m) (lags m)).
          apply Nat.mul_le_mono_r. lia. }
    cbn [bind]. fold (a l).
    rewrite np_iadd_Ok by (rewrite Ha by (apply in_seq; lia); congruence).
    split; [reflexivity | ].
    apply vadd_length; [exact Hmu_len | apply Ha; apply in_seq; lia]. }
  rewrite Efold.
  assert (Heq : fold_left (fun mu l => vadd mu (a l)) (seq 0 (lags m))
                  (vadd (matvec V (firstn (M m) (nth t input []))) b)
                = ar_mean m data input z t).
  { rewrite (fold_vadd_vsum (D m)); [ | | exact Ha].
    2:{ apply vadd_length; [rewrite matvec_length; exact HVz | exact Hbz]. }
    unfold ar_mean. cbv zeta. rewrite HD, HAsm. fold A V b.
    rewrite <- vadd_assoc. f_equal. f_equal. f_equal.
    rewrite <- seq_shift, map_map. apply map_ext. intros l.
    unfold a, lag_block.
    replace (S l - 1)%nat with l by lia.
    replace (l + 1)%nat with (S l) by lia.
    replace (t - l - 1)%nat with (t - S l)%nat by lia. reflexivity. }
  rewrite Heq in *. split; [reflexivity | exact Hlen].
Qed.

Section Sampler.
Context {N : Numerics}.

(** Without noise the sampler reproduces the predictor.  For the four
    classes whose sampler has the input term: drawing state [z] at time
    [t < T] from the history [data[:t]] and the input [input[t]] with
    [with_noise=False] returns exactly the row [(z, t)] of
    [_compute_mus(data, input)], whatever the generator hands out. *)
Theorem sample_x_noise_free_is_predictor (m : model) (data input : mat)
    (z t : nat) (randn : vec) (tau : R) (taus : vec) :
  samples_with_input (kind m) = true ->
  well_shaped m = true -> coherent m = true ->
  has_shape2 data (length data) (D m) = true ->
  has_shape2 input (length data) (M m) = true ->
  (lags m <= length data)%nat ->
  (t < length data)%nat -> (z < K m)%nat ->
  length randn = D m ->
  exists mus,
    _compute_mus m data input = Ok mus
    /\ sample_x m z (firstn t data) (Some (nth t input [])) false randn tau taus
       = Ok (Some (nth t (nth z mus []) [])).
Proof.
  intros Hfam Hws Hco Hdata Hinput HT Ht Hz Hr.
  assert (Hind : is_independent (kind m) = false)
    by (destruct (kind m); try discriminate; reflexivity).
  exists (compute_mus_base m data input).
  split; [unfold _compute_mus; rewrite Hind; reflexivity | ].
  destruct (well_shaped_state m z Hws Hz)
    as (Hl & Hmu & Hmuz & Hb & Hbz & HA & HAz & HV & HVz).
  assert (HD : length (hd [] data) = D m).
  { pose proof Hdata as Hd. apply has_shape2_spec in Hd. destruct Hd as [_ Hrows].
    destruct data as [ | x data]; [simpl in Ht; lia | ].
    apply (Hrows 0%nat). simpl. lia. }
  assert (Hin : length input = length data)
    by (apply has_shape2_length in Hinput; exact Hinput).
  rewrite compute_mus_base_spec by assumption.
  assert (Hhist : length (firstn t data) = t) by (rewrite length_firstn; lia).
  assert (Hfull : sample_x_full m z (firstn t data) (Some (nth t input [])) false randn
                  = Ok (if (t <? lags m)%nat then nth z (mu_init m) []
                        else ar_mean m data input z t)).
  { unfold sample_x_full. rewrite Hhist.
    destruct (Nat.ltb_spec t (lags m)) as [Hlt | Hge].
    - cbn [cholesky_or_zero bind]. rewrite (item_Ok (mu_init m) z []) by lia.
      cbn [bind noise_term]. rewrite np_add_Ok by (unfold vscale; rewrite length_map; congruence).
      rewrite vadd_scaled_zero by congruence. reflexivity.
    - destruct (sample_mean_is_ar_mean m data input z t) as [E Hlen];
        try assumption; [lia | ].
      rewrite E. cbn [cholesky_or_zero bind noise_term].
      rewrite np_add_Ok by (unfold vscale; rewrite length_map; congruence).
      rewrite vadd_scaled_zero by congruence. reflexivity. }
  unfold sample_x.
  unfold coherent in Hco. apply andb_prop in Hco. destruct Hco as [_ Hco].
  destruct (kind m) eqn:Hk; try discriminate Hfam.
  - rewrite Hfull. reflexivity.
  - rewrite Hfull. reflexivity.
  - destruct (noise_params m) as [s0 s | l0 l] eqn:Hn; [ | discriminate Hco].
    destruct (nus_params m) as [ | nu | nu] eqn:Hnu; try discriminate Hco.
    split_lengths.
    unfold sample_x_robust, Sigmas, nus, get_sqrt_Sigmas.
    rewrite Hk, Hn, Hnu. cbn [bind]. rewrite Hhist.
    unfold sample_x_full in Hfull. rewrite Hhist in Hfull.
    destruct (t <? lags m)%nat.
    + rewrite Hfull. reflexivity.
    + destruct (sample_mean m z (firstn t data) (Some (nth t input []))) as [mu | e];
        [ | discriminate Hfull].
      cbn [bind cholesky_or_zero] in *.
      rewrite (item_Ok (map exp nu) z 0) by (rewrite length_map; lia).
      cbn [bind]. rewrite Hfull. reflexivity.
  - destruct (noise_params m) as [s0 s | l0 l] eqn:Hn; [discriminate Hco | ].
    destruct (nus_params m) as [ | nu | nu] eqn:Hnu; try discriminate Hco.
    split_lengths.
    unfold sample_x_robust, Sigmas, nus, get_log_sigmasq.
    rewrite Hk, Hn, Hnu. cbn [bind]. rewrite Hhist.
    unfold sample_x_full in Hfull. rewrite Hhist in Hfull.
    destruct (t <? lags m)%nat.
    + rewrite Hfull. reflexivity.
    + destruct (sample_mean m z (firstn t data) (Some (nth t input []))) as [mu | e];
        [ | discriminate Hfull].
      cbn [bind cholesky_or_zero] in *.
      rewrite (item_Ok (map exp nu) z 0) by (rewrite length_map; lia).
      cbn [bind]. rewrite Hfull. reflexivity.
Qed.

End Sampler.

Lemma sample_x_noise_free_is_predictor_witness :
  exists mus,
    _compute_mus robust_diagonal_2x1 [[1]; [2]; [4]] [[]; []; []] = Ok mus
    /\ @sample_x example_numerics robust_diagonal_2x1 1 (firstn 2 [[1]; [2]; [4]])
         (Some (nth 2 [[]; []; []] [])) false [3] 1 []
       = Ok (Some (nth 2 (nth 1 mus []) [])).
Proof.
  apply (@sample_x_noise_free_is_predictor example_numerics robust_diagonal_2x1
           [[1]; [2]; [4]] [[]; []; []] 1 2 [3] 1 []);
    try reflexivity; simpl; lia.
Defined.

Lemma coherent_getters (m : model) :
  coherent m = true ->
  match kind m with
  | AutoRegressiveObservations =>
      exists S0 S1, Sigmas_init m = Ok S0 /\ Sigmas m = Ok S1
                    /\ length S0 = K m /\ length S1 = K m
  | RobustAutoRegressiveObservations
  | RobustAutoRegressiveDiagonalNoiseObservations =>
      exists S0 S1 nu, Sigmas_init m = Ok S0 /\ Sigmas m = Ok S1 /\ nus m = Ok nu
                       /\ length S0 = K m /\ length S1 = K m /\ length nu = K m
  | AutoRegressiveDiagonalNoiseObservations =>
      exists S0 S1 s0 s1, Sigmas_init m = Ok S0 /\ Sigmas m = Ok S1
                          /\ sigmasq_init m = Ok s0 /\ sigmasq m = Ok s1
                          /\ length S0 = K m /\ length S1 = K m
                          /\ length s0 = K m /\ length s1 = K m
  | IndependentAutoRegressiveObservations =>
      exists s0 s1, sigmasq_init m = Ok s0 /\ sigmasq m = Ok s1
                    /\ length s0 = K m /\ length s1 = K m
  | AltRobustAutoRegressiveDiagonalNoiseObservations =>
      exists s0 s1 nu, sigmasq_init m = Ok s0 /\ sigmasq m = Ok s1
                       /\ nus_per_dim m = Ok nu
                       /\ length s0 = K m /\ length s1 = K m /\ length nu = K m
                       /\ forall z, (z < K m)%nat ->
                            length (nth z s1 []) = D m /\ length (nth z nu []) = D m
  end.
Proof.
  unfold coherent. intros H. apply andb_prop in H. destruct H as [_ H].
  unfold Sigmas_init, Sigmas, sigmasq_init, sigmasq, nus, nus_per_dim,
    get_sqrt_Sigmas_init, get_sqrt_Sigmas, get_log_sigmasq_init, get_log_sigmasq.
  destruct (kind m); destruct (noise_params m) as [s0 s | l0 l];
    destruct (nus_params m) as [ | nu | nu]; try discriminate H.
  - split_lengths. do 2 eexists. cbn [bind].
    repeat split; rewrite ?length_map; assumption.
  - split_lengths. do 4 eexists. cbn [bind].
    repeat split; rewrite ?length_map; assumption.
  - split_lengths. do 2 eexists. cbn [bind].
    repeat split; rewrite ?length_map; assumption.
  - split_lengths. do 3 eexists. cbn [bind].
    repeat split; rewrite ?length_map; assumption.
  - split_lengths. do 3 eexists. cbn [bind].
    repeat split; rewrite ?length_map; assumption.
  - apply andb_prop in H. destruct H as [H Hnu].
    apply andb_prop in H. destruct H as [Hl0 Hl].
    apply has_shape2_spec in Hl. apply has_shape2_spec in Hnu.
    apply has_shape2_length in Hl0. destruct Hl as [Hl1 Hl2]. destruct Hnu as [Hn1 Hn2].
    do 3 eexists. cbn [bind].
    repeat split; rewrite ?length_map; try assumption.
    + rewrite (nth_map_in_range (map exp) l z [] []) by lia.
      rewrite length_map. apply Hl2. exact H.
    + rewrite (nth_map_in_range (map exp) nu z [] []) by lia.
      rewrite length_map. apply Hn2. exact H.
Qed.

Section SamplerErrors.
Context {N : Numerics}.

(** A state index [z >= K] makes [sample_x] raise [IndexError] in every
    class, for every history, input and noise setting. *)
Theorem sample_x_bad_state (m : model) (z : nat) (xhist : mat) (input : option vec)
    (with_noise : bool) (randn : vec) (tau : R) (taus : vec) :
  well_shaped m = true -> coherent m = true -> (0 < K m)%nat ->
  (K m <= z)%nat ->
  sample_x m z xhist input with_noise randn tau taus = Raise IndexError.
Proof.
  intros Hws Hco HK Hz.
  destruct (well_shaped_state m 0%nat Hws HK)
    as (Hl & Hmu & _ & Hb & _ & HA & _ & HV & _).
  pose proof (coherent_getters m Hco) as Hg.
  unfold sample_x, sample_x_full, sample_x_robust, sample_x_independent, sample_x_alt,
    sample_mean, cholesky_or_zero.
  destruct (kind m).
  - destruct Hg as (S0 & S1 & E0 & E1 & L0 & L1). rewrite E0, E1.
    destruct (length xhist <? lags m)%nat, with_noise; cbn [bind];
      rewrite ?(item_Raise S0), ?(item_Raise (mu_init m)), ?(item_Raise (Vs m)) by lia;
      reflexivity.
  - destruct Hg as (S0 & S1 & s0 & s1 & E0 & E1 & _ & _ & L0 & L1 & _).
    rewrite E0, E1.
    destruct (length xhist <? lags m)%nat, with_noise; cbn [bind];
      rewrite ?(item_Raise S0), ?(item_Raise (mu_init m)), ?(item_Raise (Vs m)) by lia;
      reflexivity.
  - destruct Hg as (s0 & s1 & E0 & E1 & L0 & L1). rewrite E0, E1. cbv zeta.
    destruct (length xhist <? lags m)%nat, with_noise; cbn [bind];
      rewrite ?(item_Raise s0), ?(item_Raise (mu_init m)), ?(item_Raise (bs m)) by lia;
      reflexivity.
  - destruct Hg as (S0 & S1 & nu & E0 & E1 & E2 & L0 & L1 & L2). rewrite E0, E1, E2.
    destruct (length xhist <? lags m)%nat, with_noise; cbn [bind];
      rewrite ?(item_Raise S0), ?(item_Raise (mu_init m)), ?(item_Raise (Vs m)) by lia;
      reflexivity.
  - destruct Hg as (S0 & S1 & nu & E0 & E1 & E2 & L0 & L1 & L2). rewrite E0, E1, E2.
    destruct (length xhist <? lags m)%nat, with_noise; cbn [bind];
      rewrite ?(item_Raise S0), ?(item_Raise (mu_init m)), ?(item_Raise (Vs m)) by lia;
      reflexivity.
  - destruct Hg as (s0 & s1 & nu & E0 & E1 & E2 & L0 & L1 & L2 & _).
    rewrite E0, E1, E2.
    destruct (length xhist <? lags m)%nat, with_noise; cbn [bind];
      rewrite ?(item_Raise s0), ?(item_Raise (mu_init m)), ?(item_Raise (bs m)) by lia;
      reflexivity.
Qed.

(** The keyword [input] defaults to [None].  Once the history has [lags]
    rows, the four samplers with an input term evaluate [input[:M]] and
    raise [TypeError] on [None], even for [M = 0]. *)
Theorem sample_x_needs_input (m : model) (z : nat) (xhist : mat)
    (with_noise : bool) (randn : vec) (tau : R) (taus : vec) :
  samples_with_input (kind m) = true ->
  well_shaped m = true -> coherent m = true ->
  (z < K m)%nat -> (lags m <= length xhist)%nat ->
  sample_x m z xhist None with_noise randn tau taus = Raise TypeError.
Proof.
  intros Hfam Hws Hco Hz Hx.
  destruct (well_shaped_state m z Hws Hz)
    as (Hl & Hmu & _ & Hb & _ & HA & _ & HV & _).
  pose proof (coherent_getters m Hco) as Hg.
  unfold sample_x, sample_x_full, sample_x_robust, sample_mean.
  destruct (Nat.ltb_spec (length xhist) (lags m)) as [Hlt | _]; [lia | ].
  destruct (kind m); try discriminate Hfam.
  - rewrite (item_Ok (Vs m) z []) by lia. reflexivity.
  - rewrite (item_Ok (Vs m) z []) by lia. reflexivity.
  - destruct Hg as (S0 & S1 & nu & E0 & E1 & E2 & _). rewrite E1, E2. cbn [bind].
    rewrite (item_Ok (Vs m) z []) by lia. reflexivity.
  - destruct Hg as (S0 & S1 & nu & E0 & E1 & E2 & _). rewrite E1, E2. cbn [bind].
    rewrite (item_Ok (Vs m) z []) by lia. reflexivity.
Qed.


End SamplerErrors.

Lemma sample_x_bad_state_witness :
  @sample_x example_numerics independent_2x1 2 [[1]] None true [0] 1 []
  = Raise IndexError.
Proof.
  apply (@sample_x_bad_state example_numerics independent_2x1 2 [[1]] None true [0] 1 []);
    try reflexivity; simpl; lia.
Defined.

Lemma sample_x_needs_input_witness :
  @sample_x example_numerics gaussian_2x1 0 [[1]] None true [0] 1 [] = Raise TypeError.
Proof.
  apply (@sample_x_needs_input example_numerics gaussian_2x1 0 [[1]] true [0] 1 []);
    try reflexivity; simpl; lia.
Defined.


(** ** What no M-step touches *)

(** The initial noise parameters as stored, and the attributes an
    instance of each class has. *)
Definition initial_noise (m : model) : tensor3 + mat :=
  match noise_params m with
  | SqrtSigmas s0 _ => inl s0
  | LogSigmasq l0 _ => inr l0
  end.

Definition noise_of_class (m : model) : bool :=
  match kind m, noise_params m with
  | AutoRegressiveObservations, SqrtSigmas _ _
  | RobustAutoRegressiveObservations, SqrtSigmas _ _ => true
  | AutoRegressiveDiagonalNoiseObservations, LogSigmasq _ _
  | IndependentAutoRegressiveObservations, LogSigmasq _ _
  | RobustAutoRegressiveDiagonalNoiseObservations, LogSigmasq _ _
  | AltRobustAutoRegressiveDiagonalNoiseObservations, LogSigmasq _ _ => true
  | _, _ => false
  end.

(** [m'] differs from [m] at most in the lag coefficients, [Vs], [bs], the
    steady-state noise parameters and the degrees of freedom. *)
Definition same_frame (m m' : model) : Prop :=
  kind m' = kind m /\ K m' = K m /\ D m' = D m /\ M m' = M m /\ lags m' = lags m
  /\ mu_init m' = mu_init m
  /\ l2_penalty_A m' = l2_penalty_A m /\ l2_penalty_b m' = l2_penalty_b m
  /\ l2_penalty_V m' = l2_penalty_V m
  /\ initial_noise m' = initial_noise m
  /\ noise_of_class m' = true.

Definition keeps (m : model) (o : outcome) : Prop :=
  forall m', final_state o = Some m' -> same_frame m m'.

Lemma same_frame_refl (m : model) : noise_of_class m = true -> same_frame m m.
Proof. intros H. unfold same_frame. repeat split; auto. Qed.

Lemma same_frame_trans (m m1 m2 : model) :
  same_frame m m1 -> same_frame m1 m2 -> same_frame m m2.
Proof.
  unfold same_frame. intros H1 H2.
  repeat match goal with H : _ /\ _ |- _ => destruct H end.
  repeat split; congruence.
Qed.

Lemma same_frame_noise (m m' : model) : same_frame m m' -> noise_of_class m' = true.
Proof. intros H. apply H. Qed.

Lemma same_frame_kind (m m' : model) : same_frame m m' -> kind m' = kind m.
Proof. intros H. apply H. Qed.

(** Closes [same_frame m m'] where [m'] is [m] under a stack of setters. *)
Ltac frame_setters :=
  repeat match goal with m : model |- _ => destruct m end;
  unfold same_frame, initial_noise, noise_of_class, set_log_sigmasq,
    set_sqrt_Sigmas, set_log_sigmasq_init in *;
  cbn [kind K D M lags mu_init _As bs Vs noise_params nus_params
       l2_penalty_A l2_penalty_b l2_penalty_V
       set_mu_init set__As set_bs set_Vs set_noise set_nus] in *;
  repeat match goal with
         | v : variant |- _ => destruct v
         | n : noise |- _ => destruct n
         end;
  cbn [kind K D M lags mu_init _As bs Vs noise_params nus_params
       l2_penalty_A l2_penalty_b l2_penalty_V
       set_mu_init set__As set_bs set_Vs set_noise set_nus] in *;
  try discriminate; repeat split; try reflexivity; try congruence.

Lemma keeps_Returned (m m' : model) : same_frame m m' -> keeps m (Returned m').
Proof. intros H m'' E. inversion E; subst. exact H. Qed.

Lemma keeps_Raised (m m' : model) (e : exn) : same_frame m m' -> keeps m (Raised e m').
Proof. intros H m'' E. inversion E; subst. exact H. Qed.

Lemma keeps_NonFinite (m : model) : keeps m NonFinite.
Proof. intros m' E. discriminate. Qed.

Lemma keeps_and_then (m : model) (o : outcome) (f : model -> outcome) :
  keeps m o -> (forall m1, same_frame m m1 -> keeps m1 (f m1)) -> keeps m (o >>= f).
Proof.
  intros Ho Hf. destruct o as [m1 | e m1 | ]; simpl.
  - intros m' E. apply (same_frame_trans m m1 m').
    + apply Ho. reflexivity.
    + apply (Hf m1); [apply Ho; reflexivity | exact E].
  - exact Ho.
  - apply keeps_NonFinite.
Qed.

Lemma keeps_frame (m m1 : model) (o : outcome) :
  same_frame m m1 -> keeps m1 o -> keeps m o.
Proof.
  intros H Ho m' E. apply (same_frame_trans m m1 m'); [exact H | apply Ho; exact E].
Qed.

Lemma keeps_As_setter (v : tensor3) (m : model) :
  noise_of_class m = true -> keeps m (As_setter v m).
Proof.
  intros H. unfold As_setter. destruct (is_independent (kind m)).
  - apply keeps_Raised. apply same_frame_refl. exact H.
  - apply keeps_Returned. clear - H. frame_setters.
Qed.

Section Frames.
Context {N : Numerics}.

Lemma keeps_Sigmas_setter_computed (value : list (option mat)) (m : model) :
  noise_of_class m = true -> keeps m (Sigmas_setter_computed value m).
Proof.
  intros H. unfold Sigmas_setter_computed, Sigmas_setter, Sigmas_setter_full,
    Sigmas_setter_diagonal, assign.
  destruct (those value) as [fin | ].
  - destruct (kind m) eqn:Hk;
      repeat match goal with
             | |- keeps _ (if ?c then _ else _) => destruct c
             | |- keeps _ (match ?r with Ok _ => _ | Raise _ => _ end) => destruct r
             end;
      try (apply keeps_Raised; apply same_frame_refl; exact H);
      try (apply keeps_Returned; try (apply same_frame_refl; exact H));
      clear - H Hk; frame_setters.
  - destruct (kind m); try (apply keeps_Raised; apply same_frame_refl; exact H);
      apply keeps_Returned; apply same_frame_refl; exact H.
Qed.

Lemma keeps_m_step_gaussian (rng : nat -> draw) (seqs : list obs_seq)
    (J0 h0 : option tensor3) (m : model) :
  noise_of_class m = true -> keeps m (m_step_gaussian rng seqs J0 h0 m).
Proof.
  intros H. unfold m_step_gaussian. cbv zeta.
  destruct (collect (lags m) (M m) seqs) as [xyz | e];
    [ | apply keeps_Raised; apply same_frame_refl; exact H].
  destruct (check_prior m J0 h0) as [[] | e];
    [ | apply keeps_Raised; apply same_frame_refl; exact H].
  destruct (solve_batch _ _) as [mus | e];
    [ | apply keeps_Raised; apply same_frame_refl; exact H].
  apply keeps_and_then; [apply keeps_As_setter; exact H | intros m1 H1].
  pose proof (same_frame_noise _ _ H1) as Hn1.
  assert (Hleaf : forall (A V : tensor3) (b : mat) (Sg : list (option mat)),
            keeps m1 (Sigmas_setter_computed Sg
                        (set_bs b (set_Vs V (set__As A
                           (set_bs (bs_of_solution mus)
                              (set_Vs (Vs_of_solution (D m1) (lags m1) (M m1) mus) m1))))))).
  { intros A V b Sg. eapply keeps_frame; [ | apply keeps_Sigmas_setter_computed].
    - clear - Hn1. frame_setters.
    - clear - Hn1. frame_setters. }
  assert (Hraise : keeps m1 (Raised ValueError
                     (set_bs (bs_of_solution mus)
                        (set_Vs (Vs_of_solution (D m1) (lags m1) (M m1) mus) m1)))).
  { apply keeps_Raised. clear - Hn1. frame_setters. }
  destruct xyz as [ | p xyz]; [exact Hraise | ].
  match goal with
  | |- keeps _ (match ?u with _ => _ end) => destruct u
  end.
  - destruct (reinit_unused _ _ _ _ _) as [[[A V] b] Sg]. apply Hleaf.
  - match goal with
    | |- keeps _ (match ?u with _ => _ end) => destruct u
    end; [exact Hraise | ].
    destruct (reinit_unused _ _ _ _ _) as [[[A V] b] Sg]. apply Hleaf.
Qed.

End Frames.

Lemma keeps_fold (m : model) (f : nat -> model -> outcome) (ks : list nat) :
  (forall k m1, same_frame m m1 -> keeps m1 (f k m1)) ->
  forall o, keeps m o -> keeps m (fold_left (fun o k => o >>= f k) ks o).
Proof.
  intros Hf. induction ks as [ | k ks IH]; intros o Ho; simpl; [exact Ho | ].
  apply IH. apply keeps_and_then; [exact Ho | intros m1 H1; apply Hf; exact H1].
Qed.

Section FramesRobust.
Context {N : Numerics}.

Lemma keeps_robust_update (xyz : list (mat * mat * mat)) (taus : list mat)
    (prior : option tensor3 * option tensor3) (m : model) :
  noise_of_class m = true -> keeps m (fst (robust_update xyz taus prior m)).
Proof.
  intros H. unfold robust_update. cbv zeta.
  destruct (check_prior m (fst prior) (snd prior)) as [[] | e];
    [ | apply keeps_Raised; apply same_frame_refl; exact H].
  match goal with
  | |- keeps _ (fst (match ?s with Ok _ => _ | Raise _ => _ end)) =>
      destruct s as [mus | e]
  end; [ | apply keeps_Raised; apply same_frame_refl; exact H].
  cbn [fst].
  apply keeps_and_then; [apply keeps_As_setter; exact H | intros m1 H1].
  pose proof (same_frame_noise _ _ H1) as Hn1.
  eapply keeps_frame; [ | apply keeps_Sigmas_setter_computed].
  - clear - Hn1. frame_setters.
  - clear - Hn1. frame_setters.
Qed.

Lemma keeps_robust_em (n : nat) (xyz : list (mat * mat * mat)) :
  forall prior m, noise_of_class m = true -> keeps m (robust_em n xyz prior m).
Proof.
  induction n as [ | n IH]; intros prior m H; simpl.
  - apply keeps_Returned. apply same_frame_refl. exact H.
  - unfold robust_iteration.
    destruct (e_steps_robust m xyz) as [taus | e];
      [ | apply keeps_Raised; apply same_frame_refl; exact H].
    pose proof (keeps_robust_update xyz taus prior m H) as Hu.
    destruct (robust_update xyz taus prior m) as [[m1 | e m1 | ] prior'];
      cbn [fst] in Hu.
    + apply (keeps_frame m m1); [apply Hu; reflexivity | ].
      apply IH. apply (same_frame_noise m m1). apply Hu. reflexivity.
    + exact Hu.
    + apply keeps_NonFinite.
Qed.

Lemma keeps_newton_loop (stats : list (R * (R * R))) :
  forall k m, noise_of_class m = true -> keeps m (newton_loop k stats m).
Proof.
  induction stats as [ | [a [b w]] stats IH]; intros k m H; simpl.
  - apply keeps_Returned. apply same_frame_refl. exact H.
  - destruct (generalized_newton_studentst_dof _ _);
      [ | apply keeps_NonFinite | apply keeps_Raised; apply same_frame_refl; exact H].
    destruct (Rltb 0 nu); [ | apply keeps_NonFinite].
    destruct (nus_params m) as [ | l | l];
      try (apply keeps_Raised; apply same_frame_refl; exact H).
    eapply keeps_frame; [ | apply IH].
    + clear - H. frame_setters.
    + clear - H. frame_setters.
Qed.

Lemma keeps_m_step_robust (seqs : list obs_seq) (n : nat)
    (J0 h0 : option tensor3) (m : model) :
  noise_of_class m = true -> keeps m (m_step_robust seqs n J0 h0 m).
Proof.
  intros H. unfold m_step_robust, m_step_ar_robust, m_step_nu_robust.
  apply keeps_and_then.
  - destruct (collect (lags m) (M m) seqs) as [xyz | e];
      [ | apply keeps_Raised; apply same_frame_refl; exact H].
    apply keeps_robust_em. exact H.
  - intros m1 H1. pose proof (same_frame_noise _ _ H1) as Hn1.
    destruct (sequence (map (nu_statistics m1) seqs)) as [stats | e];
      [ | apply keeps_Raised; apply same_frame_refl; exact Hn1].
    destruct (fold_left _ stats _) as [[a b] c].
    apply keeps_newton_loop. exact Hn1.
Qed.

Lemma keeps_alt_update (xyz : list (mat * mat * mat)) (taus : list tensor3)
    (m : model) :
  noise_of_class m = true ->
  kind m = AltRobustAutoRegressiveDiagonalNoiseObservations ->
  keeps m (alt_update xyz taus m).
Proof.
  intros H Hk. unfold alt_update. cbv zeta.
  match goal with
  | |- keeps _ (match ?s with Ok _ => _ | Raise _ => _ end) => destruct s as [mus | e]
  end; [ | apply keeps_Raised; apply same_frame_refl; exact H].
  apply keeps_and_then; [apply keeps_As_setter; exact H | intros m1 H1].
  pose proof (same_frame_noise _ _ H1) as Hn1.
  pose proof (same_frame_kind _ _ H1) as Hk1. rewrite Hk in Hk1.
  destruct xyz as [ | p xyz]; [apply keeps_Raised; clear - Hn1; frame_setters | ].
  destruct (log_variances _ _) as [l | ]; [ | apply keeps_NonFinite].
  apply keeps_Returned. clear - Hn1 Hk1. frame_setters.
Qed.

Lemma keeps_alt_em (n : nat) (xyz : list (mat * mat * mat)) :
  forall m, noise_of_class m = true ->
            kind m = AltRobustAutoRegressiveDiagonalNoiseObservations ->
            keeps m (alt_em n xyz m).
Proof.
  induction n as [ | n IH]; intros m H Hk; simpl.
  - apply keeps_Returned. apply same_frame_refl. exact H.
  - apply keeps_and_then.
    + unfold alt_iteration. destruct (e_steps_alt m xyz) as [taus | e];
        [ | apply keeps_Raised; apply same_frame_refl; exact H].
      apply keeps_alt_update; assumption.
    + intros m1 H1. apply IH; [apply (same_frame_noise m m1 H1) | ].
      rewrite (same_frame_kind m m1 H1). exact Hk.
Qed.

Lemma keeps_newton_loop_alt (kds : list (nat * nat)) (E_taus E_logtaus : mat)
    (weights : vec) :
  forall m, noise_of_class m = true ->
            keeps m (newton_loop_alt kds E_taus E_logtaus weights m).
Proof.
  induction kds as [ | [k d] kds IH]; intros m H; simpl.
  - apply keeps_Returned. apply same_frame_refl. exact H.
  - destruct (generalized_newton_studentst_dof _ _);
      [ | apply keeps_NonFinite | apply keeps_Raised; apply same_frame_refl; exact H].
    destruct (Rltb 0 nu); [ | apply keeps_NonFinite].
    destruct (nus_params m) as [ | l | l];
      try (apply keeps_Raised; apply same_frame_refl; exact H).
    eapply keeps_frame; [ | apply IH].
    + clear - H. frame_setters.
    + clear - H. frame_setters.
Qed.

Lemma keeps_m_step_alt (seqs : list obs_seq) (n : nat) (m : model) :
  noise_of_class m = true ->
  kind m = AltRobustAutoRegressiveDiagonalNoiseObservations ->
  keeps m (m_step_alt seqs n m).
Proof.
  intros H Hk. unfold m_step_alt, m_step_ar_alt, m_step_nu_alt.
  apply keeps_and_then.
  - destruct (collect (lags m) (M m) seqs) as [xyz | e];
      [ | apply keeps_Raised; apply same_frame_refl; exact H].
    apply keeps_alt_em; assumption.
  - intros m1 H1. pose proof (same_frame_noise _ _ H1) as Hn1.
    destruct (sequence (map (nu_statistics_alt m1) seqs)) as [stats | e];
      [ | apply keeps_Raised; apply same_frame_refl; exact Hn1].
    destruct (fold_left _ stats _) as [[a b] c].
    apply keeps_newton_loop_alt. exact Hn1.
Qed.

Lemma keeps_m_step_state (d k : nat) (xs : mat) (ys : vec) (weights : mat) (m : model) :
  noise_of_class m = true ->
  kind m = IndependentAutoRegressiveObservations ->
  keeps m (m_step_state d k xs ys weights m).
Proof.
  intros H Hk. unfold m_step_state, assign, get_log_sigmasq. cbv zeta.
  repeat match goal with
         | |- keeps _ (if ?c then _ else _) => destruct c
         | |- keeps _ (match ?r with Ok _ => _ | Raise _ => _ end) => destruct r
         | |- keeps _ (match ?r with Some _ => _ | None => _ end) => destruct r
         | |- keeps _ (match bind ?r _ with Ok _ => _ | Raise _ => _ end) =>
             destruct r eqn:?; cbn [bind]
         | |- keeps _ (match (match ?r with SqrtSigmas _ _ => _ | LogSigmasq _ _ => _ end)
                       with Ok _ => _ | Raise _ => _ end) => destruct r eqn:?; cbn [bind]
         end;
    try apply keeps_NonFinite;
    try (apply keeps_Raised; try (apply same_frame_refl; exact H));
    try (apply keeps_Returned);
    clear - H Hk; frame_setters.
Qed.

Lemma keeps_m_step_independent (seqs : list obs_seq) (m : model) :
  noise_of_class m = true ->
  kind m = IndependentAutoRegressiveObservations ->
  keeps m (m_step_independent seqs m).
Proof.
  intros H Hk. unfold m_step_independent.
  apply keeps_fold; [ | apply keeps_Returned; apply same_frame_refl; exact H].
  intros d m1 H1. pose proof (same_frame_noise _ _ H1) as Hn1.
  pose proof (same_frame_kind _ _ H1) as Hk1. rewrite Hk in Hk1.
  unfold m_step_dim.
  destruct (collect_dim (lags m1) (M m1) d seqs) as [[ | p parts] | e];
    try (apply keeps_Raised; apply same_frame_refl; exact Hn1).
  match goal with
  | |- keeps _ (match ?xs with [] => _ | _ :: _ => _ end) => destruct xs
  end.
  - apply keeps_Returned. clear - Hn1. frame_setters.
  - apply keeps_fold; [ | apply keeps_Returned; apply same_frame_refl; exact Hn1].
    intros k m2 H2. apply keeps_m_step_state.
    + apply (same_frame_noise m1 m2 H2).
    + rewrite (same_frame_kind m1 m2 H2). exact Hk1.
Qed.

(** No M-step fits the initial-state distribution.  However [m_step] ends
    on an instance with the attributes of its class (by returning, or by
    raising part-way with some parameters already replaced), the instance
    it leaves has the same class, [K], [D], [M], [lags] and penalties, the
    same [mu_init], and the same initial covariances and variances. *)
Theorem m_step_keeps_initial_distribution (rng : nat -> draw) (seqs : list obs_seq)
    (cfg : m_step_config) (m : model) :
  noise_of_class m = true ->
  forall m', final_state (m_step rng seqs cfg m) = Some m' ->
    kind m' = kind m /\ K m' = K m /\ D m' = D m /\ M m' = M m /\ lags m' = lags m
    /\ mu_init m' = mu_init m
    /\ Sigmas_init m' = Sigmas_init m
    /\ sigmasq_init m' = sigmasq_init m.
Proof.
  intros H m' E.
  assert (Hf : same_frame m m').
  { revert m' E. change (keeps m (m_step rng seqs cfg m)). unfold m_step.
    destruct (kind m) eqn:Hk.
    - apply keeps_m_step_gaussian. exact H.
    - apply keeps_m_step_gaussian. exact H.
    - apply keeps_m_step_independent; assumption.
    - apply keeps_m_step_robust. exact H.
    - apply keeps_m_step_robust. exact H.
    - apply keeps_m_step_alt; assumption. }
  destruct Hf as (F1 & F2 & F3 & F4 & F5 & F6 & _ & _ & _ & F10 & _).
  repeat (split; [assumption | ]).
  unfold Sigmas_init, sigmasq_init, get_sqrt_Sigmas_init, get_log_sigmasq_init.
  rewrite F1. unfold initial_noise in F10.
  destruct (noise_params m'), (noise_params m); inversion F10; subst;
    split; reflexivity.
Qed.

End FramesRobust.


(** ** The Gaussian M-step when no state is used *)

Section GaussianNoUsedState.
Context {N : Numerics}.

(** When no state has usage above 1 and the loop over the unused states
    runs (some state has usage below 1, or the list of sequences is
    empty), the Gaussian [m_step] raises [ValueError] from [npr.choice] on
    an empty array.  The lag coefficients, [Vs] and [bs] have been replaced
    by the regression solution by then; the covariances are as they
    were. *)
Theorem m_step_gaussian_no_used_state (rng : nat -> draw) (seqs : list obs_seq)
    (cfg : m_step_config) (m : model) (xyz : list (mat * mat * mat)) (mus : tensor3) :
  kind m = AutoRegressiveObservations
  \/ kind m = AutoRegressiveDiagonalNoiseObservations ->
  J0 cfg = None -> h0 cfg = None ->
  collect (lags m) (M m) seqs = Ok xyz ->
  solve_batch (fst (normal_equations m xyz)) (snd (normal_equations m xyz)) = Ok mus ->
  used_states (K m) (state_usage m seqs) = [] ->
  seqs = [] \/ unused_states (K m) (state_usage m seqs) <> [] ->
  exists m',
    m_step rng seqs cfg m = Raised ValueError m'
    /\ _As m' = As_of_solution (D m) (lags m) mus
    /\ Vs m' = Vs_of_solution (D m) (lags m) (M m) mus
    /\ bs m' = bs_of_solution mus
    /\ noise_params m' = noise_params m.
Proof.
  intros Hkind HJ Hh Hc Hs Hused Hun.
  assert (Hind : is_independent (kind m) = false)
    by (destruct Hkind as [-> | ->]; reflexivity).
  assert (Hm : m_step rng seqs cfg m = m_step_gaussian rng seqs None None m)
    by (unfold m_step; rewrite HJ, Hh; destruct Hkind as [-> | ->]; reflexivity).
  rewrite Hm. clear Hm.
  pose proof (collect_Ok _ _ _ _ Hc) as Hxyz.
  assert (Hu : usage (K m) (map (fun '(_, _, Ez) => Ez) xyz) = state_usage m seqs).
  { unfold state_usage. rewrite Hxyz, map_map. reflexivity. }
  unfold m_step_gaussian. rewrite Hc. cbn [check_prior]. cbv zeta.
  unfold normal_equations in Hs. rewrite Hs.
  unfold As_setter. rewrite Hind. cbn [and_then].
  set (m2 := set_bs (bs_of_solution mus)
               (set_Vs (Vs_of_solution (D (set__As (As_of_solution (D m) (lags m) mus) m))
                          (lags (set__As (As_of_solution (D m) (lags m) mus) m))
                          (M (set__As (As_of_solution (D m) (lags m) mus) m)) mus)
                  (set__As (As_of_solution (D m) (lags m) mus) m))).
  change (K m2) with (K m). rewrite Hu, Hused.
  exists m2.
  split; [ | repeat split; reflexivity].
  destruct Hun as [-> | Hun].
  - simpl in Hxyz. subst xyz. reflexivity.
  - destruct xyz; [reflexivity | ].
    destruct (unused_states (K m) (state_usage m seqs)); [congruence | reflexivity].
Qed.

End GaussianNoUsedState.

Lemma m_step_gaussian_no_used_state_witness :
  exists m',
    @m_step example_numerics unit_noise [] default_config gaussian_1x1
    = Raised ValueError m'
    /\ bs m' = [[0 / (1 / 100000000)]]
    /\ noise_params m' = noise_params gaussian_1x1.
Proof.
  edestruct (@m_step_gaussian_no_used_state example_numerics unit_noise []
               default_config gaussian_1x1) as (m' & E & _ & _ & Hb & Hn).
  - left. reflexivity.
  - reflexivity.
  - reflexivity.
  - reflexivity.
  - unfold solve_batch. cbn. unfold solve_diagonal. cbn. decide_R. cbn. reflexivity.
  - cbn. decide_R. reflexivity.
  - left. reflexivity.
  - exists m'. split; [exact E | ]. split; [exact Hb | exact Hn].
Defined.

Lemma m_step_keeps_initial_distribution_witness :
  exists m',
    @m_step example_numerics unit_noise [] default_config gaussian_1x1
    = Raised ValueError m'
    /\ bs m' <> bs gaussian_1x1
    /\ mu_init m' = [[0]]
    /\ Sigmas_init m' = Sigmas_init gaussian_1x1.
Proof.
  assert (E : exists m',
            @m_step example_numerics unit_noise [] default_config gaussian_1x1
            = Raised ValueError m'
            /\ bs m' = [[0 / (1 / 100000000)]]).
  { unfold m_step, m_step_gaussian. cbn. unfold solve_batch. cbn.
    unfold solve_diagonal. cbn. decide_R. cbn.
    eexists. split; reflexivity. }
  destruct E as (m' & E & Hb). exists m'. split; [exact E | ].
  split.
  { rewrite Hb. cbn. intros H. inversion H. lra. }
  destruct (@m_step_keeps_initial_distribution example_numerics unit_noise
              [] default_config gaussian_1x1 eq_refl m')
    as (_ & _ & _ & _ & _ & Hmu & HS & _).
  { rewrite E. reflexivity. }
  split; [exact Hmu | exact HS].
Defined.

(** ** The independent M-step on a dimension without data *)

Lemma collect_dim_masked (lags M d : nat) (seqs : list obs_seq) :
  forallb (fun s => negb (forallb (fun row => nth d row false) (sq_mask s))) seqs = true ->
  collect_dim lags M d seqs = Ok [].
Proof.
  induction seqs as [ | s seqs IH]; simpl; intros H; [reflexivity | ].
  apply andb_prop in H. destruct H as [Hs H].
  apply negb_true_iff in Hs. rewrite Hs. apply IH. exact H.
Qed.

Lemma fold_and_then_stuck (f : nat -> model -> outcome) (ks : list nat) (o : outcome) :
  (forall m, o <> Returned m) -> fold_left (fun o k => o >>= f k) ks o = o.
Proof.
  revert o. induction ks as [ | k ks IH]; intros o H; simpl; [reflexivity | ].
  destruct o as [m | e m | ]; [exfalso; apply (H m); reflexivity | | ];
    simpl; apply IH; discriminate.
Qed.

Lemma fold_and_then_blocked (f : nat -> model -> outcome) (d : nat) (ks : list nat) :
  (forall m1 m', f d m1 <> Returned m') -> In d ks ->
  forall o m', fold_left (fun o k => o >>= f k) ks o <> Returned m'.
Proof.
  intros Hd. induction ks as [ | k ks IH]; intros Hin o m'; [destruct Hin | ].
  simpl. destruct Hin as [-> | Hin]; [ | apply IH; exact Hin].
  rewrite fold_and_then_stuck.
  - destruct o; simpl; [apply Hd | discriminate | discriminate].
  - intros m1. destruct o; simpl; [apply Hd | discriminate | discriminate].
Qed.

Section IndependentMasked.
Context {N : Numerics}.

(** A dimension [d] whose mask column has a missing entry in every
    sequence (in particular: an empty list of sequences) leaves the
    independent [m_step] nothing to concatenate: the call never returns,
    and when [d] is the first dimension it raises [ValueError] with the
    instance untouched.  The branch meant for a dimension without data is
    not reached this way. *)
Theorem m_step_independent_masked_dimension (rng : nat -> draw) (seqs : list obs_seq)
    (cfg : m_step_config) (m : model) (d : nat) :
  kind m = IndependentAutoRegressiveObservations ->
  (d < D m)%nat ->
  forallb (fun s => negb (forallb (fun row => nth d row false) (sq_mask s))) seqs = true ->
  (forall m', m_step rng seqs cfg m <> Returned m')
  /\ (d = 0%nat -> m_step rng seqs cfg m = Raised ValueError m).
Proof.
  intros Hk Hd Hmask. unfold m_step. rewrite Hk. unfold m_step_independent.
  assert (Hdim : forall m1, m_step_dim seqs d m1 = Raised ValueError m1).
  { intros m1. unfold m_step_dim. rewrite collect_dim_masked by exact Hmask.
    reflexivity. }
  split.
  - intros m'. apply fold_and_then_blocked with (d := d).
    + intros m1 m2. rewrite Hdim. discriminate.
    + apply in_seq. lia.
  - intros ->. destruct (D m) as [ | n]; [lia | ].
    rewrite <- cons_seq. cbn [fold_left and_then]. rewrite Hdim.
    apply fold_and_then_stuck. discriminate.
Qed.

End IndependentMasked.

Lemma m_step_independent_masked_dimension_witness :
  (forall m', @m_step example_numerics unit_noise [masked_sequence] default_config
                independent_1x1 <> Returned m')
  /\ (0%nat = 0%nat ->
      @m_step example_numerics unit_noise [masked_sequence] default_config independent_1x1
      = Raised ValueError independent_1x1).
Proof.
  apply (@m_step_independent_masked_dimension example_numerics unit_noise
           [masked_sequence] default_config independent_1x1 0);
    [reflexivity | simpl; lia | reflexivity].
Defined.

(** ** The constructors *)

Lemma tabulate_length {A : Type} (n : nat) (f : nat -> A) : length (tabulate n f) = n.
Proof. unfold tabulate. rewrite length_map, length_seq. reflexivity. Qed.

Lemma nth_tabulate {A : Type} (n : nat) (f : nat -> A) (i : nat) (d : A) :
  (i < n)%nat -> nth i (tabulate n f) d = f i.
Proof.
  intros H. unfold tabulate.
  rewrite (nth_map_in_range f (seq 0 n) i 0%nat d) by (rewrite length_seq; exact H).
  rewrite seq_nth by exact H. reflexivity.
Qed.

Lemma shape2_tabulate (n d : nat) (f : nat -> nat -> R) :
  has_shape2 (tabulate n (fun i => tabulate d (f i))) n d = true.
Proof.
  apply has_shape2_spec. split; [apply tabulate_length | ].
  intros i Hi. rewrite (nth_tabulate n _ i []) by exact Hi. apply tabulate_length.
Qed.

Lemma shape3_tabulate (n k d : nat) (f : nat -> nat -> nat -> R) :
  has_shape3 (tabulate n (fun i => tabulate k (fun j => tabulate d (f i j)))) n k d = true.
Proof.
  apply has_shape3_of_blocks; [apply tabulate_length | ].
  intros i Hi. rewrite (nth_tabulate n _ i []) by exact Hi. apply shape2_tabulate.
Qed.

Lemma shape2_repeat (n d : nat) (r : vec) :
  length r = d -> has_shape2 (repeat r n) n d = true.
Proof.
  intros H. apply has_shape2_spec. split; [apply repeat_length | ].
  intros i Hi. rewrite nth_repeat_lt by exact Hi. exact H.
Qed.

Lemma shape3_repeat (n k d : nat) (X : mat) :
  has_shape2 X k d = true -> has_shape3 (repeat X n) n k d = true.
Proof.
  intros H. apply has_shape3_of_blocks; [apply repeat_length | ].
  intros i Hi. rewrite nth_repeat_lt by exact Hi. exact H.
Qed.

Lemma shape2_eye (n : nat) : has_shape2 (eye n) n n = true.
Proof.
  unfold eye, diag. rewrite repeat_length.
  apply has_shape2_spec. split; [rewrite length_map, length_seq; reflexivity | ].
  intros i Hi.
  rewrite (nth_map_in_range _ (seq 0 n) i 0%nat []) by (rewrite length_seq; exact Hi).
  rewrite length_map, length_seq. reflexivity.
Qed.

Lemma shape3_initial_As (K D lags first : nat) (dr : init_draws) :
  (0 < lags)%nat ->
  (forall n, has_shape2 (random_rotation dr n) D D = true) ->
  has_shape3 (initial_As K D lags first dr) K D (D * lags) = true.
Proof.
  intros Hl Hrot. unfold initial_As.
  apply has_shape3_of_blocks; [apply tabulate_length | ].
  intros k Hk. rewrite (nth_tabulate K _ k []) by exact Hk.
  specialize (Hrot (first + k)%nat). apply has_shape2_spec in Hrot.
  destruct Hrot as [HR1 HR2].
  apply has_shape2_spec. unfold mscale, hstack.
  split; [rewrite !length_map, length_seq; exact HR1 | ].
  intros i Hi.
  rewrite (nth_map_in_range (vscale 0.95) _ i [] [])
    by (rewrite length_map, length_seq; lia).
  unfold vscale. rewrite length_map.
  rewrite (nth_map_in_range _ (seq 0 (length (random_rotation dr (first + k)))) i 0%nat [])
    by (rewrite length_seq; lia).
  rewrite seq_nth by lia. cbn [Nat.add map concat].
  rewrite app_nil_r, length_app, HR2 by exact Hi.
  unfold zeros2. rewrite nth_repeat_lt by exact Hi.
  unfold zeros. rewrite repeat_length.
  destruct lags as [ | l]; [lia | ]. cbn [Nat.sub]. rewrite Nat.sub_0_r.
  rewrite Nat.mul_succ_r. lia.
Qed.

Lemma dot_indicator (i s n : nat) (w : vec) :
  length w = n ->
  dot (map (fun j => if (i =? j)%nat then 1 else 0) (seq s n)) w
  = if ((s <=? i) && (i <? s + n))%nat then nth (i - s) w 0 else 0.
Proof.
  unfold dot, vmul, Rsum. revert s w.
  induction n as [ | n IH]; intros s w Hw.
  - simpl. destruct ((s <=? i) && (i <? s + 0))%nat eqn:E; [ | reflexivity].
    apply andb_prop in E. destruct E as [E1 E2].
    apply Nat.leb_le in E1. apply Nat.ltb_lt in E2. lia.
  - destruct w as [ | x w]; [discriminate | ]. simpl in Hw.
    cbn [seq map map2 fold_right].
    rewrite IH by lia.
    destruct (Nat.eqb_spec i s) as [-> | Hne].
    + rewrite Nat.sub_diag. cbn [nth].
      replace ((S s <=? s) && (s <? S s + n))%nat with false
        by (symmetry; apply andb_false_iff; left; apply Nat.leb_gt; lia).
      replace ((s <=? s) && (s <? s + S n))%nat with true
        by (symmetry; apply andb_true_iff; split;
            [apply Nat.leb_le; lia | apply Nat.ltb_lt; lia]).
      lra.
    + destruct ((S s <=? i) && (i <? S s + n))%nat eqn:E.
      * apply andb_prop in E. destruct E as [E1 E2].
        apply Nat.leb_le in E1. apply Nat.ltb_lt in E2.
        replace ((s <=? i) && (i <? s + S n))%nat with true
          by (symmetry; apply andb_true_iff; split;
              [apply Nat.leb_le; lia | apply Nat.ltb_lt; lia]).
        replace (i - s)%nat with (S (i - S s)) by lia. cbn [nth]. lra.
      * replace ((s <=? i) && (i <? s + S n))%nat with false; [lra | ].
        symmetry. apply andb_false_iff. apply andb_false_iff in E.
        destruct E as [E | E]; [left | right].
        -- apply Nat.leb_gt in E. apply Nat.leb_gt. lia.
        -- apply Nat.ltb_ge in E. apply Nat.ltb_ge. lia.
Qed.

Lemma eye_row (n i : nat) :
  (i < n)%nat ->
  nth i (eye n) [] = map (fun j => if (i =? j)%nat then 1 else 0) (seq 0 n).
Proof.
  intros Hi. unfold eye, diag. rewrite repeat_length.
  rewrite (nth_map_in_range _ (seq 0 n) i 0%nat []) by (rewrite length_seq; exact Hi).
  rewrite seq_nth by exact Hi. cbn [Nat.add].
  apply map_ext. intros j. rewrite nth_repeat_lt by exact Hi. reflexivity.
Qed.

(** The identity is its own Gram matrix. *)
Lemma matmul_T_eye (n : nat) : matmul_T (eye n) = eye n.
Proof.
  unfold matmul_T, dot_T.
  apply (nth_ext _ _ [] []).
  { rewrite length_map. reflexivity. }
  intros i Hi. rewrite length_map in Hi.
  assert (Hn : length (eye n) = n)
    by (apply (has_shape2_length _ n n); apply shape2_eye).
  rewrite Hn in Hi.
  rewrite (nth_map_in_range _ (eye n) i [] []) by lia.
  transitivity (map (fun j => if (i =? j)%nat then 1 else 0) (seq 0 n));
    [ | symmetry; apply eye_row; exact Hi].
  apply (nth_ext _ _ 0 0).
  { rewrite !length_map, length_seq. exact Hn. }
  intros j Hj. rewrite length_map, Hn in Hj.
  rewrite (nth_map_in_range _ (eye n) j [] 0) by lia.
  rewrite (nth_map_in_range _ (seq 0 n) j 0%nat 0) by (rewrite length_seq; exact Hj).
  rewrite seq_nth by exact Hj. cbn [Nat.add].
  rewrite (eye_row n i Hi), (eye_row n j Hj).
  rewrite dot_indicator by (rewrite length_map, length_seq; reflexivity).
  replace ((0 <=? i) && (i <? 0 + n))%nat with true
    by (symmetry; apply andb_true_iff; split;
        [apply Nat.leb_le; lia | apply Nat.ltb_lt; lia]).
  rewrite Nat.sub_0_r.
  rewrite (nth_map_in_range _ (seq 0 n) i 0%nat 0) by (rewrite length_seq; exact Hi).
  rewrite seq_nth by exact Hi. cbn [Nat.add].
  rewrite Nat.eqb_sym. reflexivity.
Qed.

Lemma exp_log_four (l : vec) (n : nat) :
  map exp (map (Rmult (ln 4)) (repeat 1 n)) = repeat 4 n.
Proof.
  rewrite !map_repeat. f_equal. rewrite Rmult_1_r. apply exp_ln. lra.
Qed.

(** Every constructor rejects [lags = 0] with [AssertionError].  For
    [lags > 0] it returns an instance of the class with the shapes the
    methods rely on ([well_shaped], [coherent]): [mu_init] is zero, the
    initial covariance of every state is the identity (initial variances
    one), the diagonal-type classes start with unit variances, and the
    robust classes with four degrees of freedom. *)
Theorem init_well_formed (v : variant) (Kn Dn Mn Ln : nat) (pA pb pV : R)
    (dr : init_draws) :
  (forall n, has_shape2 (random_rotation dr n) Dn Dn = true) ->
  (Ln = 0%nat -> init v Kn Dn Mn Ln pA pb pV dr = Raise AssertionError)
  /\ ((0 < Ln)%nat ->
      exists m,
        init v Kn Dn Mn Ln pA pb pV dr = Ok m
        /\ kind m = v /\ K m = Kn /\ D m = Dn /\ M m = Mn /\ lags m = Ln
        /\ well_shaped m = true /\ coherent m = true
        /\ mu_init m = zeros2 Kn Dn
        /\ (is_independent v = false -> Sigmas_init m = Ok (repeat (eye Dn) Kn))
        /\ (is_full_class v = false ->
            sigmasq_init m = Ok (ones Kn Dn) /\ sigmasq m = Ok (ones Kn Dn))
        /\ match v with
           | RobustAutoRegressiveObservations
           | RobustAutoRegressiveDiagonalNoiseObservations => nus m = Ok (repeat 4 Kn)
           | AltRobustAutoRegressiveDiagonalNoiseObservations =>
               nus_per_dim m = Ok (repeat (repeat 4 Dn) Kn)
           | _ => nus_params m = NoNus
           end).
Proof.
  intros Hrot. split; [intros ->; reflexivity | ].
  intros HL. unfold init.
  destruct (Nat.eqb_spec Ln 0) as [-> | _]; [lia | ]. cbv zeta.
  eexists. split; [reflexivity | ].
  assert (Hz : has_shape2 (zeros2 Kn Dn) Kn Dn = true)
    by (apply shape2_repeat; unfold zeros; apply repeat_length).
  assert (HA : forall first, has_shape3 (initial_As Kn Dn Ln first dr) Kn Dn (Dn * Ln) = true)
    by (intros; apply shape3_initial_As; assumption).
  assert (HAi : has_shape3 (initial_As_independent Kn Dn Ln) Kn Dn Ln = true).
  { unfold initial_As_independent. apply shape3_repeat. apply shape2_repeat.
    cbn [length]. rewrite repeat_length. lia. }
  assert (Hb : has_shape2 (tabulate Kn (fun k => tabulate Dn (randn_bs dr k))) Kn Dn = true)
    by apply shape2_tabulate.
  assert (HV : has_shape3 (tabulate Kn (fun k => tabulate Dn
                             (fun d => tabulate Mn (randn_Vs dr k d)))) Kn Dn Mn = true)
    by apply shape3_tabulate.
  assert (Hsq : has_shape3 (tabulate Kn (fun k => tabulate Dn
                              (fun i => tabulate Dn (randn_sqrt_Sigmas dr k i))))
                  Kn Dn Dn = true)
    by apply shape3_tabulate.
  assert (He : has_shape3 (repeat (eye Dn) Kn) Kn Dn Dn = true)
    by (apply shape3_repeat; apply shape2_eye).
  assert (Hnu : length (map (Rmult (ln 4)) (repeat 1 Kn)) = Kn)
    by (rewrite length_map; apply repeat_length).
  assert (Hnu2 : has_shape2 (map (map (Rmult (ln 4))) (ones Kn Dn)) Kn Dn = true).
  { unfold ones. rewrite map_repeat. apply shape2_repeat.
    rewrite length_map. apply repeat_length. }
  assert (Hforall : forall (X : tensor3) n k d,
            has_shape3 X n k d = true ->
            (length X =? n)%nat = true
            /\ forallb (fun A => (length A =? k)%nat) X = true).
  { intros X n k d H. unfold has_shape3 in H. apply andb_prop in H.
    destruct H as [H1 H2]. split; [exact H1 | ].
    apply forallb_forall. intros A HA'. rewrite forallb_forall in H2.
    specialize (H2 A HA'). unfold has_shape2 in H2. apply andb_prop in H2. apply H2. }
  assert (Hexp0 : map (map exp) (zeros2 Kn Dn) = ones Kn Dn).
  { unfold zeros2, zeros, ones. rewrite !map_repeat, exp_0. reflexivity. }
  assert (Hdiag0 : map (fun log_s => diag (map exp log_s)) (zeros2 Kn Dn)
                   = repeat (eye Dn) Kn).
  { unfold zeros2, zeros. rewrite !map_repeat, exp_0. reflexivity. }
  assert (Hgram : map matmul_T (repeat (eye Dn) Kn) = repeat (eye Dn) Kn)
    by (rewrite map_repeat, matmul_T_eye; reflexivity).
  destruct (Hforall _ _ _ _ HV) as [HV1 HV2].
  destruct (Hforall _ _ _ _ (HA 0%nat)) as [HA1 HA2].
  destruct (Hforall _ _ _ _ (HA Kn)) as [HA3 HA4].
  destruct (Hforall _ _ _ _ HAi) as [HA5 HA6].
  assert (HLn : (0 <? Ln)%nat = true) by (apply Nat.ltb_lt; exact HL).
  destruct v; cbn [kind K D M lags mu_init _As bs Vs noise_params nus_params fst snd];
    (split; [reflexivity | ]); (split; [reflexivity | ]); (split; [reflexivity | ]);
    (split; [reflexivity | ]); (split; [reflexivity | ]);
    (split; [unfold well_shaped;
             cbn [kind K D M lags mu_init _As bs Vs noise_params nus_params fst snd];
             rewrite ?HLn, ?Hz, ?Hb, ?HV1, ?HV2, ?HA1, ?HA2, ?HA3, ?HA4, ?HA5, ?HA6;
             reflexivity | ]);
    (split; [unfold coherent;
             cbn [kind K D M lags mu_init _As bs Vs noise_params nus_params fst snd
                  is_independent];
             rewrite ?HA, ?HAi, ?HV, ?He, ?Hsq, ?Hz, ?Hnu, ?Hnu2, ?Nat.eqb_refl;
             reflexivity | ]);
    (split; [reflexivity | ]);
    unfold Sigmas_init, sigmasq_init, sigmasq, nus, nus_per_dim,
      get_sqrt_Sigmas_init, get_log_sigmasq_init, get_log_sigmasq;
    cbn [kind noise_params nus_params bind is_independent is_full_class];
    rewrite ?Hexp0, ?Hdiag0, ?Hgram;
    (split; [intros; try discriminate; reflexivity | ]);
    (split; [intros; try discriminate; split; reflexivity | ]);
    try reflexivity.
  - rewrite (exp_log_four [] Kn). reflexivity.
  - rewrite (exp_log_four [] Kn). reflexivity.
  - unfold ones. rewrite !map_repeat, Rmult_1_r, exp_ln by lra. reflexivity.
Qed.

Lemma init_well_formed_witness :
  init AltRobustAutoRegressiveDiagonalNoiseObservations 2 1 0 1 1 1 1
    {| randn_bs := fun _ _ => 0; randn_Vs := fun _ _ _ => 0;
       random_rotation := fun _ => [[1]]; randn_sqrt_Sigmas := fun _ _ _ => 0 |}
  = Ok (make_model AltRobustAutoRegressiveDiagonalNoiseObservations 2 1 [[0]; [0]]
          [[[0.95 * 1]]; [[0.95 * 1]]] [[0]; [0]] (LogSigmasq [[0]; [0]] [[0]; [0]])
          (LogNusPerDim [[ln 4 * 1]; [ln 4 * 1]]))
  /\ nus_per_dim (make_model AltRobustAutoRegressiveDiagonalNoiseObservations 2 1
                    [[0]; [0]] [[[0.95 * 1]]; [[0.95 * 1]]] [[0]; [0]]
                    (LogSigmasq [[0]; [0]] [[0]; [0]])
                    (LogNusPerDim [[ln 4 * 1]; [ln 4 * 1]]))
     = Ok [[4]; [4]].
Proof.
  destruct (init_well_formed AltRobustAutoRegressiveDiagonalNoiseObservations 2 1 0 1 1 1 1
              {| randn_bs := fun _ _ => 0; randn_Vs := fun _ _ _ => 0;
                 random_rotation := fun _ => [[1]];
                 randn_sqrt_Sigmas := fun _ _ _ => 0 |}) as [_ H].
  - intros n. reflexivity.
  - destruct (H ltac:(lia)) as (m & E & _ & _ & _ & _ & _ & _ & _ & _ & _ & _ & Hnu).
    assert (Em : init AltRobustAutoRegressiveDiagonalNoiseObservations 2 1 0 1 1 1 1
              {| randn_bs := fun _ _ => 0; randn_Vs := fun _ _ _ => 0;
                 random_rotation := fun _ => [[1]];
                 randn_sqrt_Sigmas := fun _ _ _ => 0 |}
            = Ok (make_model AltRobustAutoRegressiveDiagonalNoiseObservations 2 1
                    [[0]; [0]] [[[0.95 * 1]]; [[0.95 * 1]]] [[0]; [0]]
                    (LogSigmasq [[0]; [0]] [[0]; [0]])
                    (LogNusPerDim [[ln 4 * 1]; [ln 4 * 1]]))).
    { unfold init, make_model, initial_As, tabulate, mscale, vscale, hstack. cbn.
      reflexivity. }
    split; [exact Em | ].
    rewrite Em in E. inversion E; subst m. exact Hnu.
Defined.

(** ** The noise parameters the getters return *)

Lemma dot_nil_r (u : vec) : dot u [] = 0.
Proof. unfold dot, vmul. rewrite map2_nil_r. reflexivity. Qed.

Lemma dot_cons (a b : R) (u v : vec) : dot (a :: u) (b :: v) = a * b + dot u v.
Proof. reflexivity. Qed.

Lemma dot_vadd (a b w : vec) :
  length a = length w -> length b = length w ->
  dot (vadd a b) w = dot a w + dot b w.
Proof.
  revert b w. induction a as [ | x a IH]; intros [ | y b] [ | z w] Ha Hb;
    simpl in *; try discriminate.
  - unfold dot, vmul, Rsum. simpl. lra.
  - unfold vadd. cbn [map2]. rewrite !dot_cons. fold (vadd a b).
    rewrite IH by lia. lra.
Qed.

Lemma dot_vscale (c : R) (a w : vec) : dot (vscale c a) w = c * dot a w.
Proof.
  revert w. induction a as [ | x a IH]; intros [ | z w].
  - unfold dot, vmul, Rsum. simpl. lra.
  - unfold dot, vmul, Rsum. simpl. lra.
  - rewrite dot_nil_r. unfold vscale. rewrite dot_nil_r. lra.
  - unfold vscale. cbn [map]. rewrite !dot_cons. fold (vscale c a).
    rewrite IH. lra.
Qed.

Lemma dot_zeros (n : nat) (w : vec) : dot (zeros n) w = 0.
Proof.
  unfold zeros. revert w. induction n as [ | n IH]; intros [ | z w]; simpl.
  - reflexivity.
  - reflexivity.
  - apply dot_nil_r.
  - rewrite dot_cons, IH. lra.
Qed.

Lemma dot_self_nonneg (u : vec) : 0 <= dot u u.
Proof.
  induction u as [ | x u IH]; [unfold dot, vmul, Rsum; simpl; lra | ].
  rewrite dot_cons. nra.
Qed.

(** [sum_i v[i] * L[i]], the vector [L^T v]. *)
Definition lincomb (d : nat) (v : vec) (L : mat) : vec :=
  fold_right (fun cl acc => vadd (vscale (fst cl) (snd cl)) acc) (zeros d) (combine v L).

Lemma lincomb_length (d : nat) (v : vec) (L : mat) :
  (forall l, In l L -> length l = d) -> length (lincomb d v L) = d.
Proof.
  unfold lincomb. revert L. induction v as [ | c v IH]; intros [ | l L] H; simpl;
    try (unfold zeros; apply repeat_length).
  apply vadd_length.
  - unfold vscale. rewrite length_map. apply H. left. reflexivity.
  - apply IH. intros l' Hl'. apply H. right. exact Hl'.
Qed.

Lemma dot_lincomb (d : nat) (v : vec) (L : mat) (w : vec) :
  (forall l, In l L -> length l = d) -> length w = d ->
  dot (lincomb d v L) w = dot v (map (fun l => dot l w) L).
Proof.
  intros HL Hw. revert L HL. induction v as [ | c v IH]; intros [ | l L] HL; simpl.
  - unfold lincomb. simpl. rewrite dot_zeros. reflexivity.
  - unfold lincomb. simpl. rewrite dot_zeros. reflexivity.
  - unfold lincomb. simpl. rewrite dot_zeros, dot_nil_r. reflexivity.
  - change (lincomb d (c :: v) (l :: L))
      with (vadd (vscale c l) (lincomb d v L)).
    rewrite dot_vadd.
    + rewrite dot_vscale, dot_cons, IH; [reflexivity | ].
      intros l' Hl'. apply HL. right. exact Hl'.
    + unfold vscale. rewrite length_map, Hw. apply HL. left. reflexivity.
    + rewrite Hw. apply lincomb_length. intros l' Hl'. apply HL. right. exact Hl'.
Qed.

(** A Gram matrix [L L^T] is positive semidefinite. *)
Lemma gram_psd (d : nat) (L : mat) (v : vec) :
  (forall l, In l L -> length l = d) ->
  0 <= dot v (matvec (matmul_T L) v).
Proof.
  intros HL. unfold matmul_T, dot_T, matvec. rewrite map_map.
  assert (E : map (fun x => dot (map (fun w => dot x w) L) v) L
              = map (fun x => dot x (lincomb d v L)) L).
  { apply map_ext_in. intros x Hx.
    rewrite dot_comm.
    rewrite (map_ext (fun w => dot x w) (fun w => dot w x))
      by (intros; apply dot_comm).
    rewrite <- (dot_lincomb d v L x HL (HL x Hx)). apply dot_comm. }
  rewrite E.
  rewrite <- (dot_lincomb d v L (lincomb d v L) HL (lincomb_length d v L HL)).
  apply dot_self_nonneg.
Qed.

Lemma gram_symmetric (L : mat) : symmetric (matmul_T L).
Proof.
  unfold symmetric, matmul_T, dot_T. intros i j.
  destruct (Nat.lt_ge_cases i (length L)) as [Hi | Hi];
    destruct (Nat.lt_ge_cases j (length L)) as [Hj | Hj].
  - rewrite (nth_map_in_range _ L i [] []) by exact Hi.
    rewrite (nth_map_in_range _ L j [] []) by exact Hj.
    rewrite (nth_map_in_range _ L j [] 0) by exact Hj.
    rewrite (nth_map_in_range _ L i [] 0) by exact Hi.
    apply dot_comm.
  - rewrite (nth_map_in_range _ L i [] []) by exact Hi.
    rewrite (nth_overflow _ 0) by (rewrite length_map; exact Hj).
    rewrite (nth_overflow (map _ L) []) by (rewrite length_map; exact Hj).
    destruct i; reflexivity.
  - rewrite (nth_overflow (map _ L) []) by (rewrite length_map; exact Hi).
    rewrite (nth_map_in_range _ L j [] []) by exact Hj.
    rewrite (nth_overflow (map _ L) 0) by (rewrite length_map; exact Hi).
    destruct j; reflexivity.
  - rewrite (nth_overflow (map _ L) []) by (rewrite length_map; exact Hi).
    rewrite (nth_overflow (map _ L) []) by (rewrite length_map; exact Hj).
    destruct i, j; reflexivity.
Qed.

Lemma dot_scaled_indicator (a : R) (i s n : nat) (w : vec) :
  length w = n ->
  dot (map (fun j => if (i =? j)%nat then a else 0) (seq s n)) w
  = if ((s <=? i) && (i <? s + n))%nat then a * nth (i - s) w 0 else 0.
Proof.
  intros Hw.
  assert (E : map (fun j => if (i =? j)%nat then a else 0) (seq s n)
              = vscale a (map (fun j => if (i =? j)%nat then 1 else 0) (seq s n))).
  { unfold vscale. rewrite map_map. apply map_ext. intros j.
    destruct (i =? j)%nat; lra. }
  rewrite E, dot_vscale, dot_indicator by exact Hw.
  destruct ((s <=? i) && (i <? s + n))%nat; lra.
Qed.

Lemma diag_row (s : vec) (i : nat) :
  (i < length s)%nat ->
  nth i (diag s) [] = map (fun j => if (i =? j)%nat then nth i s 0 else 0)
                          (seq 0 (length s)).
Proof.
  intros Hi. unfold diag.
  rewrite (nth_map_in_range _ (seq 0 (length s)) i 0%nat [])
    by (rewrite length_seq; exact Hi).
  rewrite seq_nth by exact Hi. reflexivity.
Qed.

Lemma diag_symmetric (s : vec) : symmetric (diag s).
Proof.
  unfold symmetric. intros i j.
  assert (G : forall i j, (i < length s)%nat -> (j < length s)%nat ->
            nth j (nth i (diag s) []) 0 = if (i =? j)%nat then nth i s 0 else 0).
  { intros a b Ha Hb. rewrite diag_row by exact Ha.
    rewrite (nth_map_in_range _ (seq 0 (length s)) b 0%nat 0)
      by (rewrite length_seq; exact Hb).
    rewrite seq_nth by exact Hb. reflexivity. }
  assert (Hlen : length (diag s) = length s)
    by (unfold diag; rewrite length_map, length_seq; reflexivity).
  assert (Hrow : forall a, (a < length s)%nat -> length (nth a (diag s) []) = length s).
  { intros a Ha. rewrite diag_row by exact Ha. rewrite length_map, length_seq.
    reflexivity. }
  destruct (Nat.lt_ge_cases i (length s)) as [Hi | Hi];
    destruct (Nat.lt_ge_cases j (length s)) as [Hj | Hj].
  - rewrite !G by assumption. rewrite Nat.eqb_sym.
    destruct (Nat.eqb_spec j i) as [-> | _]; reflexivity.
  - rewrite (nth_overflow (nth i (diag s) []) 0) by (rewrite Hrow by exact Hi; exact Hj).
    rewrite (nth_overflow (diag s) []) by (rewrite Hlen; exact Hj).
    destruct i; reflexivity.
  - rewrite (nth_overflow (diag s) []) by (rewrite Hlen; exact Hi).
    rewrite (nth_overflow (nth j (diag s) []) 0) by (rewrite Hrow by exact Hj; exact Hi).
    destruct j; reflexivity.
  - rewrite !(nth_overflow (diag s) []) by (rewrite Hlen; assumption).
    destruct i, j; reflexivity.
Qed.

Lemma sum_weighted_squares_nonneg (s v : vec) :
  forallb (Rltb 0) s = true ->
  0 <= dot v (map2 (fun s_i v_i => s_i * v_i) s v).
Proof.
  revert v. induction s as [ | x s IH]; intros [ | y v] H; simpl in *;
    try (rewrite ?dot_nil_r; unfold dot, vmul, Rsum; simpl; lra).
  apply andb_prop in H. destruct H as [Hx Hs]. apply Rltb_true in Hx.
  rewrite dot_cons. specialize (IH v Hs). nra.
Qed.

Lemma diag_psd (s v : vec) :
  forallb (Rltb 0) s = true -> length v = length s ->
  0 <= dot v (matvec (diag s) v).
Proof.
  intros Hs Hv.
  assert (E : matvec (diag s) v = map2 (fun s_i v_i => s_i * v_i) s v).
  { unfold matvec. apply (nth_ext _ _ 0 0).
    - rewrite length_map, map2_length. unfold diag.
      rewrite length_map, length_seq. lia.
    - intros i Hi. rewrite length_map in Hi.
      assert (Hi' : (i < length s)%nat)
        by (unfold diag in Hi; rewrite length_map, length_seq in Hi; exact Hi).
      rewrite (nth_map_in_range _ (diag s) i [] 0) by exact Hi.
      rewrite diag_row by exact Hi'.
      rewrite dot_scaled_indicator by exact Hv.
      replace ((0 <=? i) && (i <? 0 + length s))%nat with true
        by (symmetry; apply andb_true_iff; split;
            [apply Nat.leb_le; lia | apply Nat.ltb_lt; lia]).
      rewrite Nat.sub_0_r.
      rewrite (nth_map2 (fun s_i v_i => s_i * v_i) s v i 0 0 0) by lia.
      reflexivity. }
  rewrite E. apply sum_weighted_squares_nonneg. exact Hs.
Qed.

Lemma exp_all_positive (l : mat) : all_positive (map (map exp) l) = true.
Proof.
  unfold all_positive. apply forallb_forall. intros r Hr.
  apply in_map_iff in Hr. destruct Hr as (r0 & <- & _).
  apply forallb_forall. intros x Hx. apply in_map_iff in Hx.
  destruct Hx as (x0 & <- & _). apply Rltb_true. apply exp_pos.
Qed.

(** Whatever is stored, the getters return valid noise parameters: the
    variances and the degrees of freedom are positive; on an instance with
    the shapes of its class every covariance [Sigmas[k]] and
    [Sigmas_init[k]] is symmetric and positive semidefinite (a Gram matrix
    in the full-covariance classes, a positive diagonal in the diagonal
    ones). *)
Theorem noise_getters_valid (m : model) :
  (forall s, sigmasq m = Ok s -> all_positive s = true)
  /\ (forall s, sigmasq_init m = Ok s -> all_positive s = true)
  /\ (forall nu, nus m = Ok nu -> forallb (Rltb 0) nu = true)
  /\ (forall nu, nus_per_dim m = Ok nu -> all_positive nu = true)
  /\ (coherent m = true ->
      forall S k v,
        Sigmas m = Ok S \/ Sigmas_init m = Ok S ->
        (k < K m)%nat -> length v = D m ->
        symmetric (nth k S []) /\ 0 <= dot v (matvec (nth k S []) v)).
Proof.
  split; [ | split; [ | split; [ | split]]].
  - unfold sigmasq, get_log_sigmasq. intros s H.
    destruct (kind m), (noise_params m); simpl in H; inversion H;
      apply exp_all_positive.
  - unfold sigmasq_init, get_log_sigmasq_init. intros s H.
    destruct (kind m), (noise_params m); simpl in H; inversion H;
      apply exp_all_positive.
  - unfold nus. intros nu H. destruct (nus_params m); inversion H.
    apply forallb_forall. intros x Hx. apply in_map_iff in Hx.
    destruct Hx as (x0 & <- & _). apply Rltb_true. apply exp_pos.
  - unfold nus_per_dim. intros nu H. destruct (nus_params m); inversion H.
    apply exp_all_positive.
  - intros Hco S k v HS Hk Hv.
    unfold coherent in Hco. apply andb_prop in Hco. destruct Hco as [_ Hco].
    unfold Sigmas, Sigmas_init, get_sqrt_Sigmas, get_sqrt_Sigmas_init,
      get_log_sigmasq, get_log_sigmasq_init in HS.
    assert (Gram : forall s : tensor3, has_shape3 s (K m) (D m) (D m) = true ->
              symmetric (nth k (map matmul_T s) [])
              /\ 0 <= dot v (matvec (nth k (map matmul_T s) []) v)).
    { intros s Hs. pose proof (has_shape3_length _ _ _ _ Hs) as Hl.
      rewrite (nth_map_in_range matmul_T s k [] []) by lia.
      split; [apply gram_symmetric | ].
      apply (gram_psd (D m)). intros l Hl'.
      apply (shape3_rows s (K m) (D m) (D m) k l Hs Hk Hl'). }
    assert (Diag : forall l : mat, has_shape2 l (K m) (D m) = true ->
              symmetric (nth k (map (fun log_s => diag (map exp log_s)) l) [])
              /\ 0 <= dot v (matvec (nth k (map (fun log_s => diag (map exp log_s)) l) [])
                               v)).
    { intros l Hl. apply has_shape2_spec in Hl. destruct Hl as [Hl1 Hl2].
      rewrite (nth_map_in_range (fun log_s => diag (map exp log_s)) l k [] []) by lia.
      split; [apply diag_symmetric | ].
      apply diag_psd.
      - apply forallb_forall. intros x Hx. apply in_map_iff in Hx.
        destruct Hx as (x0 & <- & _). apply Rltb_true. apply exp_pos.
      - rewrite length_map, Hl2 by exact Hk. exact Hv. }
    destruct (kind m); destruct (noise_params m) as [s0 s | l0 l];
      destruct (nus_params m) as [ | nu | nu]; try discriminate Hco;
      repeat match goal with
             | H : (_ && _)%bool = true |- _ => apply andb_prop in H; destruct H
             end;
      cbn [bind] in HS; destruct HS as [HS | HS]; inversion HS; subst S;
      first [apply Gram; assumption | apply Diag; assumption].
Qed.

Lemma noise_getters_valid_witness :
  coherent diagonal_1x2 = true
  /\ (forall S k v,
        Sigmas diagonal_1x2 = Ok S \/ Sigmas_init diagonal_1x2 = Ok S ->
        (k < K diagonal_1x2)%nat -> length v = D diagonal_1x2 ->
        symmetric (nth k S []) /\ 0 <= dot v (matvec (nth k S []) v)).
Proof.
  split; [reflexivity | ].
  apply (noise_getters_valid diagonal_1x2). reflexivity.
Defined.

(** ** The sampler of the independent class *)

Lemma nth_concat_uniform {A : Type} (d : nat) (ls : list (list A)) (c : nat) (def : A) :
  (0 < d)%nat -> (forall l, In l ls -> length l = d) ->
  nth c (concat ls) def = nth (c mod d) (nth (c / d) ls []) def.
Proof.
  intros Hd. revert c. induction ls as [ | l ls IH]; intros c H.
  - simpl. destruct (c / d)%nat; destruct (c mod d)%nat; destruct c; reflexivity.
  - assert (Hl : length l = d) by (apply H; left; reflexivity).
    simpl concat. destruct (Nat.lt_ge_cases c d) as [Hc | Hc].
    + rewrite app_nth1 by lia.
      rewrite Nat.div_small, Nat.mod_small by exact Hc. reflexivity.
    + rewrite app_nth2 by lia. rewrite Hl.
      rewrite IH by (intros l' Hl'; apply H; right; exact Hl').
      assert (E : c = (c - d + 1 * d)%nat) by lia.
      rewrite E at 3 4.
      rewrite Nat.div_add, Nat.Div0.mod_add by lia.
      replace ((c - d) / d + 1)%nat with (S ((c - d) / d)) by lia.
      reflexivity.
Qed.

Lemma hstack_row (b0 : mat) (blocks : list mat) (i : nat) :
  (i < length b0)%nat ->
  nth i (hstack (b0 :: blocks)) [] = concat (map (fun b => nth i b []) (b0 :: blocks)).
Proof.
  intros Hi. unfold hstack.
  rewrite (nth_map_in_range _ (seq 0 (length b0)) i 0%nat [])
    by (rewrite length_seq; exact Hi).
  rewrite seq_nth by exact Hi. reflexivity.
Qed.

Lemma diag_length (s : vec) : length (diag s) = length s.
Proof. unfold diag. rewrite length_map, length_seq. reflexivity. Qed.

(** The dense matrix of the independent class: entry [(i, c)] of
    [column_stack([diag(Ak[:, l]) for l in range(lags)])]. *)
Lemma As_dense_entry (lags d : nat) (Ak : mat) (i c : nat) :
  length Ak = d -> (i < d)%nat -> (c < d * lags)%nat ->
  nth c (nth i (hstack (map (fun l => diag (col l Ak)) (seq 0 lags))) []) 0
  = if (c mod d =? i)%nat then nth (c / d) (nth i Ak []) 0 else 0.
Proof.
  intros HA Hi Hc.
  assert (Hcol : forall l, length (col l Ak) = d)
    by (intros l; unfold col; rewrite length_map; exact HA).
  destruct lags as [ | n]; [lia | ].
  change (seq 0 (S n)) with (0%nat :: seq 1 n). cbn [map].
  rewrite hstack_row by (rewrite diag_length, Hcol; exact Hi).
  change (diag (col 0 Ak) :: map (fun l => diag (col l Ak)) (seq 1 n))
    with (map (fun l => diag (col l Ak)) (seq 0 (S n))).
  rewrite map_map.
  assert (Hrow : forall l, nth i (diag (col l Ak)) []
                  = map (fun j => if (i =? j)%nat then nth l (nth i Ak []) 0 else 0)
                        (seq 0 d)).
  { intros l. rewrite diag_row by (rewrite Hcol; exact Hi). rewrite Hcol.
    apply map_ext. intros j. unfold col.
    rewrite (nth_map_in_range _ Ak i [] 0) by lia. reflexivity. }
  rewrite (nth_concat_uniform d).
  - assert (Hq : (c / d < S n)%nat) by (apply Nat.Div0.div_lt_upper_bound; lia).
    assert (Hr : (c mod d < d)%nat) by (apply Nat.mod_upper_bound; lia).
    rewrite (nth_map_in_range _ (seq 0 (S n)) (c / d) 0%nat [])
      by (rewrite length_seq; exact Hq).
    rewrite seq_nth by exact Hq. rewrite Hrow.
    rewrite (nth_map_in_range _ (seq 0 d) (c mod d) 0%nat 0)
      by (rewrite length_seq; exact Hr).
    rewrite seq_nth by exact Hr. cbn [Nat.add]. rewrite Nat.eqb_sym. reflexivity.
  - lia.
  - intros l Hl. apply in_map_iff in Hl. destruct Hl as (l0 & <- & _).
    rewrite Hrow, length_map, length_seq. reflexivity.
Qed.

Lemma As_dense_row_length (lags d : nat) (Ak : mat) (i : nat) :
  length Ak = d -> (i < d)%nat -> (0 < lags)%nat ->
  length (nth i (hstack (map (fun l => diag (col l Ak)) (seq 0 lags))) []) = (d * lags)%nat.
Proof.
  intros HA Hi Hl.
  assert (Hcol : forall l, length (col l Ak) = d)
    by (intros l; unfold col; rewrite length_map; exact HA).
  destruct lags as [ | n]; [lia | ].
  change (seq 0 (S n)) with (0%nat :: seq 1 n). cbn [map].
  rewrite hstack_row by (rewrite diag_length, Hcol; exact Hi).
  change (diag (col 0 Ak) :: map (fun l => diag (col l Ak)) (seq 1 n))
    with (map (fun l => diag (col l Ak)) (seq 0 (S n))).
  rewrite map_map.
  assert (G : forall ls : list nat,
            length (concat (map (fun l => nth i (diag (col l Ak)) []) ls))
            = (d * length ls)%nat).
  { induction ls as [ | l ls IH]; [simpl; lia | ].
    cbn [map concat length]. rewrite length_app, IH.
    rewrite diag_row by (rewrite Hcol; exact Hi).
    rewrite length_map, length_seq, Hcol. lia. }
  rewrite G, length_seq. reflexivity.
Qed.

Lemma sequence_map_Ok_in {A B : Type} (f : A -> result B) (g : A -> B) (l : list A) :
  (forall a, In a l -> f a = Ok (g a)) -> sequence (map f l) = Ok (map g l).
Proof.
  intros H. rewrite (map_ext_in f (fun a => Ok (g a)) l H). apply sequence_map_Ok.
Qed.

Lemma fold_left_vadd_map {B : Type} (h : B -> vec) (ls : list B) (a : vec) :
  fold_left (fun mu b => vadd mu (h b)) ls a = fold_left vadd (map h ls) a.
Proof.
  revert a. induction ls as [ | b ls IH]; intros a; [reflexivity | ].
  simpl. apply IH.
Qed.

(** Column [lag] of the dense matrix, as [As[z, :, lag]] reads it. *)
Definition dense_column (d : nat) (Ak : mat) (lag : nat) : vec :=
  map (fun i => if (lag mod d =? i)%nat then nth (lag / d) (nth i Ak []) 0 else 0) (seq 0 d).

Lemma dense_column_read (lags d : nat) (Ak : mat) (lag : nat) :
  length Ak = d -> (lag < lags)%nat ->
  sequence (map (fun row => item row lag)
                (hstack (map (fun l => diag (col l Ak)) (seq 0 lags))))
  = Ok (dense_column d Ak lag).
Proof.
  intros HA Hlag.
  set (Az := hstack (map (fun l => diag (col l Ak)) (seq 0 lags))).
  assert (HAz : length Az = d).
  { unfold Az. destruct lags as [ | n]; [lia | ].
    change (seq 0 (S n)) with (0%nat :: seq 1 n). cbn [map hstack].
    rewrite length_map, length_seq, diag_length. unfold col.
    rewrite length_map. exact HA. }
  assert (E : Az = map (fun i => nth i Az []) (seq 0 d)).
  { apply (nth_ext _ _ [] []); [rewrite length_map, length_seq; exact HAz | ].
    intros i Hi. rewrite HAz in Hi.
    rewrite (nth_map_in_range _ (seq 0 d) i 0%nat []) by (rewrite length_seq; exact Hi).
    rewrite seq_nth by exact Hi. reflexivity. }
  rewrite E, map_map. unfold dense_column.
  apply sequence_map_Ok_in. intros i Hi. apply in_seq in Hi.
  assert (Hc : (lag < d * lags)%nat) by nia.
  rewrite (item_Ok _ lag 0)
    by (unfold Az; rewrite (As_dense_row_length lags d) by lia; exact Hc).
  unfold Az. rewrite (As_dense_entry lags d Ak i lag) by lia. reflexivity.
Qed.

(** The noise-free sampler of the independent class reads column [lag] of
    the dense block-diagonal matrix, not the coefficients of lag [lag]:
    dimension [d] of the sample is [bs[z][d]] plus, for the lags with
    [lag mod D = d], [_As[z][d][lag / D] * xhist[-lag-1][d]].  The input
    plays no part, and a dimension [d >= lags] gets no autoregressive term
    at all (with the default [lags = 1], every dimension but the first). *)
Theorem sample_x_independent_noise_free (N : Numerics) (m : model) (z : nat)
    (xhist : mat) (input : option vec) (randn : vec) (tau : R) (taus : vec) :
  kind m = IndependentAutoRegressiveObservations ->
  well_shaped m = true -> coherent m = true ->
  has_shape2 xhist (length xhist) (D m) = true ->
  (lags m <= length xhist)%nat -> (z < K m)%nat -> length randn = D m ->
  exists x,
    sample_x m z xhist input false randn tau taus = Ok (Some x)
    /\ length x = D m
    /\ (forall d, (d < D m)%nat ->
          nth d x 0
          = nth d (nth z (bs m) []) 0
            + Rsum (map (fun lag =>
                           if (lag mod D m =? d)%nat
                           then nth (lag / D m) (nth d (nth z (_As m) []) []) 0
                                * nth d (from_end xhist lag) 0
                           else 0)
                        (seq 0 (lags m))))
    /\ (forall d, (lags m <= d)%nat -> (d < D m)%nat ->
          nth d x 0 = nth d (nth z (bs m) []) 0).
Proof.
  intros Hk Hws Hco Hx HT Hz Hr.
  destruct (well_shaped_state m z Hws Hz)
    as (Hl & Hmu & Hmuz & Hb & Hbz & HA & HAz & HV & HVz).
  pose proof (coherent_getters m Hco) as Hg. rewrite Hk in Hg.
  destruct Hg as (s0 & s1 & Hs0 & Hs1 & Hl0 & Hl1).
  apply has_shape2_spec in Hx. destruct Hx as [_ Hrows].
  set (h := fun lag => vmul (dense_column (D m) (nth z (_As m) []) lag)
                            (from_end xhist lag)).
  assert (Hh : forall lag, (lag < lags m)%nat -> length (h lag) = D m).
  { intros lag Hlag. unfold h, vmul. rewrite map2_length. unfold dense_column.
    rewrite length_map, length_seq. unfold from_end. rewrite Hrows by lia. lia. }
  assert (Hfold :
    fold_left (fun acc lag =>
                 muz <- acc ;;
                 Az <- item (As m) z ;;
                 a <- sequence (map (fun row => item row lag) Az) ;;
                 v <- np_mul a (from_end xhist lag) ;;
                 np_iadd muz v)
              (seq 0 (lags m)) (Ok (nth z (bs m) []))
    = Ok (fold_left (fun mu lag => vadd mu (h lag)) (seq 0 (lags m)) (nth z (bs m) []))
    /\ length (fold_left (fun mu lag => vadd mu (h lag)) (seq 0 (lags m))
                 (nth z (bs m) [])) = D m).
  { apply (fold_bind_Ok (fun a : vec => length a = D m)); [exact Hbz | ].
    intros a lag Ha Hlag. apply in_seq in Hlag.
    unfold As. rewrite Hk. cbn [is_independent]. unfold As_dense.
    rewrite (item_Ok _ z []) by (rewrite length_map; lia).
    rewrite (nth_map_in_range _ (_As m) z [] []) by lia.
    cbn [bind].
    rewrite (dense_column_read (lags m) (D m)) by lia.
    cbn [bind].
    assert (Hlen : length (dense_column (D m) (nth z (_As m) []) lag)
                   = length (from_end xhist lag)).
    { unfold dense_column. rewrite length_map, length_seq. unfold from_end.
      rewrite Hrows by lia. reflexivity. }
    unfold np_mul, bzip. rewrite Hlen, Nat.eqb_refl.
    rewrite (sequence_map2_Ok _ Rmult) by (intros; reflexivity).
    cbn [bind]. fold (vmul (dense_column (D m) (nth z (_As m) []) lag)
                           (from_end xhist lag)).
    fold (h lag).
    rewrite np_iadd_Ok by (rewrite Hh by lia; symmetry; exact Ha).
    split; [reflexivity | ].
    apply vadd_length; [exact Ha | apply Hh; lia]. }
  destruct Hfold as [Hfold Hlen].
  set (x := fold_left (fun mu lag => vadd mu (h lag)) (seq 0 (lags m)) (nth z (bs m) [])) in *.
  exists x.
  assert (Hentry : forall d, (d < D m)%nat ->
            nth d x 0
            = nth d (nth z (bs m) []) 0
              + Rsum (map (fun lag =>
                             if (lag mod D m =? d)%nat
                             then nth (lag / D m) (nth d (nth z (_As m) []) []) 0
                                  * nth d (from_end xhist lag) 0
                             else 0)
                          (seq 0 (lags m)))).
  { intros d Hd. unfold x. rewrite fold_left_vadd_map.
    destruct (nth_fold_vadd (map h (seq 0 (lags m))) (nth z (bs m) []) d (D m))
      as [_ E]; [exact Hbz | | exact Hd | ].
    { intros v Hv. apply in_map_iff in Hv. destruct Hv as (lag & <- & Hlag).
      apply in_seq in Hlag. apply Hh. lia. }
    rewrite E, map_map. f_equal. f_equal.
    apply map_ext_in. intros lag Hlag. apply in_seq in Hlag.
    unfold h, vmul.
    rewrite (nth_map2 Rmult _ _ d 0 0 0).
    - unfold dense_column.
      rewrite (nth_map_in_range _ (seq 0 (D m)) d 0%nat 0)
        by (rewrite length_seq; exact Hd).
      rewrite seq_nth by exact Hd. cbn [Nat.add].
      destruct (lag mod D m =? d)%nat; lra.
    - unfold dense_column. rewrite length_map, length_seq. exact Hd.
    - unfold from_end. rewrite Hrows by lia. exact Hd. }
  split; [ | split; [exact Hlen | split; [exact Hentry | ]]].
  - unfold sample_x. rewrite Hk. unfold sample_x_independent.
    rewrite Hs1. cbn [bind].
    replace (length xhist <? lags m)%nat with false
      by (symmetry; apply Nat.ltb_ge; exact HT).
    rewrite (item_Ok (bs m) z []) by lia. cbn [bind].
    rewrite Hfold. cbn [bind scaled_noise]. rewrite sqrt_0.
    rewrite np_add_Ok by (unfold vscale; rewrite length_map; congruence).
    rewrite vadd_scaled_zero by congruence. reflexivity.
  - intros d Hge Hd. rewrite Hentry by exact Hd.
    assert (Z : forall ls : list nat, (forall lag, In lag ls -> (lag < lags m)%nat) ->
              Rsum (map (fun lag =>
                           if (lag mod D m =? d)%nat
                           then nth (lag / D m) (nth d (nth z (_As m) []) []) 0
                                * nth d (from_end xhist lag) 0
                           else 0) ls) = 0).
    { induction ls as [ | lag ls IH]; intros Hls; [reflexivity | ].
      cbn [map]. unfold Rsum in *. cbn [fold_right].
      rewrite IH by (intros l' Hl'; apply Hls; right; exact Hl').
      assert (Hlag : (lag < lags m)%nat) by (apply Hls; left; reflexivity).
      rewrite Nat.mod_small by lia.
      destruct (Nat.eqb_spec lag d); [lia | lra]. }
    rewrite Z; [lra | ].
    intros lag Hlag. apply in_seq in Hlag. lia.
Qed.

Lemma sample_x_independent_noise_free_witness :
  exists x,
    @sample_x example_numerics independent_1x2 0 [[5; 7]] None false [1; 1] 1 []
    = Ok (Some x)
    /\ length x = 2%nat
    /\ (forall d, (d < 2)%nat ->
          nth d x 0
          = nth d [0; 0] 0
            + Rsum (map (fun lag =>
                           if (lag mod 2 =? d)%nat
                           then nth (lag / 2) (nth d [[2]; [3]] []) 0
                                * nth d (from_end [[5; 7]] lag) 0
                           else 0)
                        (seq 0 1)))
    /\ (forall d, (1 <= d)%nat -> (d < 2)%nat -> nth d x 0 = nth d [0; 0] 0).
Proof.
  apply (sample_x_independent_noise_free example_numerics independent_1x2 0 [[5; 7]]
           None [1; 1] 1 []);
    try reflexivity; simpl; lia.
Defined.

(** ** The predicted means of the robust E-steps *)

Lemma dot_app (a b c e : vec) :
  length a = length c -> dot (a ++ b) (c ++ e) = dot a c + dot b e.
Proof.
  revert c. induction a as [ | x a IH]; intros [ | y c] H; simpl in H;
    try discriminate.
  - simpl. unfold dot at 2, vmul, Rsum. simpl. lra.
  - simpl app. rewrite !dot_cons, IH by lia. lra.
Qed.

Lemma slice_skipn {A : Type} (n a b : nat) (l : list A) :
  slice (n + a) (n + b) l = slice a b (skipn n l).
Proof.
  unfold slice. rewrite skipn_skipn.
  replace (n + b - (n + a))%nat with (b - a)%nat by lia.
  replace (a + n)%nat with (n + a)%nat by lia. reflexivity.
Qed.

(** A row against the concatenation of [n] blocks of length [d]. *)
Lemma dot_concat_blocks (d : nat) (xs : mat) (a : vec) :
  (forall x, In x xs -> length x = d) -> length a = (d * length xs)%nat ->
  dot a (concat xs)
  = Rsum (map (fun l => dot (slice (l * d) ((l + 1) * d) a) (nth l xs []))
              (seq 0 (length xs))).
Proof.
  revert a. induction xs as [ | x xs IH]; intros a Hxs Ha.
  - simpl. rewrite dot_nil_r. reflexivity.
  - cbn [concat length seq map].
    rewrite <- (firstn_skipn d a) at 1.
    rewrite dot_app.
    2:{ rewrite length_firstn, (Hxs x) by (left; reflexivity).
        cbn [length] in Ha. nia. }
    unfold Rsum. cbn [fold_right]. fold (Rsum (map (fun l =>
        dot (slice (l * d) ((l + 1) * d) a) (nth l (x :: xs) [])) (seq 1 (length xs)))).
    f_equal.
    + unfold slice. cbn [Nat.mul Nat.add nth skipn]. rewrite Nat.add_0_r, Nat.sub_0_r.
      reflexivity.
    + rewrite IH.
      * rewrite <- seq_shift, map_map. f_equal. apply map_ext. intros l.
        cbn [nth].
        replace (S l * d)%nat with (d + l * d)%nat by lia.
        replace ((S l + 1) * d)%nat with (d + (l + 1) * d)%nat by lia.
        rewrite slice_skipn. reflexivity.
      * intros y Hy. apply Hxs. right. exact Hy.
      * rewrite length_skipn. cbn [length] in Ha. nia.
Qed.

Lemma nth_vsum (d : nat) (vs : list vec) (i : nat) :
  (forall v, In v vs -> length v = d) -> (i < d)%nat ->
  nth i (vsum d vs) 0 = Rsum (map (fun v => nth i v 0) vs).
Proof.
  intros H Hi. induction vs as [ | v vs IH].
  - simpl. unfold zeros. apply nth_repeat.
  - cbn [vsum fold_right map]. fold (vsum d vs). unfold vadd.
    rewrite (nth_map2 Rplus v (vsum d vs) i 0 0 0).
    + rewrite IH by (intros w Hw; apply H; right; exact Hw). reflexivity.
    + rewrite (H v) by (left; reflexivity). exact Hi.
    + rewrite vsum_length by (intros w Hw; apply H; right; exact Hw). exact Hi.
Qed.

Lemma nth_matvec (W : mat) (x : vec) (i : nat) :
  (i < length W)%nat -> nth i (matvec W x) 0 = dot (nth i W []) x.
Proof.
  intros Hi. unfold matvec.
  rewrite (nth_map_in_range (fun w => dot w x) W i [] 0) by exact Hi. reflexivity.
Qed.

(** Row [t] of the design matrix: the [lags] previous observations, the
    latest first, then the input of the row and the constant [1]. *)
Lemma design_row (lags M : nat) (data input : mat) (t : nat) :
  (0 < lags)%nat -> (lags <= length data)%nat -> length input = length data ->
  (t < length data - lags)%nat ->
  length (design lags M data input) = (length data - lags)%nat
  /\ nth t (design lags M data input) []
     = concat (map (fun l => nth (lags - l - 1 + t) data []) (seq 0 lags))
       ++ firstn M (nth (lags + t) input []) ++ [1].
Proof.
  intros Hl HT Hin Ht. unfold design.
  destruct lags as [ | n]; [lia | ].
  assert (Hlen0 : length (lagged (S n) 0 data) = (length data - S n)%nat)
    by (unfold lagged; rewrite slice_length by lia; lia).
  set (tail := [cols 0 M (skipn (S n) input); ones (length data - S n) 1]).
  assert (E : map (fun l => lagged (S n) l data) (seq 0 (S n)) ++ tail
              = lagged (S n) 0 data
                :: (map (fun l => lagged (S n) l data) (seq 1 n) ++ tail))
    by reflexivity.
  split; [rewrite E; unfold hstack; rewrite length_map, length_seq; exact Hlen0 | ].
  rewrite E, hstack_row by (rewrite Hlen0; exact Ht).
  rewrite <- E. unfold tail.
  rewrite map_app, concat_app, map_map.
  change (concat (map (fun b => nth t b [])
                      [cols 0 M (skipn (S n) input); ones (length data - S n) 1]))
    with (nth t (cols 0 M (skipn (S n) input)) []
          ++ nth t (ones (length data - S n) 1) [] ++ []).
  rewrite app_nil_r. f_equal; [ | f_equal].
  - f_equal. apply map_ext_in. intros l Hlag. apply in_seq in Hlag.
    unfold lagged. apply nth_slice. lia.
  - unfold cols.
    rewrite (nth_map_in_range _ (skipn (S n) input) t [] [])
      by (rewrite length_skipn; lia).
    rewrite nth_skipn. unfold slice. cbn [skipn]. rewrite Nat.sub_0_r. reflexivity.
  - unfold ones. rewrite nth_repeat_lt by exact Ht. reflexivity.
Qed.

(** Row [d] of [Afull[k]]: the coefficients, the input weights and the
    bias of dimension [d]. *)
Lemma Afull_row (m : model) (k d : nat) :
  well_shaped m = true -> (k < K m)%nat -> (d < D m)%nat ->
  length (Afull m) = K m
  /\ length (nth k (Afull m) []) = D m
  /\ nth d (nth k (Afull m) []) []
     = nth d (nth k (As m) []) [] ++ nth d (nth k (Vs m) []) []
       ++ [nth d (nth k (bs m) []) 0].
Proof.
  intros Hws Hk Hd.
  destruct (well_shaped_state m k Hws Hk)
    as (Hl & Hmu & Hmuz & Hb & Hbz & HA & HAz & HV & HVz).
  assert (HAs : length (As m) = K m /\ length (nth k (As m) []) = D m).
  { unfold As. destruct (is_independent (kind m)); [ | split; assumption].
    destruct (As_dense_shape (lags m) (_As m) k (K m) (D m) Hl HA) as [H1 H2].
    - intros j Hj.
      destruct (well_shaped_state m j Hws Hj) as (_ & _ & _ & _ & _ & _ & H & _).
      exact H.
    - split; [exact H1 | apply H2; exact Hk]. }
  destruct HAs as [HAs HAsk].
  unfold Afull.
  assert (E : nth k (map (fun '(A, (V, b)) =>
                            map2 (fun a '(v, b_d) => a ++ v ++ [b_d]) A (combine V b))
                         (combine (As m) (combine (Vs m) (bs m)))) []
              = map2 (fun a '(v, b_d) => a ++ v ++ [b_d]) (nth k (As m) [])
                     (combine (nth k (Vs m) []) (nth k (bs m) []))).
  { rewrite (nth_map_in_range _ _ k ([], ([], [])) [])
      by (rewrite !length_combine; lia).
    rewrite !combine_nth by (rewrite ?length_combine; lia). reflexivity. }
  split; [rewrite length_map, !length_combine; lia | ].
  rewrite E. split; [rewrite map2_length, length_combine; lia | ].
  rewrite (nth_map2 _ _ _ d [] ([], 0) []) by (rewrite ?length_combine; lia).
  rewrite combine_nth by lia. reflexivity.
Qed.

(** The E-steps of the robust M-steps compute the predicted means as
    [Afull @ x] over the design matrix instead of calling [_compute_mus]:
    on complete shapes the two agree, row [t] of the product being row
    [t + lags] of the predictor. *)
Theorem estep_means_are_compute_mus (m : model) (data input : mat) :
  is_independent (kind m) = false ->
  well_shaped m = true -> coherent m = true ->
  has_shape2 data (length data) (D m) = true ->
  has_shape2 input (length data) (M m) = true ->
  (lags m <= length data)%nat ->
  exists mus,
    _compute_mus m data input = Ok mus
    /\ length (predicted m (design (lags m) (M m) data input))
       = (length data - lags m)%nat
    /\ forall t k, (t < length data - lags m)%nat -> (k < K m)%nat ->
         nth k (nth t (predicted m (design (lags m) (M m) data input)) []) []
         = nth (t + lags m) (nth k mus []) [].
Proof.
  intros Hind Hws Hco Hdata Hinput HT.
  exists (compute_mus_base m data input).
  split; [unfold _compute_mus; rewrite Hind; reflexivity | ].
  destruct (coherent_shapes m Hco) as [HAs HVs]. rewrite Hind in HAs.
  assert (HAsm : As m = _As m) by (unfold As; rewrite Hind; reflexivity).
  assert (Hl : (0 < lags m)%nat).
  { unfold well_shaped in Hws.
    repeat (apply andb_prop in Hws; destruct Hws as [Hws _]).
    apply Nat.ltb_lt. exact Hws. }
  pose proof (has_shape2_length _ _ _ Hinput) as Hin.
  apply has_shape2_spec in Hdata. destruct Hdata as [_ Hrows].
  apply has_shape2_spec in Hinput. destruct Hinput as [_ Hinrows].
  destruct (Nat.eq_dec (length data - lags m) 0) as [Hz | Hnz].
  { split; [ | intros t k Ht; lia].
    unfold predicted, design. rewrite length_map.
    destruct (lags m) as [ | n]; [lia | ].
    change (seq 0 (S n)) with (0%nat :: seq 1 n). cbn [map app hstack].
    rewrite length_map, length_seq. unfold lagged.
    rewrite slice_length by lia. lia. }
  assert (HD : length (hd [] data) = D m).
  { destruct data as [ | x0 data]; [simpl in Hnz; lia | ].
    apply (Hrows 0%nat). simpl. lia. }
  split.
  { unfold predicted. rewrite length_map.
    destruct (design_row (lags m) (M m) data input 0) as [H _]; try assumption; lia. }
  intros t k Ht Hk.
  destruct (design_row (lags m) (M m) data input t Hl HT Hin Ht) as [Hlen Hrow].
  destruct (well_shaped_state m k Hws Hk)
    as (_ & Hmu & Hmuz & Hb & Hbz & HA & HAz & HV & HVz).
  rewrite compute_mus_base_spec by (try assumption; lia).
  replace (t + lags m <? lags m)%nat with false by (symmetry; apply Nat.ltb_ge; lia).
  assert (HAf : length (Afull m) = K m /\ length (nth k (Afull m) []) = D m).
  { destruct (Nat.eq_dec (D m) 0) as [HD0 | HD0].
    - unfold Afull. rewrite HAsm. split; [rewrite length_map, !length_combine; lia | ].
      rewrite (nth_map_in_range _ _ k ([], ([], [])) [])
        by (rewrite !length_combine; lia).
      rewrite !combine_nth by (rewrite ?length_combine; lia).
      rewrite map2_length, length_combine. lia.
    - destruct (Afull_row m k 0 Hws Hk) as (H1 & H2 & _); [lia | split; assumption]. }
  destruct HAf as [HAf HAfk].
  rewrite nth_predicted by (rewrite ?Hlen, ?HAf; assumption).
  set (xs := map (fun l => nth (lags m - l - 1 + t) data []) (seq 0 (lags m))) in *.
  assert (Hxs : forall x, In x xs -> length x = D m).
  { intros x Hx. unfold xs in Hx. apply in_map_iff in Hx.
    destruct Hx as (l & <- & Hlag). apply in_seq in Hlag. apply Hrows. lia. }
  assert (Hxsl : length xs = lags m) by (unfold xs; rewrite length_map, length_seq; reflexivity).
  assert (Hu : length (firstn (M m) (nth (lags m + t) input [])) = M m).
  { rewrite length_firstn, Hinrows by lia. lia. }
  assert (Hvs : forall v,
            In v (map (fun l => matvec (lag_block (D m) l (nth k (_As m) []))
                                       (nth (t + lags m - l) data []))
                      (seq 1 (lags m))) -> length v = D m).
  { intros v Hv. apply in_map_iff in Hv. destruct Hv as (l & <- & _).
    rewrite matvec_length. unfold lag_block, cols. rewrite length_map. exact HAz. }
  apply (nth_ext _ _ 0 0).
  { rewrite matvec_length, HAfk. unfold ar_mean. cbv zeta. rewrite HD, HAsm.
    symmetry. apply vadd_length; [apply vadd_length | exact Hbz].
    - apply vsum_length. exact Hvs.
    - rewrite matvec_length. exact HVz. }
  intros d Hd. rewrite matvec_length, HAfk in Hd.
  rewrite nth_matvec by (rewrite HAfk; exact Hd).
  destruct (Afull_row m k d Hws Hk Hd) as (_ & _ & Hrowd).
  rewrite Hrowd, Hrow, HAsm.
  assert (HAkd : length (nth d (nth k (_As m) []) []) = (D m * lags m)%nat).
  { apply (shape3_rows _ _ _ _ k _ HAs Hk). apply nth_In. rewrite HAz. exact Hd. }
  assert (HVkd : length (nth d (nth k (Vs m) []) []) = M m).
  { apply (shape3_rows _ _ _ _ k _ HVs Hk). apply nth_In. rewrite HVz. exact Hd. }
  rewrite dot_app.
  2:{ rewrite HAkd. clear - Hxs Hxsl. revert Hxs. rewrite <- Hxsl.
      generalize xs. induction xs0 as [ | x xs0 IH]; intros H; [simpl; lia | ].
      cbn [concat length]. rewrite length_app, <- IH
        by (intros y Hy; apply H; right; exact Hy).
      rewrite (H x) by (left; reflexivity). lia. }
  rewrite dot_app by congruence.
  rewrite (dot_concat_blocks (D m)) by (rewrite ?Hxsl; assumption).
  rewrite Hxsl.
  unfold ar_mean. cbv zeta. rewrite HD, HAsm. unfold vadd.
  rewrite (nth_map2 Rplus _ _ d 0 0 0).
  2:{ rewrite map2_length, vsum_length, matvec_length by exact Hvs. lia. }
  2:{ rewrite Hbz. exact Hd. }
  rewrite (nth_map2 Rplus _ _ d 0 0 0).
  2:{ rewrite vsum_length by exact Hvs. exact Hd. }
  2:{ rewrite matvec_length, HVz. exact Hd. }
  rewrite nth_vsum by (try exact Hvs; exact Hd).
  rewrite nth_matvec by (rewrite HVz; exact Hd).
  replace (lags m + t)%nat with (t + lags m)%nat by lia.
  replace (dot [nth d (nth k (bs m) []) 0] [1]) with (nth d (nth k (bs m) []) 0)
    by (unfold dot, vmul, Rsum; simpl; lra).
  assert (Esum :
    Rsum (map (fun l => dot (slice (l * D m) ((l + 1) * D m)
                               (nth d (nth k (_As m) []) []))
                            (nth l xs []))
              (seq 0 (lags m)))
    = Rsum (map (fun v => nth d v 0)
                (map (fun l => matvec (lag_block (D m) l (nth k (_As m) []))
                                      (nth (t + lags m - l) data []))
                     (seq 1 (lags m))))); [ | rewrite Esum; lra].
  rewrite <- seq_shift, !map_map. f_equal.
  apply map_ext_in. intros l Hlag. apply in_seq in Hlag.
  rewrite nth_matvec by (unfold lag_block, cols; rewrite length_map, HAz; exact Hd).
  unfold lag_block, cols.
  rewrite (nth_map_in_range _ (nth k (_As m) []) d [] []) by (rewrite HAz; exact Hd).
  unfold xs.
  rewrite (nth_map_in_range _ (seq 0 (lags m)) l 0%nat [])
    by (rewrite length_seq; lia).
  rewrite seq_nth by lia. cbn [Nat.add].
  replace (S l - 1)%nat with l by lia.
  replace (l + 1)%nat with (S l) by lia.
  replace (lags m - l - 1 + t)%nat with (t + lags m - S l)%nat by lia.
  reflexivity.
Qed.

Lemma estep_means_are_compute_mus_witness :
  exists mus,
    _compute_mus robust_diagonal_2x1 [[1]; [2]; [4]] [[]; []; []] = Ok mus
    /\ length (predicted robust_diagonal_2x1
                 (design 1 0 [[1]; [2]; [4]] [[]; []; []])) = 2%nat
    /\ forall t k, (t < 2)%nat -> (k < 2)%nat ->
         nth k (nth t (predicted robust_diagonal_2x1
                         (design 1 0 [[1]; [2]; [4]] [[]; []; []])) []) []
         = nth (t + 1) (nth k mus []) [].
Proof.
  apply (estep_means_are_compute_mus robust_diagonal_2x1 [[1]; [2]; [4]] [[]; []; []]);
    try reflexivity; simpl; lia.
Defined.
